(** * Koi: the pond controller and the fish body (spine) simulation

    A shallow embedding of [src/js/koi/pond.js] and [src/js/koi/fish/body.js]
    together with the properties their specification states about them,
    followed by [src/js/koi/weather/rain/rain.js] and, of
    [src/js/render/air.js], the air buffer, the capsule model of the plants
    and the sample of the body shape, with further properties of the
    code. *)

From Stdlib Require Import List ZArith Lia Bool Arith Reals Lra FinFun
  Permutation.
Import ListNotations.

(** * JavaScript numbers and completions

    A JavaScript Number is modelled as an extended real: a real number, one of
    the two infinities, or NaN.  The operations follow IEEE 754 on the special
    values (a division by zero gives an infinity or NaN, never an error) and
    are exact on the reals: rounding, overflow and the sign of zero are left
    out, and a zero divisor counts as [+0]. *)

Module JS.

Inductive Number : Type :=
| Fin (r : R)
| PInf
| NInf
| NaN.

Definition inf (positive : bool) : Number := if positive then PInf else NInf.

Definition of_nat (n : nat) : Number := Fin (INR n).

Definition add (a b : Number) : Number :=
  match a, b with
  | NaN, _ | _, NaN => NaN
  | Fin x, Fin y => Fin (x + y)
  | PInf, NInf | NInf, PInf => NaN
  | PInf, _ | _, PInf => PInf
  | NInf, _ | _, NInf => NInf
  end.

Definition opp (a : Number) : Number :=
  match a with
  | Fin x => Fin (- x)
  | PInf => NInf
  | NInf => PInf
  | NaN => NaN
  end.

Definition sub (a b : Number) : Number := add a (opp b).

Definition mul (a b : Number) : Number :=
  match a, b with
  | NaN, _ | _, NaN => NaN
  | Fin x, Fin y => Fin (x * y)
  | Fin x, PInf | PInf, Fin x =>
      if Req_dec_T x 0 then NaN else inf (if Rlt_dec 0 x then true else false)
  | Fin x, NInf | NInf, Fin x =>
      if Req_dec_T x 0 then NaN else inf (if Rlt_dec 0 x then false else true)
  | PInf, PInf | NInf, NInf => PInf
  | PInf, NInf | NInf, PInf => NInf
  end.

Definition div (a b : Number) : Number :=
  match a, b with
  | NaN, _ | _, NaN => NaN
  | Fin x, Fin y =>
      if Req_dec_T y 0 then
        if Req_dec_T x 0 then NaN
        else inf (if Rlt_dec 0 x then true else false)
      else Fin (x / y)
  | Fin _, PInf | Fin _, NInf => Fin 0
  | PInf, Fin y => inf (if Rlt_dec y 0 then false else true)
  | NInf, Fin y => inf (if Rlt_dec y 0 then true else false)
  | PInf, PInf | PInf, NInf | NInf, PInf | NInf, NInf => NaN
  end.

(** [a > b] *)
Definition gtb (a b : Number) : bool :=
  match a, b with
  | Fin x, Fin y => if Rlt_dec y x then true else false
  | PInf, Fin _ | PInf, NInf | Fin _, NInf => true
  | _, _ => false
  end.

Definition Math_PI : Number := Fin PI.

Definition Math_sqrt (a : Number) : Number :=
  match a with
  | Fin x => if Rlt_dec x 0 then NaN else Fin (sqrt x)
  | PInf => PInf
  | NInf | NaN => NaN
  end.

Definition Math_cos (a : Number) : Number :=
  match a with Fin x => Fin (cos x) | _ => NaN end.

Definition Math_sin (a : Number) : Number :=
  match a with Fin x => Fin (sin x) | _ => NaN end.

Definition Math_ceil (a : Number) : Number :=
  match a with Fin x => Fin (IZR (Zceil x)) | _ => a end.

Definition is_integer (x : R) : bool :=
  if Req_dec_T (IZR (Zfloor x)) x then true else false.

Definition is_odd_integer (x : R) : bool :=
  is_integer x && Z.odd (Zfloor x).

(** [base ** exponent] (Number::exponentiate). *)
Definition pow (base exponent : Number) : Number :=
  match exponent with
  | NaN => NaN
  | Fin e =>
      if Req_dec_T e 0 then Fin 1 else
      match base with
      | NaN => NaN
      | PInf => if Rlt_dec 0 e then PInf else Fin 0
      | NInf =>
          if Rlt_dec 0 e then (if is_odd_integer e then NInf else PInf)
          else Fin 0
      | Fin b =>
          if Req_dec_T b 0 then (if Rlt_dec 0 e then Fin 0 else PInf)
          else if Rlt_dec 0 b then Fin (Rpower b e)
          else if is_integer e then
            Fin (if Z.odd (Zfloor e) then - Rpower (- b) e else Rpower (- b) e)
          else NaN
      end
  | PInf =>
      match base with
      | NaN => NaN
      | PInf | NInf => PInf
      | Fin b =>
          if Rlt_dec 1 (Rabs b) then PInf
          else if Req_dec_T (Rabs b) 1 then NaN else Fin 0
      end
  | NInf =>
      match base with
      | NaN => NaN
      | PInf | NInf => Fin 0
      | Fin b =>
          if Rlt_dec 1 (Rabs b) then Fin 0
          else if Req_dec_T (Rabs b) 1 then NaN else PInf
      end
  end.

(** The exceptions the modelled code can raise. *)
Inductive Error : Type := TypeError | RangeError.

(** How an evaluation completes: with a value, or by throwing. *)
Inductive completion (A : Type) : Type :=
| Normal (a : A)
| Throw (e : Error).

Arguments Normal {A}.
Arguments Throw {A}.

(** The length argument of [new Array(len)]: an integer between 0 and
    2^32 - 1; any other Number makes the constructor throw a [RangeError]. *)
Definition array_length (len : Number) : completion nat :=
  match len with
  | Fin r =>
      if Req_dec_T (IZR (Zfloor r)) r then
        if (0 <=? Zfloor r)%Z && (Zfloor r <=? 4294967295)%Z
        then Normal (Z.to_nat (Zfloor r))
        else Throw RangeError
      else Throw RangeError
  | _ => Throw RangeError
  end.

(** An array of objects is a list of slots; [None] is a slot that holds no
    object ([undefined], as in every slot of a fresh [new Array(n)]). *)
Definition new_Array (A : Type) (len : Number) : completion (list (option A)) :=
  match array_length len with
  | Normal n => Normal (repeat None n)
  | Throw e => Throw e
  end.

(** [array[i] = v]; an index beyond the end extends the array. *)
Fixpoint array_set {A : Type} (i : nat) (v : A) (l : list (option A))
  : list (option A) :=
  match i, l with
  | O, [] => [Some v]
  | O, _ :: t => Some v :: t
  | S i', [] => None :: array_set i' v []
  | S i', h :: t => h :: array_set i' v t
  end.

(** [array[i]] read as an object: [None] when the slot is empty or the index
    is outside the array (the read gives [undefined]). *)
Definition array_get {A : Type} (l : list (option A)) (i : nat) : option A :=
  match nth_error l i with
  | Some (Some v) => Some v
  | _ => None
  end.

(** [array[i]] of an array of numbers, read inside an arithmetic expression:
    outside the array the read gives [undefined], which arithmetic turns into
    NaN. *)
Definition number_at (l : list Number) (i : nat) : Number := nth i l NaN.

End JS.

Declare Scope js_scope.
Delimit Scope js_scope with js.
Bind Scope js_scope with JS.Number.
Notation "a + b" := (JS.add a b) : js_scope.
Notation "a - b" := (JS.sub a b) : js_scope.
Notation "a * b" := (JS.mul a b) : js_scope.
Notation "a / b" := (JS.div a b) : js_scope.
Notation "a >? b" := (JS.gtb a b) (at level 70, no associativity) : js_scope.

(** * Vector2

    [Vector2] is declared outside the modelled files; the body uses it as a
    mutable pair of coordinates.  Each array slot holds a Vector2 object of
    its own (the constructor and [initializeSpine] only store fresh copies),
    so [v.set(w)] on the object in a slot is modelled as replacing the value
    in that slot. *)

Module Vector2.

Record t : Type := mk { x : JS.Number; y : JS.Number }.

(** [v.multiply(s)] and [v.subtract(w)], component-wise. *)
Definition multiply (v : t) (s : JS.Number) : t :=
  {| x := (x v * s)%js; y := (y v * s)%js |}.

Definition subtract (v w : t) : t :=
  {| x := (x v - x w)%js; y := (y v - y w)%js |}.

End Vector2.

(** * Body ([src/js/koi/fish/body.js]) *)

Module Body.

Import JS.
Local Open Scope js_scope.

(** The part of a [Pattern] the body reads: its slot and size on the atlas. *)
Record Pattern : Type := mkPattern { slot : Vector2.t; size : Vector2.t }.

Record t : Type := mk {
  pattern : Pattern;
  spine : list (option Vector2.t);
  spinePrevious : list (option Vector2.t);
  spacing : Number;
  inverseSpacing : Number;
  radii : list Number;
  springs : list Number;
  u : list Number;
  vCenter : Number;
  vRadii : list Number;
  phase : Number
}.

Definition RESOLUTION : Number := Fin 0.14.
Definition SPRING_START : Number := Fin 0.9.
Definition SPRING_END : Number := Fin 0.3.
Definition SPRING_POWER : Number := Fin 1.7.
Definition SWIM_AMPLITUDE : Number := Fin 8.5.
Definition SWIM_SPEED : Number := Fin 6.5.
Definition SPEED_THRESHOLD : Number := Fin 0.02.

(** ** Construction *)

(** [new Array(len)] filled by a loop that writes [f i] into every slot. *)
Definition filled_Array (len : Number) (first : nat) (f : nat -> Number)
  : completion (list Number) :=
  match array_length len with
  | Normal n => Normal (map f (seq first n))
  | Throw e => Throw e
  end.

(** [Body.prototype.makeRadii]; [n] is [this.spine.length]. *)
Definition makeRadii (n : nat) (thickness power : Number)
  : completion (list Number) :=
  filled_Array (of_nat n) 0 (fun segment => thickness * Fin 0.5).

(** [Body.prototype.makeSprings] *)
Definition makeSprings (n : nat) (start end_ power : Number)
  : completion (list Number) :=
  filled_Array (of_nat n - Fin 1) 0
    (fun spring =>
       start + (end_ - start) * pow (of_nat spring / (of_nat n - Fin 2)) power).

(** [Body.prototype.makeU] *)
Definition makeU (n : nat) (p : Pattern) (atlasPixel : Vector2.t)
  : completion (list Number) :=
  let uStart := Vector2.x (slot p) + Vector2.x atlasPixel in
  let uEnd := Vector2.x (slot p) + Vector2.x (size p) - Vector2.y atlasPixel in
  filled_Array (of_nat n) 0
    (fun segment =>
       uStart + (uEnd - uStart) * of_nat segment / (of_nat n - Fin 1)).

(** [Body.prototype.makeVRadii]: the loop runs [segment] from 1 and writes
    slot [segment - 1]. *)
Definition makeVRadii (n : nat) (p : Pattern) (atlasPixel : Vector2.t)
  : completion (list Number) :=
  filled_Array (of_nat n - Fin 2) 1
    (fun segment => Vector2.y (size p) * Fin 0.5 - Vector2.y atlasPixel).

Definition bindc {A B : Type} (c : completion A) (k : A -> completion B)
  : completion B :=
  match c with
  | Normal a => k a
  | Throw e => Throw e
  end.

(** [const Body = function(pattern, atlasPixel, length, thickness)] *)
Definition new (p : Pattern) (atlasPixel : Vector2.t)
    (length thickness : Number) : completion t :=
  bindc (new_Array Vector2.t (Math_ceil (length / RESOLUTION) + Fin 1))
    (fun spine0 =>
  let n := List.length spine0 in
  bindc (new_Array Vector2.t (of_nat n)) (fun spinePrevious0 =>
  let spacing0 := length / (of_nat n - Fin 1) in
  let inverseSpacing0 := Fin 1 / spacing0 in
  bindc (makeRadii n thickness (Fin 0.6)) (fun radii0 =>
  bindc (makeSprings n SPRING_START SPRING_END SPRING_POWER) (fun springs0 =>
  bindc (makeU n p atlasPixel) (fun u0 =>
  let vCenter0 := Vector2.y (slot p) + Vector2.y (size p) * Fin 0.5 in
  bindc (makeVRadii n p atlasPixel) (fun vRadii0 =>
  Normal {| pattern := p;
            spine := spine0;
            spinePrevious := spinePrevious0;
            spacing := spacing0;
            inverseSpacing := inverseSpacing0;
            radii := radii0;
            springs := springs0;
            u := u0;
            vCenter := vCenter0;
            vRadii := vRadii0;
            phase := Fin 0 |})))))).

(** ** Methods

    A method runs on a store: the body it is called on, the strip commands
    the renderer has received so far, and a log of the divisors the spine pass
    of [update] has divided by.  The log is there to state properties; no
    code reads it. *)

Inductive command : Type :=
| cutStrip (x y u v : Number)
| drawStrip (x y u v : Number).

Record store : Type := mkStore {
  this : t;
  renderer : list command;
  divisions : list Number
}.

Definition M (A : Type) : Type := store -> store * completion A.

Definition ret {A : Type} (a : A) : M A := fun s => (s, Normal a).

Definition throw {A : Type} (e : Error) : M A := fun s => (s, Throw e).

Definition bind {A B : Type} (m : M A) (k : A -> M B) : M B :=
  fun s =>
    match m s with
    | (s', Normal a) => k a s'
    | (s', Throw e) => (s', Throw e)
    end.

Notation "x <- m ;; k" := (bind m (fun x => k))
  (at level 61, m at next level, right associativity).
Notation "m ;; k" := (bind m (fun _ => k))
  (at level 61, right associativity).

Definition get_this : M t := fun s => (s, Normal (this s)).

Definition set_this (b : t) : M unit :=
  fun s => ({| this := b; renderer := renderer s; divisions := divisions s |},
            Normal tt).

(** A call on the renderer. *)
Definition emit (c : command) : M unit :=
  fun s => ({| this := this s; renderer := renderer s ++ [c];
               divisions := divisions s |}, Normal tt).

Definition divided_by (d : Number) : M unit :=
  fun s => ({| this := this s; renderer := renderer s;
               divisions := divisions s ++ [d] |}, Normal tt).

Definition with_spine (b : t) (l : list (option Vector2.t)) : t :=
  {| pattern := pattern b; spine := l; spinePrevious := spinePrevious b;
     spacing := spacing b; inverseSpacing := inverseSpacing b;
     radii := radii b; springs := springs b; u := u b; vCenter := vCenter b;
     vRadii := vRadii b; phase := phase b |}.

Definition with_spinePrevious (b : t) (l : list (option Vector2.t)) : t :=
  {| pattern := pattern b; spine := spine b; spinePrevious := l;
     spacing := spacing b; inverseSpacing := inverseSpacing b;
     radii := radii b; springs := springs b; u := u b; vCenter := vCenter b;
     vRadii := vRadii b; phase := phase b |}.

Definition with_phase (b : t) (p : Number) : t :=
  {| pattern := pattern b; spine := spine b; spinePrevious := spinePrevious b;
     spacing := spacing b; inverseSpacing := inverseSpacing b;
     radii := radii b; springs := springs b; u := u b; vCenter := vCenter b;
     vRadii := vRadii b; phase := p |}.

(** [this.spine[i]] and [this.spinePrevious[i]] used as objects: a slot
    without an object makes the property access throw a [TypeError]. *)
Definition spine_at (i : nat) : M Vector2.t :=
  b <- get_this ;;
  match array_get (spine b) i with
  | Some v => ret v
  | None => throw TypeError
  end.

Definition spinePrevious_at (i : nat) : M Vector2.t :=
  b <- get_this ;;
  match array_get (spinePrevious b) i with
  | Some v => ret v
  | None => throw TypeError
  end.

(** The value of the object in slot [i] replaced ([.set], [.x += ...]); the
    callers have read the object before. *)
Fixpoint replace_at {A : Type} (i : nat) (v : A) (l : list (option A))
  : list (option A) :=
  match i, l with
  | _, [] => []
  | O, _ :: t => Some v :: t
  | S i', h :: t => h :: replace_at i' v t
  end.

Definition spine_put (i : nat) (v : Vector2.t) : M unit :=
  b <- get_this ;; set_this (with_spine b (replace_at i v (spine b))).

Definition spinePrevious_put (i : nat) (v : Vector2.t) : M unit :=
  b <- get_this ;;
  set_this (with_spinePrevious b (replace_at i v (spinePrevious b))).

(** [this.spine[i] = v] and [this.spinePrevious[i] = v] *)
Definition spine_assign (i : nat) (v : Vector2.t) : M unit :=
  b <- get_this ;; set_this (with_spine b (array_set i v (spine b))).

Definition spinePrevious_assign (i : nat) (v : Vector2.t) : M unit :=
  b <- get_this ;;
  set_this (with_spinePrevious b (array_set i v (spinePrevious b))).

(** [for (let segment = a; segment < b; ++segment) body], run over the values
    [segment] takes; [locals] are the variables the body assigns. *)
Fixpoint for_each {A : Type} (segments : list nat) (body : nat -> A -> M A)
    (locals : A) : M A :=
  match segments with
  | [] => ret locals
  | segment :: rest => locals' <- body segment locals ;; for_each rest body locals'
  end.

(** The values of [segment] in a loop from [first] while
    [segment < this.spine.length]; no iteration of the loops below changes
    that length. *)
Definition segments_from (first : nat) : M (list nat) :=
  b <- get_this ;; ret (seq first (List.length (spine b) - first)).

(** [Body.prototype.initializeSpine] *)
Definition initializeSpine (head direction : Vector2.t) : M unit :=
  spine_assign 0 head ;;
  spinePrevious_assign 0 head ;;
  segments <- segments_from 1 ;;
  for_each segments
    (fun segment _ =>
       previous <- spine_at (segment - 1) ;;
       b <- get_this ;;
       let v := Vector2.subtract previous (Vector2.multiply direction (spacing b)) in
       spine_assign segment v ;;
       spinePrevious_assign segment v)
    tt.

(** [Body.prototype.storePreviousState] *)
Definition storePreviousState : M unit :=
  segments <- segments_from 0 ;;
  for_each segments
    (fun segment _ =>
       _ <- spinePrevious_at segment ;;
       current <- spine_at segment ;;
       spinePrevious_put segment current)
    tt.

(** What one iteration of the loop of [update] computes from the segment
    before ([previous], already moved), the segment itself ([current]) and
    the direction [(xDir, yDir)]: the two distances it divides by, the
    direction it hands to the next iteration and the segment's new position. *)
Record relaxed : Type := mkRelaxed {
  distance : Number;
  direction : Number * Number;
  blended_distance : Number;
  position : Vector2.t
}.

Definition relax_step (spacing0 spring : Number) (previous current : Vector2.t)
    (xDir yDir : Number) : relaxed :=
  let dx := Vector2.x current - Vector2.x previous in
  let dy := Vector2.y current - Vector2.y previous in
  let distance0 := Math_sqrt (dx * dx + dy * dy) in
  let dxc := Vector2.x previous + xDir * spacing0 - Vector2.x current in
  let dyc := Vector2.y previous + yDir * spacing0 - Vector2.y current in
  let xDir' := dx / distance0 in
  let yDir' := dy / distance0 in
  let dx' := dx + dxc * spring in
  let dy' := dy + dyc * spring in
  let distance1 := Math_sqrt (dx' * dx' + dy' * dy') in
  {| distance := distance0;
     direction := (xDir', yDir');
     blended_distance := distance1;
     position :=
       {| Vector2.x := Vector2.x previous + spacing0 * dx' / distance1;
          Vector2.y := Vector2.y previous + spacing0 * dy' / distance1 |} |}.

(** The body of the loop of [update]; the locals are [(xDir, yDir)]. *)
Definition relax (segment : nat) (dir : Number * Number)
  : M (Number * Number) :=
  current <- spine_at segment ;;
  previous <- spine_at (segment - 1) ;;
  b <- get_this ;;
  let r := relax_step (spacing b) (number_at (springs b) (segment - 1))
             previous current (fst dir) (snd dir) in
  divided_by (distance r) ;;
  divided_by (blended_distance r) ;;
  spine_put segment (position r) ;;
  ret (direction r).

(** The wobble angle of [update]. *)
Definition swim_angle (direction_angle phase0 speed : Number) : Number :=
  let speedFactor := speed - SPEED_THRESHOLD in
  direction_angle + Math_PI + Math_cos phase0 * speedFactor * SWIM_AMPLITUDE.

(** The last statement of [update]:
    [if ((this.phase += this.SWIM_SPEED * speed) > Math.PI * 2)
         this.phase -= Math.PI * 2;] *)
Definition advance_phase (phase0 speed : Number) : Number :=
  let phase1 := phase0 + SWIM_SPEED * speed in
  if phase1 >? Math_PI * Fin 2 then phase1 - Math_PI * Fin 2 else phase1.

(** [Body.prototype.update]; [direction] enters only through
    [direction.angle()], and [direction_angle] is the Number that call
    returns. *)
Definition update (head : Vector2.t) (direction_angle speed : Number)
  : M unit :=
  storePreviousState ;;
  _ <- spine_at 0 ;;
  spine_put 0 head ;;
  b <- get_this ;;
  let angle := swim_angle direction_angle (phase b) speed in
  let xDir := Math_cos angle in
  let yDir := Math_sin angle in
  segments <- segments_from 1 ;;
  _ <- for_each segments relax (xDir, yDir) ;;
  b' <- get_this ;;
  set_this (with_phase b' (advance_phase (phase b') speed)).

(** The interpolation [previous + (current - previous) * time] of [render]. *)
Definition interpolate (previous current time : Number) : Number :=
  previous + (current - previous) * time.

(** The body of the loop of [render]; the locals are
    [(xEnd, yEnd, dxEnd, dyEnd)].  ([xStart], [yStart] take the old [xEnd],
    [yEnd]; [dxStart], [dyStart] are assigned and never read.) *)
Definition render_segment (time : Number) (segment : nat)
    (locals : Number * Number * Number * Number)
  : M (Number * Number * Number * Number) :=
  let '(xStart, yStart, dxStart, dyStart) := locals in
  previous <- spinePrevious_at segment ;;
  current <- spine_at segment ;;
  b <- get_this ;;
  let xEnd := interpolate (Vector2.x previous) (Vector2.x current) time in
  let yEnd := interpolate (Vector2.y previous) (Vector2.y current) time in
  let dxEnd := xEnd - xStart in
  let dyEnd := yEnd - yStart in
  emit (drawStrip
          (xEnd - number_at (radii b) segment * dyEnd * inverseSpacing b)
          (yEnd + number_at (radii b) segment * dxEnd * inverseSpacing b)
          (number_at (u b) segment)
          (vCenter b - number_at (vRadii b) (segment - 1))) ;;
  emit (drawStrip
          (xEnd + number_at (radii b) segment * dyEnd * inverseSpacing b)
          (yEnd - number_at (radii b) segment * dxEnd * inverseSpacing b)
          (number_at (u b) segment)
          (vCenter b + number_at (vRadii b) (segment - 1))) ;;
  ret (xEnd, yEnd, dxEnd, dyEnd).

(** [Body.prototype.render] *)
Definition render (time : Number) : M unit :=
  previous <- spinePrevious_at 0 ;;
  current <- spine_at 0 ;;
  b <- get_this ;;
  let xEnd := interpolate (Vector2.x previous) (Vector2.x current) time in
  let yEnd := interpolate (Vector2.y previous) (Vector2.y current) time in
  emit (cutStrip xEnd yEnd (number_at (u b) 0) (vCenter b)) ;;
  segments <- segments_from 1 ;;
  _ <- for_each segments (render_segment time) (xEnd, yEnd, Fin 0, Fin 0) ;;
  ret tt.

End Body.

(** * Pond ([src/js/koi/pond.js])

    The fish, the constraint, the atlas and the randomizer are collaborators
    of the pond whose code lives elsewhere.  The pond only calls
    [fish.interact(other, random)], [fish.update(constraint, random)] and
    [fish.free(atlas)] on them; these calls act on everything outside the pond
    (the fish bodies, the random stream, the atlas), which the model gathers in
    an abstract [World] that is threaded through the calls in program order.
    The callbacks receive no reference to the pond, so they cannot change
    [this.fishes]. *)

Module Pond.

Section WithCollaborators.

Variables Fish Constraint Atlas Random Renderer World : Type.

(** [constraint.getCapacity()], an integer. *)
Variable getCapacity : Constraint -> Z.
(** [fish.interact(other, random)] *)
Variable fish_interact : Fish -> Fish -> Random -> World -> World.
(** [fish.update(constraint, random)], returning whether the fish died. *)
Variable fish_update : Fish -> Constraint -> Random -> World -> bool * World.
(** [fish.free(atlas)] *)
Variable fish_free : Fish -> Atlas -> World -> World.
(** [constraint.render(renderer)] and [fish.render(renderer, time)] *)
Variable constraint_render : Constraint -> Renderer -> World -> World.
Variable fish_render : Fish -> Renderer -> JS.Number -> World -> World.

Record t : Type := mk {
  constraint : Constraint;
  capacity : Z;
  fishes : list Fish
}.

(** [const Pond = function(constraint)] *)
Definition new (c : Constraint) : t :=
  {| constraint := c; capacity := getCapacity c; fishes := [] |}.

Definition SPAWN_OVERHEAD : Z := 2.

Definition canSpawn (p : t) : bool :=
  (Z.of_nat (length (fishes p)) <? capacity p - SPAWN_OVERHEAD)%Z.

Definition canDrop (p : t) : bool :=
  (Z.of_nat (length (fishes p)) <? capacity p)%Z.

(** [this.fishes.push(fish)] *)
Definition addFish (p : t) (fish : Fish) : t :=
  {| constraint := constraint p;
     capacity := capacity p;
     fishes := fishes p ++ [fish] |}.

(** The calls the pond makes on its fish, in the order it makes them.  Each
    entry records the loop indices of the call site next to the objects
    involved (and, for [update], the value the call returned). *)
Inductive call : Type :=
| Interact (fish other : nat) (f o : Fish)
| Update (fish : nat) (f : Fish) (dead : bool)
| Free (fish : nat) (f : Fish).

(** What a tick works on: the fish array, the world and the call log. *)
Record state : Type := mkState {
  st_fishes : list Fish;
  st_world : World;
  st_calls : list call
}.

(** [this.fishes.splice(fish, 1)] *)
Definition splice1 (fish : nat) (l : list Fish) : list Fish :=
  firstn fish l ++ skipn (S fish) l.

(** The inner loop [for (let other = fish; other-- > 0;)]; the argument
    [other] is the value of the loop variable before the test.  [None]
    stands for an index outside the array, where the source would call a
    method of [undefined] or hand [undefined] to [interact]; [update_spec]
    shows that it does not happen. *)
Fixpoint interact_loop (random : Random) (fish other : nat) (s : state)
  : option state :=
  match other with
  | O => Some s
  | S other' =>
      match nth_error (st_fishes s) fish, nth_error (st_fishes s) other' with
      | Some f, Some o =>
          interact_loop random fish other'
            {| st_fishes := st_fishes s;
               st_world := fish_interact f o random (st_world s);
               st_calls := st_calls s ++ [Interact fish other' f o] |}
      | _, _ => None
      end
  end.

(** The statements after the inner loop, for the fish at index [fish]. *)
Definition update_fish (c : Constraint) (atlas : Atlas) (random : Random)
    (fish : nat) (s : state) : option state :=
  match nth_error (st_fishes s) fish with
  | Some f =>
      let (dead, w) := fish_update f c random (st_world s) in
      if dead then
        Some {| st_fishes := splice1 fish (st_fishes s);
                st_world := fish_free f atlas w;
                st_calls := st_calls s ++ [Update fish f true; Free fish f] |}
      else
        Some {| st_fishes := st_fishes s;
                st_world := w;
                st_calls := st_calls s ++ [Update fish f false] |}
  | None => None
  end.

(** The outer loop [for (let fish = this.fishes.length; fish-- > 0;)]. *)
Fixpoint update_loop (c : Constraint) (atlas : Atlas) (random : Random)
    (fish : nat) (s : state) : option state :=
  match fish with
  | O => Some s
  | S fish' =>
      match interact_loop random fish' fish' s with
      | Some s1 =>
          match update_fish c atlas random fish' s1 with
          | Some s2 => update_loop c atlas random fish' s2
          | None => None
          end
      | None => None
      end
  end.

(** [Pond.prototype.update = function(atlas, random)]: the pond after the
    tick, the world after it and the calls made, in order. *)
Definition update (p : t) (atlas : Atlas) (random : Random) (w : World)
  : option (t * World * list call) :=
  match update_loop (constraint p) atlas random (length (fishes p))
          {| st_fishes := fishes p; st_world := w; st_calls := [] |} with
  | Some s =>
      Some ({| constraint := constraint p;
               capacity := capacity p;
               fishes := st_fishes s |}, st_world s, st_calls s)
  | None => None
  end.

(** [Pond.prototype.render]: it reads [this.fishes] and assigns nothing of
    the pond. *)
Definition render (p : t) (renderer : Renderer) (time : JS.Number) (w : World)
  : World :=
  fold_left (fun w' fish => fish_render fish renderer time w') (fishes p)
    (constraint_render (constraint p) renderer w).

(** Projections of the call log. *)
Definition interact_pair (e : call) : list (nat * nat) :=
  match e with Interact i j _ _ => [(i, j)] | _ => [] end.

Definition interactions (calls : list call) : list (nat * nat) :=
  flat_map interact_pair calls.

Definition update_outcome (e : call) : list (nat * bool) :=
  match e with Update i _ d => [(i, d)] | _ => [] end.

Definition updates (calls : list call) : list (nat * bool) :=
  flat_map update_outcome calls.

Definition freed_index (e : call) : list nat :=
  match e with Free i _ => [i] | _ => [] end.

Definition frees (calls : list call) : list nat :=
  flat_map freed_index calls.

End WithCollaborators.

Arguments mk {Fish Constraint}.
Arguments constraint {Fish Constraint}.
Arguments capacity {Fish Constraint}.
Arguments fishes {Fish Constraint}.
Arguments new {Fish Constraint}.
Arguments canSpawn {Fish Constraint}.
Arguments canDrop {Fish Constraint}.
Arguments addFish {Fish Constraint}.
Arguments Interact {Fish}.
Arguments Update {Fish}.
Arguments Free {Fish}.
Arguments update {Fish Constraint Atlas Random World}.
Arguments render {Fish Constraint Renderer World}.
Arguments interactions {Fish}.
Arguments updates {Fish}.
Arguments frees {Fish}.

End Pond.

(** * Vocabulary of the statements about the body *)

Module BodySpec.

Import JS Body.

(** The store of a call on the body [b] alone: nothing drawn, nothing
    divided yet. *)
Definition on_body (b : Body.t) : store :=
  {| this := b; renderer := []; divisions := [] |}.

(** A divisor that is a real number other than zero. *)
Definition nonzero_real (d : Number) : Prop :=
  exists r : R, d = Fin r /\ r <> 0%R.

(** A vector with real coordinates. *)
Definition finite_vector (v : Vector2.t) : Prop :=
  exists a b : R, v = {| Vector2.x := Fin a; Vector2.y := Fin b |}.

(** [|a - b|], computed as [update] computes a distance. *)
Definition distance_between (a b : Vector2.t) : Number :=
  let dx := (Vector2.x a - Vector2.x b)%js in
  let dy := (Vector2.y a - Vector2.y b)%js in
  Math_sqrt (dx * dx + dy * dy)%js.

(** The slots [i - 1] and [i] of a spine hold objects related by [good]. *)
Definition linked (good : Vector2.t -> Vector2.t -> Prop)
    (l : list (option Vector2.t)) (i : nat) : Prop :=
  exists previous current,
    array_get l (i - 1) = Some previous /\
    array_get l i = Some current /\
    good previous current.

(** Every slot of both spines holds an object: [current] and [previous] list
    the values of [spine] and [spinePrevious]. *)
Definition initialised (b : Body.t) (previous current : list Vector2.t)
  : Prop :=
  spine b = map Some current /\
  spinePrevious b = map Some previous /\
  List.length previous = List.length current.

(** A Hoare triple for a method: from a store satisfying [P], a normal
    completion with [a] leaves a store satisfying [Q a] and a throw leaves
    one satisfying [E]. *)
Definition hoare {A : Type} (P : store -> Prop) (m : M A)
    (Q : A -> store -> Prop) (E : store -> Prop) : Prop :=
  forall s, P s ->
    match m s with
    | (s', Normal a) => Q a s'
    | (s', Throw _) => E s'
    end.

(** The store [s] with [r] and [d] in front of its two logs. *)
Definition prepend (r : list command) (d : list Number) (s : store) : store :=
  {| this := this s; renderer := r ++ renderer s; divisions := d ++ divisions s |}.

(** A method that neither reads the logs nor does more than append to
    them. *)
Definition framed {A : Type} (m : M A) : Prop :=
  forall r d s, m (prepend r d s) = (prepend r d (fst (m s)), snd (m s)).

(** The commands a [render] call on the body [b] sends to the renderer. *)
Definition render_output (b : Body.t) (time : Number) : list command :=
  renderer (fst (render time (on_body b))).

(** The calls a client makes on a body after constructing it. *)
Inductive method_call : Type :=
| call_initializeSpine (head direction : Vector2.t)
| call_update (head : Vector2.t) (direction_angle speed : Number)
| call_render (time : Number).

Definition run_call (c : method_call) (s : store) : store :=
  match c with
  | call_initializeSpine head direction => fst (initializeSpine head direction s)
  | call_update head direction_angle speed => fst (update head direction_angle speed s)
  | call_render time => fst (render time s)
  end.

(** The store after a sequence of calls; a call that throws leaves the store
    as it was at the throw, and the sequence goes on. *)
Definition run_calls (calls : list method_call) (s : store) : store :=
  fold_left (fun s c => run_call c s) calls s.

(** The point of the centerline between [previous] and [current] at [time],
    as the specification writes it. *)
Definition centerline_point (time : Number) (previous current : Vector2.t)
  : Number * Number :=
  ((Vector2.x previous + (Vector2.x current - Vector2.x previous) * time)%js,
   (Vector2.y previous + (Vector2.y current - Vector2.y previous) * time)%js).

Fixpoint centerline (time : Number) (previous current : list Vector2.t)
  : list (Number * Number) :=
  match previous, current with
  | p :: previous', c :: current' =>
      centerline_point time p c :: centerline time previous' current'
  | _, _ => []
  end.

Definition coordinates (l : list Vector2.t) : list (Number * Number) :=
  map (fun v => (Vector2.x v, Vector2.y v)) l.

(** The two vertices of the strip at the point [(xEnd, yEnd)] of segment
    [segment], which lies [(dxEnd, dyEnd)] from the point before. *)
Definition strip_pair (b : Body.t) (segment : nat) (xEnd yEnd dxEnd dyEnd : Number)
  : list command :=
  [ drawStrip
      (xEnd - number_at (radii b) segment * dyEnd * inverseSpacing b)%js
      (yEnd + number_at (radii b) segment * dxEnd * inverseSpacing b)%js
      (number_at (u b) segment)
      (vCenter b - number_at (vRadii b) (segment - 1))%js;
    drawStrip
      (xEnd + number_at (radii b) segment * dyEnd * inverseSpacing b)%js
      (yEnd - number_at (radii b) segment * dxEnd * inverseSpacing b)%js
      (number_at (u b) segment)
      (vCenter b + number_at (vRadii b) (segment - 1))%js ].

(** The strip of a centerline: a cut at its first point, then a pair of
    vertices for every further point, offset across the step from the point
    before. *)
Fixpoint strip_from (b : Body.t) (segment : nat) (start : Number * Number)
    (points : list (Number * Number)) : list command :=
  match points with
  | [] => []
  | p :: rest =>
      strip_pair b segment (fst p) (snd p)
        (fst p - fst start)%js (snd p - snd start)%js
      ++ strip_from b (S segment) p rest
  end.

Definition strip_through (b : Body.t) (points : list (Number * Number))
  : list command :=
  match points with
  | [] => []
  | p :: rest =>
      cutStrip (fst p) (snd p) (number_at (u b) 0) (vCenter b)
      :: strip_from b 1 p rest
  end.

(** Both spines have [n] slots and the spacing is [sp]. *)
Definition shape (n : nat) (sp : Number) (s : store) : Prop :=
  length (spine (this s)) = n /\
  length (spinePrevious (this s)) = n /\
  spacing (this s) = sp.

(** A method that maintains [I], also when it throws. *)
Definition keeps {A : Type} (I : store -> Prop) (m : M A) : Prop :=
  hoare I m (fun _ => I) I.

(** The body is [b] and the divisor log is [d]. *)
Definition untouched (b : Body.t) (d : list Number) (s : store) : Prop :=
  this s = b /\ divisions s = d.

(** The field (or other view) [f] of the body has the value [x]. *)
Definition fixed {X : Type} (f : Body.t -> X) (x : X) (s : store) : Prop :=
  f (this s) = x.

(** Both spines have [n] slots and every slot holds an object. *)
Definition full (n : nat) (s : store) : Prop :=
  length (spine (this s)) = n /\
  length (spinePrevious (this s)) = n /\
  (forall i, (i < n)%nat -> exists v, array_get (spine (this s)) i = Some v) /\
  (forall i, (i < n)%nat ->
     exists v, array_get (spinePrevious (this s)) i = Some v).

(** A method that maintains [I] and does not throw. *)
Definition returns {A : Type} (I : store -> Prop) (m : M A) : Prop :=
  hoare I m (fun _ => I) (fun _ => False).

(** If no divisor so far was zero or not a number, the segments below [j]
    are linked to the segment before them by [good]. *)
Definition chain (good : Vector2.t -> Vector2.t -> Prop) (j : nat) (s : store)
  : Prop :=
  Forall nonzero_real (divisions s) ->
  forall i, (1 <= i < j)%nat -> linked good (spine (this s)) i.

(** The length of the spine and the spacing. *)
Definition extent (b : Body.t) : nat * Number := (length (spine b), spacing b).

(** What [storePreviousState] leaves alone: everything but the previous
    spine. *)
Definition but_previous (b : Body.t)
  : list (option Vector2.t) * Number * list Number * Number :=
  (spine b, spacing b, springs b, phase b).

End BodySpec.

(** * Rounding

    The arithmetic of the model is exact.  What rounding does to a result
    is stated on the reals: binary64 rounds the result of an operation
    with a relative error of at most [2^-53], as long as the result
    neither overflows nor falls below the normal range. *)

(** [y] is [x] rounded with a relative error of at most [u]. *)
Definition rounds (u x y : R) : Prop := (Rabs (y - x) <= u * Rabs x)%R.

(** The end of an iteration of the spine pass of [update],
    [distance = Math.sqrt(dx * dx + dy * dy)],
    [spine[segment].x = spine[segment - 1].x + spacing * dx / distance] and
    the same for [y], with the result of every operation rounded with a
    relative error of at most [u]: [(px, py)] is the segment before,
    [(dx, dy)] the blended offset and [(nx, ny)] the new position. *)
Definition renormalizes (u sp px py dx dy nx ny : R) : Prop :=
  exists xx yy s d mx ox my oy : R,
    rounds u (dx * dx) xx /\ rounds u (dy * dy) yy /\ rounds u (xx + yy) s /\
    rounds u (sqrt s) d /\
    rounds u (sp * dx) mx /\ rounds u (mx / d) ox /\ rounds u (px + ox) nx /\
    rounds u (sp * dy) my /\ rounds u (my / d) oy /\ rounds u (py + oy) ny.

(** The last statements of an iteration of the loop of [update], for the
    blended offset [(dx, dy)]:
    [distance = Math.sqrt(dx * dx + dy * dy)],
    [this.spine[segment].set(this.spine[segment - 1])],
    [this.spine[segment].x += this.spacing * dx / distance] and the same
    for [y]. *)
Definition renormalized (spacing0 : JS.Number) (previous : Vector2.t)
    (dx dy : JS.Number) : Vector2.t :=
  let distance0 := JS.Math_sqrt (dx * dx + dy * dy)%js in
  {| Vector2.x := (Vector2.x previous + spacing0 * dx / distance0)%js;
     Vector2.y := (Vector2.y previous + spacing0 * dy / distance0)%js |}.

(** The point of the centerline at [time = 1], where the factor is 1 and the
    interpolation is [previous + (current - previous)]. *)
Definition arrival_point (previous current : Vector2.t)
  : JS.Number * JS.Number :=
  ((Vector2.x previous + (Vector2.x current - Vector2.x previous))%js,
   (Vector2.y previous + (Vector2.y current - Vector2.y previous))%js).

Fixpoint arrivals (previous current : list Vector2.t)
  : list (JS.Number * JS.Number) :=
  match previous, current with
  | p :: previous', c :: current' =>
      arrival_point p c :: arrivals previous' current'
  | _, _ => []
  end.

(** The offsets [current - previous] of the segments. *)
Fixpoint offsets (previous current : list Vector2.t) : list Vector2.t :=
  match previous, current with
  | p :: previous', c :: current' =>
      Vector2.subtract c p :: offsets previous' current'
  | _, _ => []
  end.

(** [r] is [p + (c - p)] with the result of both operations rounded with a
    relative error of at most [u]. *)
Definition arrives (u p c r : R) : Prop :=
  exists d : R, rounds u (c - p) d /\ rounds u (p + d) r.

(** * The bodies and calls the statements are tried on *)

(** A pattern in the corner of the atlas and the size of one of its pixels. *)
Definition corner_pattern : Body.Pattern :=
  {| Body.slot := {| Vector2.x := JS.Fin 0; Vector2.y := JS.Fin 0 |};
     Body.size := {| Vector2.x := JS.Fin 0.5; Vector2.y := JS.Fin 0.25 |} |}.

Definition corner_pixel : Vector2.t :=
  {| Vector2.x := JS.Fin 0.01; Vector2.y := JS.Fin 0.01 |}.

(** The vector with the real coordinates [a] and [b]. *)
Definition vec (a b : R) : Vector2.t :=
  {| Vector2.x := JS.Fin a; Vector2.y := JS.Fin b |}.

(** A body of length .2 as the constructor and [initializeSpine] leave it for
    the head [(0, 0)] and the direction [(1, 0)]: three segments, .1 apart,
    trailing along the negative x axis. *)
Definition small_spine : list Vector2.t :=
  [vec 0 0; vec (-0.1) 0; vec (-0.2) 0].

Definition small_body : Body.t :=
  {| Body.pattern := corner_pattern;
     Body.spine := map Some small_spine;
     Body.spinePrevious := map Some small_spine;
     Body.spacing := JS.Fin 0.1;
     Body.inverseSpacing := JS.Fin 10;
     Body.radii := [JS.Fin 0.15; JS.Fin 0.15; JS.Fin 0.15];
     Body.springs := [JS.Fin 0.9; JS.Fin 0.3];
     Body.u := [JS.Fin 0.01; JS.Fin 0.25; JS.Fin 0.49];
     Body.vCenter := JS.Fin 0.125;
     Body.vRadii := [JS.Fin 0.115];
     Body.phase := JS.Fin 0 |}.

(** The body [new Body(pattern, atlasPixel, .2, .3)] builds. *)
Definition fresh_small_body : Body.t :=
  Body.with_spinePrevious (Body.with_spine small_body [None; None; None])
    [None; None; None].

(** The phase is a real number in [[0, 2π]]. *)
Definition phase_wrapped (s : Body.store) : Prop :=
  exists p : R, Body.phase (Body.this s) = JS.Fin p /\ (0 <= p <= 2 * PI)%R.

(** A call that is not an [update] at a speed whose phase step
    [SWIM_SPEED * speed] leaves [[0, 2π]]. *)
Definition gentle (c : BodySpec.method_call) : Prop :=
  match c with
  | BodySpec.call_update _ _ speed =>
      exists v : R, speed = JS.Fin v /\ (0 <= 6.5 * v <= 2 * PI)%R
  | _ => True
  end.

(** The small body as [initializeSpine] leaves it for a zero direction: every
    segment on the head. *)
Definition pinched_spine : list Vector2.t := [vec 0 0; vec 0 0; vec 0 0].

Definition pinched_body : Body.t :=
  Body.with_spinePrevious
    (Body.with_spine small_body (map Some pinched_spine))
    (map Some pinched_spine).

Definition not_a_vector : Vector2.t :=
  {| Vector2.x := JS.NaN; Vector2.y := JS.NaN |}.

(** The small body with its previous spine one spacing further back. *)
Definition shifted_spine : list Vector2.t :=
  [vec 0.1 0; vec 0 0; vec (-0.1) 0].

Definition moving_body : Body.t :=
  Body.with_spinePrevious small_body (map Some shifted_spine).

(** The small body with its head back from infinity: in the previous spine
    the head lies at [+Infinity] on the x axis. *)
Definition far_spine : list Vector2.t :=
  [{| Vector2.x := JS.PInf; Vector2.y := JS.Fin 0 |}; vec (-0.1) 0; vec (-0.2) 0].

Definition returning_body : Body.t :=
  Body.with_spinePrevious small_body (map Some far_spine).

(** A pixel of the atlas that is wider than high. *)
Definition wide_pixel : Vector2.t :=
  {| Vector2.x := JS.Fin 0.02; Vector2.y := JS.Fin 0.01 |}.

(** * Vocabulary of the statements about the pond *)

(** The fish of [fs] kept by [alive], which is asked by index; [i] is the
    index of the first fish of [fs]. *)
Fixpoint keep_from {Fish : Type} (i : nat) (alive : nat -> bool)
    (fs : list Fish) : list Fish :=
  match fs with
  | [] => []
  | f :: rest => (if alive i then [f] else []) ++ keep_from (S i) alive rest
  end.

(** Whether an [update] call on the fish at index [i] returned true. *)
Definition died (outcomes : list (nat * bool)) (i : nat) : bool :=
  existsb (fun o => (fst o =? i)%nat && snd o) outcomes.

(** The index pairs [(fish, other)] with [other < fish < n], the first
    component descending and, under it, the second descending. *)
Definition descending_pairs (n : nat) : list (nat * nat) :=
  flat_map (fun fish => map (pair fish) (rev (seq 0 fish))) (rev (seq 0 n)).


(** The index of the fish a call is made on. *)
Definition call_index {Fish : Type} (e : Pond.call Fish) : nat :=
  match e with
  | Pond.Interact i _ _ _ | Pond.Update i _ _ | Pond.Free i _ => i
  end.

(** A logged call names the fish that sit at its indices in [fs], and an
    interaction is made on the fish of the larger index. *)
Definition called_on {Fish : Type} (fs : list Fish) (e : Pond.call Fish)
  : Prop :=
  match e with
  | Pond.Interact i j f o =>
      nth_error fs i = Some f /\ nth_error fs j = Some o /\ (j < i)%nat
  | Pond.Update i f _ | Pond.Free i f => nth_error fs i = Some f
  end.

(** Adding the fish of a list one after the other. *)
Definition addFishes {Fish Constraint : Type} (p : Pond.t Fish Constraint)
    (l : list Fish) : Pond.t Fish Constraint :=
  fold_left Pond.addFish l p.


(** A pond of three fish, numbered 10, 11 and 12, none of which dies; the
    collaborators do nothing. *)
Definition three_fish : Pond.t nat unit :=
  Pond.addFish (Pond.addFish (Pond.addFish (Pond.new (fun _ => 10%Z) tt) 10%nat) 11%nat) 12%nat.


(** The same tick when the fish numbered 11, at index 1, dies. *)
Definition tick_with_death
  : option (Pond.t nat unit * unit * list (Pond.call nat)) :=
  Pond.update (fun _ _ (_ : unit) (w : unit) => w)
    (fun f (_ : unit) (_ : unit) (w : unit) => ((f =? 11)%nat, w))
    (fun _ (_ : unit) (w : unit) => w)
    three_fish tt tt tt.

(** The world a log of calls leaves behind when its calls are made, in the
    order of the log, on the world [w]; [None] when an [update] of the log
    does not return the value the log gives for it. *)
Fixpoint replay {Fish Constraint Atlas Random World : Type}
    (fish_interact : Fish -> Fish -> Random -> World -> World)
    (fish_update : Fish -> Constraint -> Random -> World -> bool * World)
    (fish_free : Fish -> Atlas -> World -> World)
    (c : Constraint) (atlas : Atlas) (random : Random)
    (calls : list (Pond.call Fish)) (w : World) : option World :=
  match calls with
  | [] => Some w
  | Pond.Interact _ _ f o :: rest =>
      replay fish_interact fish_update fish_free c atlas random rest
        (fish_interact f o random w)
  | Pond.Update _ f dead :: rest =>
      let (returned, w1) := fish_update f c random w in
      if Bool.eqb returned dead
      then replay fish_interact fish_update fish_free c atlas random rest w1
      else None
  | Pond.Free _ f :: rest =>
      replay fish_interact fish_update fish_free c atlas random rest
        (fish_free f atlas w)
  end.

(** A state of the tick whose log, replayed from [w0], gives its world. *)
Definition traced {Fish Constraint Atlas Random World : Type}
    (fish_interact : Fish -> Fish -> Random -> World -> World)
    (fish_update : Fish -> Constraint -> Random -> World -> bool * World)
    (fish_free : Fish -> Atlas -> World -> World)
    (c : Constraint) (atlas : Atlas) (random : Random)
    (w0 : World) (s : Pond.state Fish World) : Prop :=
  replay fish_interact fish_update fish_free c atlas random
    (Pond.st_calls Fish World s) w0
  = Some (Pond.st_world Fish World s).

(** The collaborators of a pond that keeps a journal: the world is the list
    of the calls made, each with the number of the fish it is made on; an
    [update] of a fish numbered above 10 returns true. *)
Definition journal_interact (f o : nat) (_ : unit) (w : list (nat * nat))
  : list (nat * nat) := w ++ [(f, o)].

Definition journal_update (f : nat) (_ : unit) (_ : unit)
    (w : list (nat * nat)) : bool * list (nat * nat) :=
  ((10 <? f)%nat, w ++ [(f, f)]).

Definition journal_free (f : nat) (_ : unit) (w : list (nat * nat))
  : list (nat * nat) := w ++ [(f, 0%nat)].

(** The tick of the three fish in which the fish numbered 11 and 12, at the
    indices 1 and 2, die. *)
Definition tick_with_journal
  : option (Pond.t nat unit * list (nat * nat) * list (Pond.call nat)) :=
  Pond.update journal_interact journal_update journal_free three_fish tt tt [].

(** * More of JavaScript's numbers

    The operations the rain, the air buffer and the capsule model use on top
    of those of the body: comparison, strict equality, the remainder,
    rounding, the shift to the left, [splice], and an array read at an index
    that is a Number. *)

Module JSMath.

Import JS.

(** [a < b] *)
Definition ltb (a b : Number) : bool := gtb b a.

(** [a === b] on Numbers: NaN equals nothing. *)
Definition strict_eq (a b : Number) : bool :=
  match a, b with
  | Fin x, Fin y => if Req_dec_T x y then true else false
  | PInf, PInf | NInf, NInf => true
  | _, _ => false
  end.

Definition Math_floor (a : Number) : Number :=
  match a with Fin x => Fin (IZR (Zfloor x)) | _ => a end.

(** The integer part of a real, rounded towards zero. *)
Definition truncate (x : R) : Z :=
  if Rle_dec 0 x then Zfloor x else Zceil x.

(** [a % b]: the remainder has the sign of the dividend. *)
Definition rem (a b : Number) : Number :=
  match a, b with
  | NaN, _ | _, NaN => NaN
  | PInf, _ | NInf, _ => NaN
  | Fin x, PInf | Fin x, NInf => Fin x
  | Fin x, Fin y =>
      if Req_dec_T y 0 then NaN else Fin (x - y * IZR (truncate (x / y)))
  end.

(** The array index a Number names as a property key, if it names one: a
    real number that is a nonnegative integer. *)
Definition array_index (i : Number) : option nat :=
  match i with
  | Fin r =>
      if Req_dec_T (IZR (Zfloor r)) r then
        if (0 <=? Zfloor r)%Z then Some (Z.to_nat (Zfloor r)) else None
      else None
  | _ => None
  end.

(** [array[i]] for a Number [i]; [None] is [undefined]. *)
Definition element_at {A : Type} (l : list A) (i : Number) : option A :=
  match array_index i with
  | Some k => nth_error l k
  | None => None
  end.

Definition Math_abs (a : Number) : Number :=
  match a with
  | Fin x => Fin (Rabs x)
  | PInf | NInf => PInf
  | NaN => NaN
  end.

Definition Math_min (a b : Number) : Number :=
  match a, b with
  | NaN, _ | _, NaN => NaN
  | NInf, _ | _, NInf => NInf
  | PInf, c | c, PInf => c
  | Fin x, Fin y => Fin (Rmin x y)
  end.

(** How often the body of [for (let i = 0; i < bound; ++i)] runs; [None]
    when the loop never ends. *)
Definition iterations (bound : Number) : option nat :=
  match bound with
  | Fin r => Some (Z.to_nat (Zceil r))
  | PInf => None
  | NInf | NaN => Some 0%nat
  end.

(** Where [array.splice(start, ...)] starts in an array of length [len]:
    [start] is truncated to an integer, counted from the end when negative,
    and clamped to the array. *)
Definition splice_start (len : nat) (start : Number) : nat :=
  match start with
  | Fin r =>
      let z := truncate r in
      if (z <? 0)%Z then Z.to_nat (Z.max (Z.of_nat len + z) 0)
      else Nat.min (Z.to_nat z) len
  | PInf => len
  | NInf | NaN => 0%nat
  end.

(** [array.splice(start, 0, v)] *)
Definition splice_in {A : Type} (start : Number) (v : A) (l : list A) : list A :=
  let k := splice_start (length l) start in
  firstn k l ++ v :: skipn k l.

Definition Math_max (a b : Number) : Number :=
  match a, b with
  | NaN, _ | _, NaN => NaN
  | PInf, _ | _, PInf => PInf
  | NInf, c | c, NInf => c
  | Fin x, Fin y => Fin (Rmax x y)
  end.

(** [Math.round]: the nearest integer, a half rounded up. *)
Definition Math_round (a : Number) : Number :=
  match a with Fin x => Fin (IZR (Zfloor (x + 0.5))) | _ => a end.

(** An integer wrapped to the signed 32 bits. *)
Definition wrap32 (z : Z) : Z := ((z + 2 ^ 31) mod 2 ^ 32 - 2 ^ 31)%Z.

(** ToInt32: NaN and the infinities give 0. *)
Definition to_int32 (a : Number) : Z :=
  match a with
  | Fin x => wrap32 (truncate x)
  | _ => 0%Z
  end.

(** [a << k] for an integer [k]: the shift count is taken modulo 32. *)
Definition shl (a : Number) (k : Z) : Number :=
  Fin (IZR (wrap32 (Z.shiftl (to_int32 a) (Z.land k 31)))).

(** [a !== b] *)
Definition strict_neq (a b : Number) : bool := negb (strict_eq a b).

End JSMath.

(** * Air ([src/js/render/air.js])

    The two render targets, the WebGL context and what the calls on them do
    belong to code outside the file; the model keeps the targets as values
    of an abstract type and gathers the effects of the calls in an abstract
    [World], threaded through them in program order. *)

Module Air.

Import JS JSMath.
Local Open Scope js_scope.

Section WithCollaborators.

Variables GL RenderTarget World : Type.

(** [new RenderTarget(gl, width, height, gl.RGB, false)] *)
Variable new_RenderTarget : GL -> Number -> Number -> World -> RenderTarget * World.
(** [gl.clearColor(r, g, b, a)] and [gl.clear(gl.COLOR_BUFFER_BIT)] *)
Variable gl_clearColor : GL -> Number -> Number -> Number -> Number -> World -> World.
Variable gl_clear : GL -> World -> World.
(** [target.target()] and [target.free()] *)
Variable target_target : RenderTarget -> World -> World.
Variable target_free : RenderTarget -> World -> World.

Record t : Type := mk {
  front : Number;
  width : Number;
  height : Number;
  targets : list RenderTarget
}.

Definition SCALE : Number := Fin 2.

(** [const Air = function(gl, width, height)] *)
Definition new (gl : GL) (width0 height0 : Number) (w : World) : t * World :=
  let width1 := Math_ceil (width0 * SCALE) in
  let height1 := Math_ceil (height0 * SCALE) in
  let (target0, w0) := new_RenderTarget gl width1 height1 w in
  let (target1, w1) := new_RenderTarget gl width1 height1 w0 in
  let targets0 := [target0; target1] in
  let w2 := gl_clearColor gl (Fin 0.5) (Fin 0.5) (Fin 0) (Fin 0) w1 in
  let w3 := fold_left (fun w' target => target_target target w') targets0 w2 in
  ({| front := Fin 0; width := width1; height := height1; targets := targets0 |},
   gl_clear gl w3).

(** [Air.prototype.flip] *)
Definition flip (a : t) : t :=
  {| front := Fin 1 - front a; width := width a; height := height a;
     targets := targets a |}.

(** [Air.prototype.getFront] and [Air.prototype.getBack]; [None] is
    [undefined]. *)
Definition getFront (a : t) : option RenderTarget :=
  element_at (targets a) (front a).

Definition getBack (a : t) : option RenderTarget :=
  element_at (targets a) (Fin 1 - front a).

(** [Air.prototype.free] *)
Definition free (a : t) (w : World) : World :=
  fold_left (fun w' target => target_free target w') (targets a) w.

End WithCollaborators.

Arguments front {RenderTarget}.
Arguments width {RenderTarget}.
Arguments height {RenderTarget}.
Arguments targets {RenderTarget}.
Arguments flip {RenderTarget}.
Arguments getFront {RenderTarget}.
Arguments getBack {RenderTarget}.
Arguments new {GL RenderTarget World}.
Arguments free {RenderTarget World}.

End Air.

(** * Rain ([src/js/koi/weather/rain/rain.js])

    The randomizer, the constellation, the water and the drops renderer
    belong to code outside the file.  [random.getFloat()] is a function from
    the state of the randomizer to a Number and the next state;
    [constellation.contains(x, y)] is a predicate; the calls of
    [water.addFlare] are logged in the order they are made.  The WebGL
    buffer of the constructor ([this.gl], [this.mesh], [makeMesh]) is left
    out: [update] and [render] do not read it, and [makeMesh] reads the
    positions without changing them. *)

Module Rain.

Import JS JSMath.
Local Open Scope js_scope.

Record Constellation : Type := mkConstellation {
  width : Number;
  height : Number
}.

Record t : Type := mk {
  positions : list (option Vector2.t);
  dropCount : nat;
  window : Number;
  windowWidth : Number;
  lastDrop : Number
}.

Definition DROP_LENGTH : Number := Fin 0.6.
Definition DROP_DISTANCE : Number := Fin 10.
Definition DROP_FALL_PORTION : Number := Fin 1 - DROP_LENGTH / DROP_DISTANCE.
Definition DROP_ANGLE : Number := Math_PI * Fin 0.45.
Definition DROP_EFFECT_RADIUS : Number := Fin 0.1.
Definition DROP_EFFECT_DISPLACEMENT : Number := Fin 0.175.
Definition CELL : Number := Fin 0.3.
Definition CELL_RANDOM : Number := Fin 0.8.
Definition CELL_OVERSHOOT_X : Number := opp (Math_cos DROP_ANGLE) * DROP_DISTANCE.
Definition CELL_OVERSHOOT_Y : Number := DROP_LENGTH.
Definition WINDOW_SPEED : Number := Fin 0.005.

(** A call [water.addFlare(x, y, radius, displacement)]. *)
Inductive flare : Type := addFlare (x y radius displacement : Number).

Section WithCollaborators.

Variable Random : Type.
Variable getFloat : Random -> Number * Random.
Variable contains : Constellation -> Number -> Number -> bool.

(** The body of the two loops of [makePositions], for the cell [(x, y)]:
    three numbers are drawn, for the place in the array and for the two
    coordinates, in this order. *)
Definition place_drop (xStart : Number) (x y : nat)
    (state : list Vector2.t * Random) : list Vector2.t * Random :=
  let (positions0, random0) := state in
  let (r0, random1) := getFloat random0 in
  let start := Math_floor (r0 * (of_nat (length positions0) + Fin 1)) in
  let (r1, random2) := getFloat random1 in
  let (r2, random3) := getFloat random2 in
  let v := {| Vector2.x := CELL * (of_nat x + r1 * CELL_RANDOM) + xStart;
              Vector2.y := CELL * (of_nat y + r2 * CELL_RANDOM) |} in
  (splice_in start v positions0, random3).

(** The two loops of [makePositions] over [ny] rows of [nx] cells. *)
Definition place_drops (xStart : Number) (nx ny : nat) (random : Random)
  : list Vector2.t * Random :=
  fold_left
    (fun state y =>
       fold_left (fun state' x => place_drop xStart x y state') (seq 0 nx) state)
    (seq 0 ny) ([], random).

(** [Rain.prototype.makePositions]; [None] when a loop never ends. *)
Definition makePositions (c : Constellation) (random : Random)
  : option (list Vector2.t * Random) :=
  let xCells := Math_ceil ((width c + Math_abs CELL_OVERSHOOT_X) / CELL) in
  let yCells := Math_ceil ((height c + CELL_OVERSHOOT_Y) / CELL) in
  let xStart := Math_min (Fin 0) CELL_OVERSHOOT_X in
  match iterations yCells with
  | None => None
  | Some O => Some ([], random)
  | Some (S ny) =>
      match iterations xCells with
      | None => None
      | Some nx => Some (place_drops xStart nx (S ny) random)
      end
  end.

(** [const Rain = function(gl, constellation, random)], without the
    mesh. *)
Definition new (c : Constellation) (random : Random) : option t :=
  match makePositions c random with
  | None => None
  | Some (positions0, _) =>
      let dropCount0 := length positions0 in
      let windowWidth0 := Fin 0.1 in
      Some {| positions :=
                map (fun p => if contains c (Vector2.x p) (Vector2.y p)
                              then Some p else None) positions0;
              dropCount := dropCount0;
              window := Fin 0;
              windowWidth := windowWidth0;
              lastDrop :=
                Math_floor (of_nat dropCount0
                            * (Fin 1 - windowWidth0 * DROP_FALL_PORTION)) |}
  end.

End WithCollaborators.

(** The loop of [update]: [drop] is the value of the loop variable before
    the test, [flares] the calls of [water.addFlare] so far.  The loop ends
    when [drop] is [last]; [None] is for a loop that has not ended after
    [fuel] tests. *)
Fixpoint drops_loop (fuel : nat) (r : t) (drop last : Number)
    (flares : list flare) : option (list flare) :=
  match fuel with
  | O => None
  | S fuel' =>
      if strict_eq drop last then Some flares
      else
        let flares' :=
          match element_at (positions r) drop with
          | Some (Some p) =>
              flares ++ [addFlare (Vector2.x p) (Vector2.y p)
                           DROP_EFFECT_RADIUS DROP_EFFECT_DISPLACEMENT]
          | _ => flares
          end in
        let drop1 := drop + Fin 1 in
        let drop2 :=
          if strict_eq drop1 (of_nat (dropCount r)) then Fin 0 else drop1 in
        drops_loop fuel' r drop2 last flares'
  end.

(** The window moved on by one step:
    [if ((this.window += this.WINDOW_SPEED) > 1) this.window -= 1;] *)
Definition advance_window (window0 : Number) : Number :=
  let window1 := window0 + WINDOW_SPEED in
  if window1 >? Fin 1 then window1 - Fin 1 else window1.

(** The drop at which the loop of [update] stops, [last]. *)
Definition last_drop (r : t) (window1 : Number) : Number :=
  let tail0 := window1 - windowWidth r * DROP_FALL_PORTION in
  let tail := if ltb tail0 (Fin 0) then tail0 + Fin 1 else tail0 in
  rem (Math_floor (of_nat (dropCount r) * tail)) (of_nat (dropCount r)).

(** The drop at which the loop of [update] starts. *)
Definition first_drop (r : t) : Number :=
  rem (lastDrop r + Fin 1) (of_nat (dropCount r)).

(** [Rain.prototype.update]: the rain afterwards and the flares added to the
    water. *)
Definition update (fuel : nat) (r : t) : option (t * list flare) :=
  let window1 := advance_window (window r) in
  let last := last_drop r window1 in
  match drops_loop fuel r (first_drop r) last [] with
  | Some flares =>
      Some ({| positions := positions r;
               dropCount := dropCount r;
               window := window1;
               windowWidth := windowWidth r;
               lastDrop := last - Fin 1 |}, flares)
  | None => None
  end.

(** The window [render] hands to the drops renderer:
    [let window = this.window + time * this.WINDOW_SPEED;
     if (window > 1) --window;] *)
Definition render_window (r : t) (time : Number) : Number :=
  let window0 := window r + time * WINDOW_SPEED in
  if window0 >? Fin 1 then window0 - Fin 1 else window0.

(** [Rain.prototype.render]: the arguments of the call [drops.render]. *)
Definition render (r : t) (time : Number) : Number * Number * Number :=
  (of_nat (dropCount r), render_window r time, windowWidth r).

End Rain.

(** * Plants ([src/js/render/air.js]): the capsule model

    [this.getFirstIndex] and [flexSampler.applyToRange] belong to code
    outside the file.  [getFirstIndex] is a function of the vertices;
    of [applyToRange], the last statement of [modelCapsule], the arguments
    are kept: the vertices are returned as they are handed to it.  The
    arrays [vertices] and [indices] are lists of Numbers, and [push] adds at
    the end. *)

Module Plants.

Import JS JSMath.
Local Open Scope js_scope.

Record Color : Type := mkColor { r : Number; g : Number; b : Number }.

Definition CAPSULE_SEGMENTS_MIN : Number := Fin 3.
Definition CAPSULE_RESOLUTION : Number := Fin 0.1.
Definition CAPSULE_RADIUS_POWER : Number := Fin 0.35.

(** The two arrays after [modelCapsule] and the range handed to
    [flexSampler.applyToRange]. *)
Record capsule : Type := mkCapsule {
  vertices : list Number;
  indices : list Number;
  flexFirst : Number;
  flexLast : Number
}.

Section WithCollaborators.

Variable getFirstIndex : list Number -> Number.

(** The body of the loop of [modelCapsule] for one [segment]. *)
Definition capsule_segment (x1 z1 dx dz y radius nx nz : Number)
    (uv : Vector2.t) (color : Color) (shade firstIndex segments : Number)
    (state : list Number * list Number) (segment : nat)
  : list Number * list Number :=
  let (vertices0, indices0) := state in
  let f := of_nat segment / (segments - Fin 1) in
  let x := x1 + dx * f in
  let z := z1 + dz * f in
  let radius' :=
    radius * pow (Math_cos (Math_PI * (f - Fin 0.5))) CAPSULE_RADIUS_POWER in
  let vertices1 :=
    vertices0 ++ [r color * shade; g color * shade; b color * shade;
                  x + nx * radius'; y; z + nz * radius';
                  Fin 0; Fin 0; Vector2.x uv; Vector2.y uv] in
  let vertices2 :=
    vertices1 ++ [r color; g color; b color;
                  x - nx * radius'; y; z - nz * radius';
                  Fin 0; Fin 0; Vector2.x uv; Vector2.y uv] in
  let indices1 :=
    if strict_neq (of_nat segment) (segments - Fin 2) then
      indices0 ++ [firstIndex + shl (of_nat segment) 1 - Fin 1;
                   firstIndex + shl (of_nat segment) 1;
                   firstIndex + shl (of_nat segment) 1 + Fin 2;
                   firstIndex + shl (of_nat segment) 1 + Fin 2;
                   firstIndex + shl (of_nat segment) 1 + Fin 1;
                   firstIndex + shl (of_nat segment) 1 - Fin 1]
    else indices0 in
  (vertices2, indices1).

(** [Math.max(this.CAPSULE_SEGMENTS_MIN,
              Math.round(length / this.CAPSULE_RESOLUTION) + 1)] *)
Definition capsule_segments (x1 z1 x2 z2 : Number) : Number :=
  let dx := x2 - x1 in
  let dz := z2 - z1 in
  let length := Math_sqrt (dx * dx + dz * dz) in
  Math_max CAPSULE_SEGMENTS_MIN
    (Math_round (length / CAPSULE_RESOLUTION) + Fin 1).

(** [Plants.prototype.modelCapsule]; [None] when the loop never ends. *)
Definition modelCapsule (x1 z1 x2 z2 y radius : Number) (uv : Vector2.t)
    (color : Color) (shade : Number) (vertices0 indices0 : list Number)
  : option capsule :=
  let firstIndex := getFirstIndex vertices0 in
  let dx := x2 - x1 in
  let dz := z2 - z1 in
  let length := Math_sqrt (dx * dx + dz * dz) in
  let nx := opp dz / length in
  let nz := dx / length in
  let segments := capsule_segments x1 z1 x2 z2 in
  let vertices1 :=
    vertices0 ++ [r color * shade; g color * shade; b color * shade;
                  x1; y; z1; Fin 0; Fin 0; Vector2.x uv; Vector2.y uv] in
  let indices1 :=
    indices0 ++ [firstIndex; firstIndex + Fin 1; firstIndex + Fin 2] in
  match iterations (segments - Fin 1) with
  | None => None
  | Some m =>
      let (vertices2, indices2) :=
        fold_left
          (capsule_segment x1 z1 dx dz y radius nx nz uv color shade
             firstIndex segments)
          (seq 1 (m - 1)) (vertices1, indices1) in
      let vertices3 :=
        vertices2 ++ [r color * shade; g color * shade; b color * shade;
                      x2; y; z2; Fin 0; Fin 0; Vector2.x uv; Vector2.y uv] in
      let indices3 :=
        indices2 ++ [firstIndex + shl (segments - Fin 2) 1 - Fin 1;
                     firstIndex + shl (segments - Fin 2) 1;
                     firstIndex + shl (segments - Fin 2) 1 + Fin 1] in
      Some {| vertices := vertices3;
              indices := indices3;
              flexFirst := firstIndex;
              flexLast := firstIndex + shl (segments - Fin 1) 1 - Fin 1 |}
  end.

End WithCollaborators.

End Plants.

(** * PatternShapeBody ([src/js/render/air.js])

    The shape of a fish body laid over its pattern; [Math.pow] is the
    exponentiation of the numbers. *)

Module PatternShapeBody.

Import JS.
Local Open Scope js_scope.

Record t : Type := mk {
  centerPower : Number;
  radiusPower : Number
}.

(** [const PatternShapeBody = function(centerPower, radiusPower)] *)
Definition new (centerPower0 radiusPower0 : Number) : t :=
  {| centerPower := centerPower0; radiusPower := radiusPower0 |}.

(** [PatternShapeBody.prototype.sample] *)
Definition sample (s : t) (x : Number) : Number :=
  pow (Math_cos (Math_PI * (pow x (centerPower s) - Fin 0.5))) (radiusPower s).

End PatternShapeBody.

(** * Vocabulary of the further statements *)

(** The fields the constructor fills in and no method assigns. *)
Definition built (b : Body.t) :=
  (Body.pattern b, Body.spacing b, Body.inverseSpacing b, Body.radii b,
   Body.springs b, Body.u b, Body.vCenter b, Body.vRadii b).

(** Segment [k] of the spine [initializeSpine] lays out: the head, with the
    step subtracted [k] times. *)
Definition trail_point (head step : Vector2.t) (k : nat) : Vector2.t :=
  Nat.iter k (fun v => Vector2.subtract v step) head.

Definition trail (head step : Vector2.t) (n : nat) : list Vector2.t :=
  map (trail_point head step) (seq 0 n).

(** The texture coordinate [v] of a strip command, and whether the command
    is a [drawStrip]. *)
Definition command_v (c : Body.command) : JS.Number :=
  match c with Body.cutStrip _ _ _ v | Body.drawStrip _ _ _ v => v end.

Definition is_drawStrip (c : Body.command) : bool :=
  match c with Body.drawStrip _ _ _ _ => true | Body.cutStrip _ _ _ _ => false end.




(** The flare [update] adds for the drop at index [i], if the drop has a
    position. *)
Definition flare_at (r : Rain.t) (i : nat) : list Rain.flare :=
  match nth_error (Rain.positions r) i with
  | Some (Some p) =>
      [Rain.addFlare (Vector2.x p) (Vector2.y p)
         Rain.DROP_EFFECT_RADIUS Rain.DROP_EFFECT_DISPLACEMENT]
  | _ => []
  end.

(** [count] drops of [n] from [start] on, going round after the last. *)
Definition drops_from (n start count : nat) : list nat :=
  map (fun k => (start + k) mod n) (seq 0 count).

(** How many drops lie from [start] up to, and without, [stop], going
    round. *)
Definition drops_between (n start stop : nat) : nat :=
  (stop + n - start) mod n.

(** The cells of a grid of [nx] by [ny], row after row. *)
Definition cells (nx ny : nat) : list (nat * nat) :=
  flat_map (fun y => map (fun x => (x, y)) (seq 0 nx)) (seq 0 ny).

(** A point in the part of the cell [(x, y)] a drop can fall in: each
    coordinate lies between the values the expression of [makePositions]
    takes for the random numbers 0 and 1. *)
Definition within_cell (xStart : JS.Number) (cell : nat * nat) (p : Vector2.t)
  : Prop :=
  exists lox hix loy hiy px py : R,
    p = vec px py /\
    (Rain.CELL * (JS.of_nat (fst cell) + JS.Fin 0 * Rain.CELL_RANDOM) + xStart)%js
    = JS.Fin lox /\
    (Rain.CELL * (JS.of_nat (fst cell) + JS.Fin 1 * Rain.CELL_RANDOM) + xStart)%js
    = JS.Fin hix /\
    (Rain.CELL * (JS.of_nat (snd cell) + JS.Fin 0 * Rain.CELL_RANDOM))%js
    = JS.Fin loy /\
    (Rain.CELL * (JS.of_nat (snd cell) + JS.Fin 1 * Rain.CELL_RANDOM))%js
    = JS.Fin hiy /\
    (lox <= px <= hix)%R /\ (loy <= py <= hiy)%R.

(** A vertex as [modelCapsule] pushes it: colour, position, two zeroes and
    the texture coordinates. *)
Definition capsule_vertex (cr cg cb x y z : JS.Number) (uv : Vector2.t)
  : list JS.Number :=
  [cr; cg; cb; x; y; z; JS.Fin 0; JS.Fin 0; Vector2.x uv; Vector2.y uv].

(** The six indices the loop of [modelCapsule] pushes for a segment. *)
Definition capsule_quad (firstIndex : JS.Number) (segment : nat)
  : list JS.Number :=
  let i := JS.add firstIndex (JSMath.shl (JS.of_nat segment) 1) in
  [JS.sub i (JS.Fin 1); i; JS.add i (JS.Fin 2);
   JS.add i (JS.Fin 2); JS.add i (JS.Fin 1); JS.sub i (JS.Fin 1)].

(** A rain of two drops, the second outside the constellation, at the start
    of a cycle. *)
Definition small_rain : Rain.t :=
  {| Rain.positions := [Some (vec 0.1 0.2); None];
     Rain.dropCount := 2;
     Rain.window := JS.Fin 0;
     Rain.windowWidth := JS.Fin 0.1;
     Rain.lastDrop := JS.sub (JS.of_nat 2) (JS.Fin 1) |}.

(** A rain without drops. *)
Definition dry_rain : Rain.t :=
  {| Rain.positions := [];
     Rain.dropCount := 0;
     Rain.window := JS.Fin 0;
     Rain.windowWidth := JS.Fin 0.1;
     Rain.lastDrop := JS.Fin 0 |}.

(** A randomizer that always returns one half. *)
Definition one_half (state : unit) : JS.Number * unit := (JS.Fin 0.5, state).

(** A white colour, and the first index of an empty vertex array. *)
Definition white : Plants.Color :=
  {| Plants.r := JS.Fin 1; Plants.g := JS.Fin 1; Plants.b := JS.Fin 1 |}.

Definition first_index_zero (vertices : list JS.Number) : JS.Number := JS.Fin 0.

(** * Capacity gates *)

Section PondGates.

Context {Fish Constraint : Type}.
Variable getCapacity : Constraint -> Z.

Lemma addFish_length (p : Pond.t Fish Constraint) (f : Fish) :
  length (Pond.fishes (Pond.addFish p f)) = S (length (Pond.fishes p)).
Proof. simpl. rewrite length_app. simpl. lia. Qed.

Lemma addFishes_length (l : list Fish) : forall p : Pond.t Fish Constraint,
  length (Pond.fishes (addFishes p l)) = (length (Pond.fishes p) + length l)%nat.
Proof.
  unfold addFishes.
  induction l as [|f l IH]; intros p; cbn [fold_left length].
  - lia.
  - rewrite IH, addFish_length. lia.
Qed.

Lemma addFishes_capacity (l : list Fish) : forall p : Pond.t Fish Constraint,
  Pond.capacity (addFishes p l) = Pond.capacity p.
Proof.
  unfold addFishes.
  induction l as [|f l IH]; intros p; cbn [fold_left].
  - reflexivity.
  - now rewrite IH.
Qed.

(** C3: [canSpawn] is true exactly when the fish count is below
    [capacity - SPAWN_OVERHEAD] with [SPAWN_OVERHEAD = 2], [canDrop] exactly
    when it is below [capacity]; a pond of capacity 10 refuses to spawn but
    accepts a drop once 8 fish were added, and refuses a drop after 10. *)
Theorem capacity_gating :
  Pond.SPAWN_OVERHEAD = 2%Z /\
  (forall p : Pond.t Fish Constraint,
     (Pond.canSpawn p = true <->
      (Z.of_nat (length (Pond.fishes p)) < Pond.capacity p - Pond.SPAWN_OVERHEAD)%Z) /\
     (Pond.canDrop p = true <->
      (Z.of_nat (length (Pond.fishes p)) < Pond.capacity p)%Z)) /\
  (forall (c : Constraint) (l : list Fish),
     getCapacity c = 10%Z ->
     (length l = 8%nat ->
      Pond.canSpawn (addFishes (Pond.new getCapacity c) l) = false /\
      Pond.canDrop (addFishes (Pond.new getCapacity c) l) = true) /\
     (length l = 10%nat ->
      Pond.canDrop (addFishes (Pond.new getCapacity c) l) = false)).
Proof.
  split; [reflexivity|]. split.
  - intros p. unfold Pond.canSpawn, Pond.canDrop. split; apply Z.ltb_lt.
  - intros c l Hc. unfold Pond.canSpawn, Pond.canDrop.
    rewrite addFishes_length, addFishes_capacity. simpl. rewrite Hc.
    split.
    + intros ->. split; reflexivity.
    + intros ->. reflexivity.
Qed.

End PondGates.

(** The scenario of C3 on a pond of capacity 10 that receives the fish
    numbered 1 to 10. *)
Lemma capacity_gating_witness :
  Pond.canSpawn (addFishes (Pond.new (fun c : Z => c) 10%Z) (seq 1 8)) = false /\
  Pond.canDrop (addFishes (Pond.new (fun c : Z => c) 10%Z) (seq 1 8)) = true /\
  Pond.canDrop (addFishes (Pond.new (fun c : Z => c) 10%Z) (seq 1 10)) = false.
Proof.
  destruct (@capacity_gating nat Z (fun c => c)) as [_ [_ H]].
  destruct (H 10%Z (seq 1 8) eq_refl) as [H8 _].
  destruct (H 10%Z (seq 1 10) eq_refl) as [_ H10].
  destruct (H8 eq_refl) as [Hs Hd].
  split; [exact Hs|]. split; [exact Hd|]. exact (H10 eq_refl).
Defined.

(** * The pond tick: interaction order, coverage and removal on death *)

Section PondTick.

Context {Fish Constraint Atlas Random World : Type}.
Variable fish_interact : Fish -> Fish -> Random -> World -> World.
Variable fish_update : Fish -> Constraint -> Random -> World -> bool * World.
Variable fish_free : Fish -> Atlas -> World -> World.

Notation "'state'" := (Pond.state Fish World).
Notation "'interact_loop'" :=
  (Pond.interact_loop Fish Random World fish_interact).
Notation "'update_loop'" :=
  (Pond.update_loop Fish Constraint Atlas Random World
     fish_interact fish_update fish_free).

Lemma interactions_app (l1 l2 : list (Pond.call Fish)) :
  Pond.interactions (l1 ++ l2) = Pond.interactions l1 ++ Pond.interactions l2.
Proof. apply flat_map_app. Qed.

Lemma updates_app (l1 l2 : list (Pond.call Fish)) :
  Pond.updates (l1 ++ l2) = Pond.updates l1 ++ Pond.updates l2.
Proof. apply flat_map_app. Qed.

Lemma frees_app (l1 l2 : list (Pond.call Fish)) :
  Pond.frees (l1 ++ l2) = Pond.frees l1 ++ Pond.frees l2.
Proof. apply flat_map_app. Qed.

(** The inner loop leaves the array alone and logs the calls
    [fs[fish].interact(fs[other])] for [other] from [n - 1] down to 0. *)
Lemma interact_loop_spec (random : Random) (fish : nat) :
  forall (n : nat) (s : state),
    (n <= fish)%nat -> (fish < length (Pond.st_fishes Fish World s))%nat ->
    exists s' l,
      interact_loop random fish n s = Some s' /\
      Pond.st_fishes Fish World s' = Pond.st_fishes Fish World s /\
      Pond.st_calls Fish World s' = Pond.st_calls Fish World s ++ l /\
      Pond.interactions l = map (pair fish) (rev (seq 0 n)) /\
      Pond.updates l = [] /\
      Pond.frees l = [] /\
      Forall (fun e => call_index e = fish) l /\
      Forall (called_on (Pond.st_fishes Fish World s)) l.
Proof.
  induction n as [|n IH]; intros s Hn Hfish.
  - exists s, []. simpl. rewrite app_nil_r. repeat split; constructor.
  - cbn [Pond.interact_loop].
    destruct (nth_error (Pond.st_fishes Fish World s) fish) as [f|] eqn:Ef;
      [|apply nth_error_None in Ef; lia].
    destruct (nth_error (Pond.st_fishes Fish World s) n) as [o|] eqn:Eo;
      [|apply nth_error_None in Eo; lia].
    edestruct (IH (Pond.mkState Fish World (Pond.st_fishes Fish World s)
                     (fish_interact f o random (Pond.st_world Fish World s))
                     (Pond.st_calls Fish World s ++ [Pond.Interact fish n f o])))
      as (s' & l & Hrun & Hfs & Hcalls & Hint & Hupd & Hfree & Hidx & Hok);
      [lia | exact Hfish |].
    exists s', (Pond.Interact fish n f o :: l).
    cbn [Pond.st_fishes Pond.st_calls] in *.
    rewrite Hrun, Hfs, Hcalls, <- app_assoc, seq_S, rev_app_distr.
    simpl. rewrite Hint.
    repeat split; try assumption.
    + constructor; [reflexivity|exact Hidx].
    + constructor; [|exact Hok]. simpl. repeat split; try assumption.
Qed.

Lemma firstn_S_nth_error (l : list Fish) : forall k f,
  nth_error l k = Some f -> firstn (S k) l = firstn k l ++ [f].
Proof.
  induction l as [|a l IH]; intros [|k] f H; simpl in H; try discriminate.
  - injection H as ->. reflexivity.
  - cbn [firstn app]. f_equal. now apply IH.
Qed.

Lemma skipn_nth_error (l : list Fish) : forall k f,
  nth_error l k = Some f -> skipn k l = f :: skipn (S k) l.
Proof.
  induction l as [|a l IH]; intros [|k] f H; simpl in H; try discriminate.
  - injection H as ->. reflexivity.
  - cbn [skipn]. now apply IH.
Qed.

Lemma keep_from_app (alive : nat -> bool) (l1 l2 : list Fish) : forall i,
  keep_from i alive (l1 ++ l2) =
  keep_from i alive l1 ++ keep_from (i + length l1) alive l2.
Proof.
  induction l1 as [|f l1 IH]; intros i; simpl.
  - now rewrite Nat.add_0_r.
  - rewrite IH, <- app_assoc. now replace (S i + length l1)%nat with (i + S (length l1))%nat by lia.
Qed.

Lemma keep_from_ext (alive alive' : nat -> bool) (l : list Fish) : forall i,
  (forall j, (i <= j < i + length l)%nat -> alive j = alive' j) ->
  keep_from i alive l = keep_from i alive' l.
Proof.
  induction l as [|f l IH]; intros i H; simpl; [reflexivity|].
  rewrite (H i) by (simpl; lia). f_equal. apply IH.
  intros j Hj. apply H. simpl. lia.
Qed.

Lemma keep_from_In (alive : nat -> bool) (f : Fish) : forall (l : list Fish) i,
  In f (keep_from i alive l) <->
  exists j, nth_error l j = Some f /\ alive (i + j)%nat = true.
Proof.
  induction l as [|a l IH]; intros i; cbn [keep_from].
  - split; [contradiction|]. intros ([|j] & H & _); discriminate.
  - rewrite in_app_iff, IH. split.
    + intros [H|(j & Hj & Ha)].
      * destruct (alive i) eqn:Ei; [|contradiction].
        destruct H as [->|[]]. exists 0%nat. now rewrite Nat.add_0_r.
      * exists (S j). split; [exact Hj|]. now rewrite Nat.add_succ_r.
    + intros ([|j] & Hj & Ha).
      * left. injection Hj as ->. rewrite Nat.add_0_r in Ha. rewrite Ha. now left.
      * right. exists j. split; [exact Hj|]. now rewrite Nat.add_succ_r in Ha.
Qed.

Lemma died_other (l : list (nat * bool)) (i : nat) :
  ~ In i (map fst l) -> died l i = false.
Proof.
  induction l as [|[j d] l IH]; simpl; intros H; [reflexivity|].
  rewrite IH by tauto.
  destruct (Nat.eqb_spec j i); [tauto|reflexivity].
Qed.

Lemma called_on_firstn (fs fs' : list Fish) (k : nat) (l : list (Pond.call Fish)) :
  firstn k fs' = firstn k fs ->
  Forall (fun e => (call_index e < k)%nat) l ->
  Forall (called_on fs') l -> Forall (called_on fs) l.
Proof.
  intros Hfs Hk Hok. rewrite Forall_forall in *.
  intros e He. specialize (Hk e He). specialize (Hok e He).
  assert (Hnth : forall i, (i < k)%nat -> nth_error fs' i = nth_error fs i).
  { intros i Hi.
    pose proof (nth_error_firstn k fs' i) as H1.
    pose proof (nth_error_firstn k fs i) as H2.
    rewrite Hfs, H2 in H1.
    destruct (Nat.ltb_spec i k); [now symmetry|lia]. }
  destruct e; simpl in *.
  - destruct Hok as (H1 & H2 & H3). rewrite <- !Hnth by lia. tauto.
  - now rewrite <- Hnth.
  - now rewrite <- Hnth.
Qed.

Ltac log_simpl :=
  cbn [Pond.updates Pond.frees Pond.interactions flat_map Pond.update_outcome
       Pond.freed_index Pond.interact_pair app map fst snd filter].

(** The outer loop from index [k] down: the calls it logs and the array it
    leaves, in terms of the array it starts from. *)
Lemma update_loop_spec (c : Constraint) (atlas : Atlas) (random : Random) :
  forall (k : nat) (s : state),
    (k <= length (Pond.st_fishes Fish World s))%nat ->
    exists s' l,
      update_loop c atlas random k s = Some s' /\
      Pond.st_calls Fish World s' = Pond.st_calls Fish World s ++ l /\
      Pond.interactions l = descending_pairs k /\
      map fst (Pond.updates l) = rev (seq 0 k) /\
      Pond.frees l = map fst (filter snd (Pond.updates l)) /\
      Pond.st_fishes Fish World s' =
        keep_from 0 (fun i => negb (died (Pond.updates l) i))
          (firstn k (Pond.st_fishes Fish World s))
        ++ skipn k (Pond.st_fishes Fish World s) /\
      Forall (fun e => (call_index e < k)%nat) l /\
      Forall (called_on (Pond.st_fishes Fish World s)) l.
Proof.
  induction k as [|k IH]; intros s Hk.
  - exists s, []. simpl. rewrite app_nil_r. repeat split; constructor.
  - cbn [Pond.update_loop].
    destruct (interact_loop_spec random k k s (le_n k) Hk)
      as (s1 & l1 & Hrun1 & Hfs1 & Hcalls1 & Hint1 & Hupd1 & Hfree1 & Hidx1 & Hok1).
    rewrite Hrun1. unfold Pond.update_fish. rewrite Hfs1.
    destruct (nth_error (Pond.st_fishes Fish World s) k) as [f|] eqn:Ef;
      [|apply nth_error_None in Ef; lia].
    destruct (fish_update f c random (Pond.st_world Fish World s1))
      as [dead w] eqn:Eupd.
    set (fs := Pond.st_fishes Fish World s) in *.
    pose proof (firstn_S_nth_error fs k f Ef) as Hsplit.
    pose proof (skipn_nth_error fs k f Ef) as Hskip.
    assert (Hfresh : forall lr : list (Pond.call Fish),
               map fst (Pond.updates lr) = rev (seq 0 k) ->
               died (Pond.updates lr) k = false).
    { intros lr Hlr. apply died_other. rewrite Hlr, <- in_rev, in_seq. lia. }
    assert (Hold : forall (lr : list (Pond.call Fish)) d i,
               (i < k)%nat ->
               died ((k, d) :: Pond.updates lr) i = died (Pond.updates lr) i).
    { intros lr d i Hi. simpl. destruct (Nat.eqb_spec k i); [lia|reflexivity]. }
    destruct dead.
    + edestruct (IH (Pond.mkState Fish World (Pond.splice1 Fish k fs)
                       (fish_free f atlas w)
                       (Pond.st_calls Fish World s1 ++
                        [Pond.Update k f true; Pond.Free k f])))
        as (s' & lr & Hrun & Hcalls & Hint & Hupd & Hfree & Hfs & Hidx & Hok).
      { simpl. unfold Pond.splice1. rewrite length_app, length_firstn, length_skipn.
        lia. }
      simpl in Hrun, Hcalls, Hfs, Hok.
      assert (Hpre : firstn k (Pond.splice1 Fish k fs) = firstn k fs).
      { unfold Pond.splice1. rewrite firstn_app, firstn_firstn, Nat.min_id.
        rewrite length_firstn, Nat.min_l by lia.
        now rewrite Nat.sub_diag, firstn_O, app_nil_r. }
      assert (Hpost : skipn k (Pond.splice1 Fish k fs) = skipn (S k) fs).
      { unfold Pond.splice1. rewrite skipn_app, length_firstn, Nat.min_l by lia.
        now rewrite skipn_all2, Nat.sub_diag by (rewrite length_firstn; lia). }
      exists s', (l1 ++ [Pond.Update k f true; Pond.Free k f] ++ lr).
      rewrite Hrun, Hcalls, Hcalls1, <- !app_assoc.
      rewrite !interactions_app, !updates_app, !frees_app, Hint1, Hupd1, Hfree1.
      log_simpl. rewrite Hint, Hupd, Hfree, Hfs, Hpre, Hpost, Hsplit.
      repeat split.
      * unfold descending_pairs. rewrite seq_S, rev_app_distr. reflexivity.
      * rewrite seq_S, rev_app_distr. reflexivity.
      * rewrite keep_from_app, length_firstn, Nat.min_l by lia.
        cbn [keep_from died existsb fst snd Nat.add].
        rewrite Nat.eqb_refl. cbn [andb orb negb app].
        rewrite app_nil_r. f_equal.
        apply keep_from_ext. intros j Hj.
        rewrite length_firstn, Nat.min_l in Hj by lia.
        destruct (Nat.eqb_spec k j); [lia|reflexivity].
      * apply Forall_app. split.
        { eapply Forall_impl; [|exact Hidx1]. intros e He.
          cbv beta in He. lia. }
        constructor; [simpl; lia|]. constructor; [simpl; lia|].
        eapply Forall_impl; [|exact Hidx]. intros e He. simpl in He. lia.
      * apply Forall_app. split; [exact Hok1|].
        constructor; [exact Ef|]. constructor; [exact Ef|].
        eapply called_on_firstn; [exact Hpre|exact Hidx|exact Hok].
    + edestruct (IH (Pond.mkState Fish World fs w
                       (Pond.st_calls Fish World s1 ++ [Pond.Update k f false])))
        as (s' & lr & Hrun & Hcalls & Hint & Hupd & Hfree & Hfs & Hidx & Hok).
      { simpl. fold fs. lia. }
      simpl in Hrun, Hcalls, Hfs, Hok.
      exists s', (l1 ++ [Pond.Update k f false] ++ lr).
      rewrite Hrun, Hcalls, Hcalls1, <- !app_assoc.
      rewrite !interactions_app, !updates_app, !frees_app, Hint1, Hupd1, Hfree1.
      log_simpl. rewrite Hint, Hupd, Hfree, Hfs, Hsplit, Hskip.
      repeat split.
      * unfold descending_pairs. rewrite seq_S, rev_app_distr. reflexivity.
      * rewrite seq_S, rev_app_distr. reflexivity.
      * rewrite keep_from_app, length_firstn, Nat.min_l by lia.
        cbn [keep_from died existsb fst snd Nat.add].
        rewrite Nat.eqb_refl. cbn [andb orb negb app].
        fold (died (Pond.updates lr) k). rewrite (Hfresh lr Hupd).
        cbn [negb]. rewrite <- app_assoc. cbn [app]. f_equal.
        apply keep_from_ext. intros j Hj.
        rewrite length_firstn, Nat.min_l in Hj by lia.
        destruct (Nat.eqb_spec k j); [lia|reflexivity].
      * apply Forall_app. split.
        { eapply Forall_impl; [|exact Hidx1]. intros e He.
          cbv beta in He. lia. }
        constructor; [simpl; lia|].
        eapply Forall_impl; [|exact Hidx]. intros e He. simpl in He. lia.
      * apply Forall_app. split; [exact Hok1|].
        constructor; [exact Ef|]. exact Hok.
Qed.

End PondTick.

(** ** The index pairs of a tick *)





(** ** The log of a tick is the record of its calls *)

Section PondTrace.

Context {Fish Constraint Atlas Random World : Type}.
Variable fish_interact : Fish -> Fish -> Random -> World -> World.
Variable fish_update : Fish -> Constraint -> Random -> World -> bool * World.
Variable fish_free : Fish -> Atlas -> World -> World.
Variable c : Constraint.
Variable atlas : Atlas.
Variable random : Random.

Notation "'replayed'" :=
  (replay fish_interact fish_update fish_free c atlas random).
Notation "'follows'" :=
  (traced fish_interact fish_update fish_free c atlas random).

Lemma replay_app (l1 l2 : list (Pond.call Fish)) : forall w : World,
  replayed (l1 ++ l2) w
  = match replayed l1 w with
    | Some w1 => replayed l2 w1
    | None => None
    end.
Proof.
  induction l1 as [|e l1 IH]; intros w; [reflexivity|].
  destruct e as [i j f o|i f dead|i f]; cbn [app replay].
  - apply IH.
  - destruct (fish_update f c random w) as [returned w1].
    destruct (Bool.eqb returned dead); [apply IH|reflexivity].
  - apply IH.
Qed.

Lemma interact_loop_traced (w0 : World) (fish : nat) :
  forall (n : nat) (s s' : Pond.state Fish World),
    Pond.interact_loop Fish Random World fish_interact random fish n s = Some s' ->
    follows w0 s -> follows w0 s'.
Proof.
  induction n as [|n IH]; intros s s' Hrun Hs.
  - cbn in Hrun. now injection Hrun as <-.
  - cbn [Pond.interact_loop] in Hrun.
    destruct (nth_error (Pond.st_fishes Fish World s) fish) as [f|];
      [|discriminate].
    destruct (nth_error (Pond.st_fishes Fish World s) n) as [o|];
      [|discriminate].
    apply (IH _ _ Hrun). unfold traced in *.
    cbn [Pond.st_calls Pond.st_world]. rewrite replay_app, Hs. reflexivity.
Qed.

Lemma update_fish_traced (w0 : World) (fish : nat)
    (s s' : Pond.state Fish World) :
  Pond.update_fish Fish Constraint Atlas Random World fish_update fish_free
    c atlas random fish s = Some s' ->
  follows w0 s -> follows w0 s'.
Proof.
  unfold Pond.update_fish, traced. intros Hrun Hs.
  destruct (nth_error (Pond.st_fishes Fish World s) fish) as [f|];
    [|discriminate].
  destruct (fish_update f c random (Pond.st_world Fish World s))
    as [dead w] eqn:E.
  destruct dead; injection Hrun as <-;
    cbn [Pond.st_calls Pond.st_world]; rewrite replay_app, Hs;
    cbn [replay]; rewrite E; reflexivity.
Qed.

Lemma update_loop_traced (w0 : World) :
  forall (k : nat) (s s' : Pond.state Fish World),
    Pond.update_loop Fish Constraint Atlas Random World
      fish_interact fish_update fish_free c atlas random k s = Some s' ->
    follows w0 s -> follows w0 s'.
Proof.
  induction k as [|k IH]; intros s s' Hrun Hs.
  - cbn in Hrun. now injection Hrun as <-.
  - cbn [Pond.update_loop] in Hrun.
    destruct (Pond.interact_loop Fish Random World fish_interact random k k s)
      as [s1|] eqn:E1; [|discriminate].
    destruct (Pond.update_fish Fish Constraint Atlas Random World fish_update
                fish_free c atlas random k s1) as [s2|] eqn:E2; [|discriminate].
    apply (IH _ _ Hrun).
    apply (update_fish_traced w0 k s1 s2 E2).
    exact (interact_loop_traced w0 k k s s1 E1 Hs).
Qed.

End PondTrace.

Section PondProperties.

Context {Fish Constraint Atlas Random World : Type}.
Variable fish_interact : Fish -> Fish -> Random -> World -> World.
Variable fish_update : Fish -> Constraint -> Random -> World -> bool * World.
Variable fish_free : Fish -> Atlas -> World -> World.

(** What one tick does, read off the outer loop started at the array's
    length with an empty log. *)
Lemma update_spec (p : Pond.t Fish Constraint) (atlas : Atlas)
    (random : Random) (w : World) :
  exists p' w' calls,
    Pond.update fish_interact fish_update fish_free p atlas random w
      = Some (p', w', calls) /\
    Pond.constraint p' = Pond.constraint p /\
    Pond.capacity p' = Pond.capacity p /\
    Pond.interactions calls = descending_pairs (length (Pond.fishes p)) /\
    map fst (Pond.updates calls) = rev (seq 0 (length (Pond.fishes p))) /\
    Pond.frees calls = map fst (filter snd (Pond.updates calls)) /\
    Pond.fishes p' =
      keep_from 0 (fun i => negb (died (Pond.updates calls) i)) (Pond.fishes p) /\
    Forall (called_on (Pond.fishes p)) calls.
Proof.
  unfold Pond.update.
  destruct (update_loop_spec fish_interact fish_update fish_free
              (Pond.constraint p) atlas random (length (Pond.fishes p))
              (Pond.mkState Fish World (Pond.fishes p) w []) (le_n _))
    as (s' & l & Hrun & Hcalls & Hint & Hupd & Hfree & Hfs & _ & Hok).
  cbn [Pond.st_fishes Pond.st_calls app] in *.
  rewrite Hrun. subst l.
  rewrite firstn_all, skipn_all, app_nil_r in Hfs.
  eexists _, _, _. split; [reflexivity|].
  cbn [Pond.constraint Pond.capacity Pond.fishes].
  repeat split; assumption.
Qed.


Lemma filter_snd_In (l : list (nat * bool)) (i : nat) :
  In i (map fst (filter snd l)) -> In i (map fst l).
Proof.
  rewrite !in_map_iff. intros (x & Hx & Hin).
  apply filter_In in Hin. exists x. tauto.
Qed.

Lemma frees_count (l : list (nat * bool)) (i : nat) :
  NoDup (map fst l) ->
  count_occ Nat.eq_dec (map fst (filter snd l)) i =
  if died l i then 1%nat else 0%nat.
Proof.
  induction l as [|[j d] l IH]; intros Hnd; [reflexivity|].
  cbn [map fst] in Hnd. inversion Hnd as [|? ? Hnotin Hnd']; subst.
  specialize (IH Hnd').
  cbn [filter snd died existsb fst].
  fold (died l i).
  destruct (Nat.eqb_spec j i) as [->|Hne].
  - rewrite (died_other l i Hnotin) in *.
    assert (Hz : count_occ Nat.eq_dec (map fst (filter snd l)) i = 0%nat).
    { apply count_occ_not_In. intros H. now apply Hnotin, filter_snd_In. }
    destruct d; cbn [map fst andb orb].
    + rewrite count_occ_cons_eq by reflexivity. now rewrite Hz.
    + exact Hz.
  - destruct d; cbn [map fst andb orb].
    + rewrite count_occ_cons_neq by exact Hne. exact IH.
    + exact IH.
Qed.

(** The log of a tick is the record of the calls made: replayed from the
    world the tick started in, with every [update] returning what the log
    says, it gives the world the tick ends in. *)
Lemma update_replay (p : Pond.t Fish Constraint) (atlas : Atlas)
    (random : Random) (w w' : World) (p' : Pond.t Fish Constraint)
    (calls : list (Pond.call Fish)) :
  Pond.update fish_interact fish_update fish_free p atlas random w
    = Some (p', w', calls) ->
  replay fish_interact fish_update fish_free (Pond.constraint p) atlas random
    calls w = Some w'.
Proof.
  unfold Pond.update. intros Hrun.
  destruct (Pond.update_loop Fish Constraint Atlas Random World fish_interact
              fish_update fish_free (Pond.constraint p) atlas random
              (length (Pond.fishes p))
              (Pond.mkState Fish World (Pond.fishes p) w [])) as [s|] eqn:E;
    [|discriminate].
  injection Hrun as _ <- <-.
  exact (update_loop_traced fish_interact fish_update fish_free
           (Pond.constraint p) atlas random w _ _ s E eq_refl).
Qed.

(** C6: in a tick every fish has [update] called on it once; a fish whose
    [update] returned true has [free] called on it once and is gone from the
    array after the tick, a fish whose [update] returned false is not freed
    and stays, in its place among the survivors (so the fish in the array
    after the tick are those whose [update] returned false); the values
    logged for the calls of [update] are the values the calls returned, and
    the world after the tick is the one the logged calls leave, made in this
    order; and [addFish] removes nothing. *)
Theorem death_removal (p : Pond.t Fish Constraint) (atlas : Atlas)
    (random : Random) (w : World) :
  exists p' w' calls,
    Pond.update fish_interact fish_update fish_free p atlas random w
      = Some (p', w', calls) /\
    replay fish_interact fish_update fish_free (Pond.constraint p) atlas
      random calls w = Some w' /\
    (forall i, (i < length (Pond.fishes p))%nat ->
       count_occ Nat.eq_dec (map fst (Pond.updates calls)) i = 1%nat /\
       count_occ Nat.eq_dec (Pond.frees calls) i =
         if died (Pond.updates calls) i then 1%nat else 0%nat) /\
    Pond.fishes p' =
      keep_from 0 (fun i => negb (died (Pond.updates calls) i)) (Pond.fishes p) /\
    (forall f, In f (Pond.fishes p') <->
       exists i, nth_error (Pond.fishes p) i = Some f /\
                 died (Pond.updates calls) i = false) /\
    Forall (called_on (Pond.fishes p)) calls /\
    (forall f, Pond.fishes (Pond.addFish p f) = Pond.fishes p ++ [f]).
Proof.
  destruct (update_spec p atlas random w)
    as (p' & w' & calls & Hrun & _ & _ & _ & Hupd & Hfree & Hfs & Hok).
  exists p', w', calls.
  assert (Hnd : NoDup (map fst (Pond.updates calls))).
  { rewrite Hupd. apply NoDup_rev, seq_NoDup. }
  split; [exact Hrun|].
  split; [exact (update_replay p atlas random w w' p' calls Hrun)|].
  split; [|split; [exact Hfs|split; [|split; [exact Hok|reflexivity]]]].
  - intros i Hi. split.
    + apply NoDup_count_occ'; [exact Hnd|].
      rewrite Hupd. apply -> in_rev. apply in_seq. lia.
    + rewrite Hfree. now apply frees_count.
  - intros f. rewrite Hfs, keep_from_In. cbn [Nat.add].
    split; intros (i & Hi & Ha); exists i; (split; [exact Hi|]).
    + now apply negb_true_iff.
    + now apply negb_true_iff.
Qed.

End PondProperties.



(** When the fish at the indices 1 and 2 die, each is freed once, right
    after its [update], the fish at index 0 is not freed, and the pond keeps
    it alone; the journal has the calls in the order of the log. *)
Lemma death_removal_witness :
  exists p' calls,
    tick_with_journal
    = Some (p', [(12, 11); (12, 10); (12, 12); (12, 0);
                 (11, 10); (11, 11); (11, 0); (10, 10)]%nat, calls) /\
    Pond.updates calls = [(2, true); (1, true); (0, false)]%nat /\
    Pond.frees calls = [2; 1]%nat /\
    Pond.fishes p' = [10]%nat.
Proof.
  destruct (death_removal journal_interact journal_update journal_free
              three_fish tt tt [])
    as (p' & w' & calls & Hrun & Hreplay & Hcount & Hfs & _).
  fold tick_with_journal in Hrun.
  assert (Hcalls : calls = [Pond.Interact 2 1 12 11; Pond.Interact 2 0 12 10;
                            Pond.Update 2 12 true; Pond.Free 2 12;
                            Pond.Interact 1 0 11 10;
                            Pond.Update 1 11 true; Pond.Free 1 11;
                            Pond.Update 0 10 false]%nat).
  { pose proof Hrun as H. vm_compute in H. now injection H as _ _ <-. }
  exists p', calls. rewrite Hrun. subst calls.
  vm_compute in Hreplay. injection Hreplay as <-.
  split; [reflexivity|]. split; [reflexivity|]. split; [reflexivity|].
  rewrite Hfs. reflexivity.
Defined.

(** * Arithmetic of the modelled numbers *)

Section NumberFacts.

Import JS.
Local Open Scope R_scope.

Lemma add_Fin_inv (a b : Number) (r : R) :
  (a + b)%js = Fin r -> exists x y, a = Fin x /\ b = Fin y /\ r = x + y.
Proof.
  destruct a as [x| | |], b as [y| | |]; simpl; intros H; try discriminate.
  injection H as <-. now exists x, y.
Qed.

Lemma sub_Fin_inv (a b : Number) (r : R) :
  (a - b)%js = Fin r -> exists x y, a = Fin x /\ b = Fin y /\ r = x - y.
Proof.
  destruct a as [x| | |], b as [y| | |]; simpl; intros H; try discriminate.
  injection H as <-. now exists x, y.
Qed.

Lemma mul_Fin_inv (a b : Number) (r : R) :
  (a * b)%js = Fin r -> exists x y, a = Fin x /\ b = Fin y /\ r = x * y.
Proof.
  destruct a as [x| | |], b as [y| | |]; simpl; intros H; try discriminate;
    try (injection H as <-; now exists x, y);
    repeat match type of H with
           | context [Req_dec_T ?u ?v] => destruct (Req_dec_T u v)
           | context [Rlt_dec ?u ?v] => destruct (Rlt_dec u v)
           end; discriminate.
Qed.

Lemma sqrt_Fin_inv (a : Number) (r : R) :
  Math_sqrt a = Fin r -> exists x, a = Fin x /\ 0 <= x /\ r = sqrt x.
Proof.
  destruct a as [x| | |]; simpl; intros H; try discriminate.
  destruct (Rlt_dec x 0); [discriminate|].
  injection H as <-. exists x. repeat split. lra.
Qed.

Lemma sqrt_Fin (x : R) : 0 <= x -> Math_sqrt (Fin x) = Fin (sqrt x).
Proof. intros H. simpl. destruct (Rlt_dec x 0); [lra|reflexivity]. Qed.

Lemma div_Fin (x y : R) : y <> 0 -> (Fin x / Fin y)%js = Fin (x / y).
Proof. intros H. simpl. destruct (Req_dec_T y 0); [contradiction|reflexivity]. Qed.

Lemma div_zero_zero (x y : R) : x = 0 -> y = 0 -> (Fin x / Fin y)%js = NaN.
Proof.
  intros Hx Hy. simpl.
  destruct (Req_dec_T y 0); [|contradiction].
  destruct (Req_dec_T x 0); [reflexivity|contradiction].
Qed.

Lemma add_NaN_r (a : Number) : (a + NaN)%js = NaN.
Proof. now destruct a. Qed.

Lemma mul_NaN_r (a : Number) : (a * NaN)%js = NaN.
Proof. now destruct a. Qed.

Lemma div_NaN_r (a : Number) : (a / NaN)%js = NaN.
Proof. now destruct a. Qed.

Lemma mul_NaN_l (a : Number) : (NaN * a)%js = NaN.
Proof. now destruct a. Qed.

Lemma add_NaN_l (a : Number) : (NaN + a)%js = NaN.
Proof. now destruct a. Qed.

Lemma sub_NaN_r (a : Number) : (a - NaN)%js = NaN.
Proof. apply add_NaN_r. Qed.

Lemma sub_NaN_l (a : Number) : (NaN - a)%js = NaN.
Proof. apply add_NaN_l. Qed.

Lemma gtb_Fin_true (x y : R) : y < x -> (Fin x >? Fin y)%js = true.
Proof. intros H. simpl. destruct (Rlt_dec y x); [reflexivity|contradiction]. Qed.

Lemma gtb_Fin_false (x y : R) : x <= y -> (Fin x >? Fin y)%js = false.
Proof. intros H. simpl. destruct (Rlt_dec y x); [lra|reflexivity]. Qed.

End NumberFacts.

(** * Reasoning about methods *)

Section MethodLogic.

Import JS Body BodySpec.

Lemma hoare_ret {A : Type} (a : A) (Q : A -> store -> Prop) (E : store -> Prop) :
  hoare (Q a) (ret a) Q E.
Proof. intros s H. exact H. Qed.

Lemma hoare_bind {A B : Type} (P : store -> Prop) (m : M A) (k : A -> M B)
    (R : A -> store -> Prop) (Q : B -> store -> Prop) (E : store -> Prop) :
  hoare P m R E -> (forall a, hoare (R a) (k a) Q E) -> hoare P (bind m k) Q E.
Proof.
  intros Hm Hk s Hs. unfold bind. specialize (Hm s Hs).
  destruct (m s) as [s1 [a|e]]; [|exact Hm].
  exact (Hk a s1 Hm).
Qed.

Lemma bind_run {A B : Type} (m : M A) (k : A -> M B) (s s1 : store) (a : A) :
  m s = (s1, Normal a) -> bind m k s = k a s1.
Proof. intros H. unfold bind. now rewrite H. Qed.

Lemma bind_throw {A B : Type} (m : M A) (k : A -> M B) (s s1 : store)
    (e : Error) :
  m s = (s1, Throw e) -> bind m k s = (s1, Throw e).
Proof. intros H. unfold bind. now rewrite H. Qed.

Lemma spine_at_run (i : nat) (s : store) (v : Vector2.t) :
  array_get (spine (this s)) i = Some v -> spine_at i s = (s, Normal v).
Proof. intros H. unfold spine_at, bind, get_this. now rewrite H. Qed.

Lemma spine_at_throw (i : nat) (s : store) :
  array_get (spine (this s)) i = None -> spine_at i s = (s, Throw TypeError).
Proof. intros H. unfold spine_at, bind, get_this. now rewrite H. Qed.

Lemma spinePrevious_at_run (i : nat) (s : store) (v : Vector2.t) :
  array_get (spinePrevious (this s)) i = Some v ->
  spinePrevious_at i s = (s, Normal v).
Proof. intros H. unfold spinePrevious_at, bind, get_this. now rewrite H. Qed.

Lemma spine_put_run (i : nat) (v : Vector2.t) (s : store) :
  spine_put i v s =
    ({| this := with_spine (this s) (replace_at i v (spine (this s)));
        renderer := renderer s; divisions := divisions s |}, Normal tt).
Proof. reflexivity. Qed.

Lemma hoare_weaken {A : Type} (P P' : store -> Prop) (m : M A)
    (Q Q' : A -> store -> Prop) (E E' : store -> Prop) :
  hoare P' m Q' E' ->
  (forall s, P s -> P' s) -> (forall a s, Q' a s -> Q a s) ->
  (forall s, E' s -> E s) ->
  hoare P m Q E.
Proof.
  intros Hm HP HQ HE s Hs. specialize (Hm s (HP s Hs)).
  destruct (m s) as [s1 [a|e]]; auto.
Qed.

(** A loop over consecutive segments with an invariant that knows the
    segment the next iteration is for. *)
Lemma hoare_for_each {A : Type} (Inv : nat -> A -> store -> Prop)
    (body : nat -> A -> M A) (E : store -> Prop) :
  forall (n first : nat),
    (forall j l, (first <= j < first + n)%nat ->
       hoare (Inv j l) (body j l) (Inv (S j)) E) ->
    forall l, hoare (Inv first l) (for_each (seq first n) body l)
                (Inv (first + n)%nat) E.
Proof.
  induction n as [|n IH]; intros first Hbody l.
  - rewrite Nat.add_0_r. apply hoare_ret.
  - cbn [seq for_each]. eapply hoare_bind.
    + apply Hbody. lia.
    + intros l'. replace (first + S n)%nat with (S first + n)%nat by lia.
      apply IH. intros j l0 Hj. apply Hbody. lia.
Qed.

(** The same with an invariant that holds whenever control is in the
    loop, and is the throw condition as well. *)
Lemma hoare_for_each_const {A : Type} (I : store -> Prop)
    (body : nat -> A -> M A) (segments : list nat) :
  (forall j l, In j segments -> hoare I (body j l) (fun _ => I) I) ->
  forall l, hoare I (for_each segments body l) (fun _ => I) I.
Proof.
  induction segments as [|j segments IH]; intros Hbody l.
  - intros s H. exact H.
  - cbn [for_each]. eapply hoare_bind.
    + apply Hbody. now left.
    + intros l'. apply IH. intros j' l0 Hj'. apply Hbody. now right.
Qed.

Lemma framed_ret {A : Type} (a : A) : framed (ret a).
Proof. intros r d s. reflexivity. Qed.

Lemma framed_throw {A : Type} (e : Error) : framed (@throw A e).
Proof. intros r d s. reflexivity. Qed.

Lemma framed_bind {A B : Type} (m : M A) (k : A -> M B) :
  framed m -> (forall a, framed (k a)) -> framed (bind m k).
Proof.
  intros Hm Hk r d s. unfold bind. rewrite Hm.
  destruct (m s) as [s1 [a|e]]; cbn [fst snd].
  - apply Hk.
  - reflexivity.
Qed.

Lemma framed_get_this : framed get_this.
Proof. intros r d s. reflexivity. Qed.

Lemma framed_set_this (b : Body.t) : framed (set_this b).
Proof. intros r d s. reflexivity. Qed.

Lemma framed_emit (c : command) : framed (emit c).
Proof.
  intros r d s. unfold emit, prepend. cbn. now rewrite app_assoc.
Qed.

Lemma framed_divided_by (x : Number) : framed (divided_by x).
Proof.
  intros r d s. unfold divided_by, prepend. cbn. now rewrite app_assoc.
Qed.

Lemma framed_for_each {A : Type} (body : nat -> A -> M A) (segments : list nat) :
  (forall j l, framed (body j l)) -> forall l, framed (for_each segments body l).
Proof.
  intros Hbody. induction segments as [|j segments IH]; intros l; cbn [for_each].
  - apply framed_ret.
  - apply framed_bind; [apply Hbody | exact IH].
Qed.

Lemma framed_spine_at (i : nat) : framed (spine_at i).
Proof.
  apply framed_bind; [apply framed_get_this|]. intros b.
  destruct (array_get (spine b) i); [apply framed_ret | apply framed_throw].
Qed.

Lemma framed_spinePrevious_at (i : nat) : framed (spinePrevious_at i).
Proof.
  apply framed_bind; [apply framed_get_this|]. intros b.
  destruct (array_get (spinePrevious b) i); [apply framed_ret | apply framed_throw].
Qed.

Lemma framed_segments_from (first : nat) : framed (segments_from first).
Proof.
  apply framed_bind; [apply framed_get_this|]. intros b. apply framed_ret.
Qed.

Ltac framed_step :=
  lazymatch goal with
  | |- framed (bind _ _) => apply framed_bind
  | |- framed (spinePrevious_at _) => apply framed_spinePrevious_at
  | |- framed (spine_at _) => apply framed_spine_at
  | |- framed get_this => apply framed_get_this
  | |- framed (set_this _) => apply framed_set_this
  | |- framed (segments_from _) => apply framed_segments_from
  | |- framed (emit _) => apply framed_emit
  | |- framed (divided_by _) => apply framed_divided_by
  | |- framed (ret _) => apply framed_ret
  | |- framed (throw _) => apply framed_throw
  | |- forall _, _ => intro
  | |- _ => progress cbv beta iota zeta
  end.

Lemma framed_render_segment (time : Number) (segment : nat)
    (locals : Number * Number * Number * Number) :
  framed (render_segment time segment locals).
Proof.
  destruct locals as [[[xStart yStart] dxStart] dyStart]. unfold render_segment.
  repeat framed_step.
Qed.

Lemma framed_render (time : Number) : framed (render time).
Proof.
  unfold render.
  repeat first [ apply framed_for_each; intros; apply framed_render_segment
               | framed_step ].
Qed.

End MethodLogic.

(** * Arrays of objects *)

Section ArrayFacts.

Import JS Body.
Context {A : Type}.

Lemma length_replace_at (v : A) : forall (l : list (option A)) (i : nat),
  length (replace_at i v l) = length l.
Proof.
  induction l as [|h l IH]; intros [|i]; simpl; auto.
Qed.

Lemma length_array_set (v : A) : forall (l : list (option A)) (i : nat),
  (i < length l)%nat -> length (array_set i v l) = length l.
Proof.
  induction l as [|h l IH]; intros [|i] H; simpl in *; try lia.
  rewrite IH; lia.
Qed.

Lemma array_get_length (l : list (option A)) (i : nat) (v : A) :
  array_get l i = Some v -> (i < length l)%nat.
Proof.
  unfold array_get. intros H. apply nth_error_Some.
  destruct (nth_error l i); [discriminate|discriminate H].
Qed.

Lemma array_get_replace_at_eq (v : A) : forall (l : list (option A)) (i : nat),
  (i < length l)%nat -> array_get (replace_at i v l) i = Some v.
Proof.
  unfold array_get.
  induction l as [|h l IH]; intros [|i] H; simpl in *; try lia; auto.
  apply IH. lia.
Qed.

Lemma array_get_replace_at_neq (v : A) : forall (l : list (option A)) (i j : nat),
  i <> j -> array_get (replace_at i v l) j = array_get l j.
Proof.
  unfold array_get.
  induction l as [|h l IH]; intros [|i] [|j] H; simpl; auto; try contradiction.
Qed.

Lemma array_get_map_Some (l : list A) (i : nat) :
  array_get (map Some l) i = nth_error l i.
Proof.
  unfold array_get. rewrite nth_error_map. now destruct (nth_error l i).
Qed.

End ArrayFacts.

(** * The shape of a body: what no method changes *)

Section Shape.

Import JS Body BodySpec.

Lemma keeps_bind {A B : Type} (I : store -> Prop) (m : M A) (k : A -> M B) :
  keeps I m -> (forall a, keeps I (k a)) -> keeps I (bind m k).
Proof. intros Hm Hk. eapply hoare_bind; [exact Hm | exact Hk]. Qed.

Lemma keeps_ret {A : Type} (I : store -> Prop) (a : A) : keeps I (ret a).
Proof. intros s H. exact H. Qed.

Lemma keeps_throw {A : Type} (I : store -> Prop) (e : Error) :
  keeps I (@throw A e).
Proof. intros s H. exact H. Qed.

Lemma keeps_get_this (I : store -> Prop) : keeps I get_this.
Proof. intros s H. exact H. Qed.

Lemma keeps_spine_at (I : store -> Prop) (i : nat) : keeps I (spine_at i).
Proof.
  apply keeps_bind; [apply keeps_get_this|]. intros b.
  destruct (array_get (spine b) i); [apply keeps_ret | apply keeps_throw].
Qed.

Lemma keeps_spinePrevious_at (I : store -> Prop) (i : nat) :
  keeps I (spinePrevious_at i).
Proof.
  apply keeps_bind; [apply keeps_get_this|]. intros b.
  destruct (array_get (spinePrevious b) i); [apply keeps_ret | apply keeps_throw].
Qed.

Lemma keeps_segments_from (I : store -> Prop) (first : nat) :
  keeps I (segments_from first).
Proof.
  apply keeps_bind; [apply keeps_get_this|]. intros b. apply keeps_ret.
Qed.

Lemma keeps_for_each {A : Type} (I : store -> Prop) (body : nat -> A -> M A)
    (segments : list nat) (l : A) :
  (forall j l', In j segments -> keeps I (body j l')) ->
  keeps I (for_each segments body l).
Proof. intros H. now apply hoare_for_each_const. Qed.

(** The loops run over the segments below the spine's length. *)
Lemma segments_from_shape (n : nat) (sp : Number) (first : nat) :
  hoare (shape n sp) (segments_from first)
    (fun segments s => shape n sp s /\ segments = seq first (n - first))
    (shape n sp).
Proof.
  intros s H. cbn. split; [exact H|]. destruct H as [-> _]. reflexivity.
Qed.

Lemma shape_spine_put (n : nat) (sp : Number) (i : nat) (v : Vector2.t) :
  keeps (shape n sp) (spine_put i v).
Proof.
  intros s (H1 & H2 & H3). cbn. unfold shape. cbn.
  now rewrite length_replace_at.
Qed.

Lemma shape_spinePrevious_put (n : nat) (sp : Number) (i : nat) (v : Vector2.t) :
  keeps (shape n sp) (spinePrevious_put i v).
Proof.
  intros s (H1 & H2 & H3). cbn. unfold shape. cbn.
  now rewrite length_replace_at.
Qed.

Lemma shape_spine_assign (n : nat) (sp : Number) (i : nat) (v : Vector2.t) :
  (i < n)%nat -> keeps (shape n sp) (spine_assign i v).
Proof.
  intros Hi s (H1 & H2 & H3). cbn. unfold shape. cbn.
  rewrite length_array_set by lia. auto.
Qed.

Lemma shape_spinePrevious_assign (n : nat) (sp : Number) (i : nat)
    (v : Vector2.t) :
  (i < n)%nat -> keeps (shape n sp) (spinePrevious_assign i v).
Proof.
  intros Hi s (H1 & H2 & H3). cbn. unfold shape. cbn.
  rewrite length_array_set by lia. auto.
Qed.

Lemma shape_divided_by (n : nat) (sp : Number) (d : Number) :
  keeps (shape n sp) (divided_by d).
Proof. intros s H. exact H. Qed.

Lemma shape_emit (n : nat) (sp : Number) (c : command) :
  keeps (shape n sp) (emit c).
Proof. intros s H. exact H. Qed.

Ltac keeps_step :=
  lazymatch goal with
  | |- keeps _ (bind _ _) => apply keeps_bind
  | |- keeps _ (spinePrevious_at _) => apply keeps_spinePrevious_at
  | |- keeps _ (spine_at _) => apply keeps_spine_at
  | |- keeps _ get_this => apply keeps_get_this
  | |- keeps _ (segments_from _) => apply keeps_segments_from
  | |- keeps _ (spine_put _ _) => apply shape_spine_put
  | |- keeps _ (spinePrevious_put _ _) => apply shape_spinePrevious_put
  | |- keeps _ (divided_by _) => apply shape_divided_by
  | |- keeps _ (emit _) => apply shape_emit
  | |- keeps _ (ret _) => apply keeps_ret
  | |- keeps _ (throw _) => apply keeps_throw
  | |- forall _, _ => intro
  | |- _ => progress cbv beta iota zeta
  end.

Lemma shape_storePreviousState (n : nat) (sp : Number) :
  keeps (shape n sp) storePreviousState.
Proof.
  unfold storePreviousState.
  apply keeps_bind; [apply keeps_segments_from|]. intros segments.
  apply keeps_for_each. intros j l _. repeat keeps_step.
Qed.

Lemma shape_relax (n : nat) (sp : Number) (segment : nat)
    (dir : Number * Number) :
  keeps (shape n sp) (relax segment dir).
Proof. unfold relax. repeat keeps_step. Qed.

Lemma shape_update (n : nat) (sp : Number) (head : Vector2.t)
    (direction_angle speed : Number) :
  keeps (shape n sp) (update head direction_angle speed).
Proof.
  unfold update.
  apply keeps_bind; [apply shape_storePreviousState|]. intros _.
  apply keeps_bind; [apply keeps_spine_at|]. intros _.
  apply keeps_bind; [apply shape_spine_put|]. intros _.
  apply keeps_bind; [apply keeps_get_this|]. intros b.
  apply keeps_bind; [apply keeps_segments_from|]. intros segments.
  apply keeps_bind.
  { apply keeps_for_each. intros j l _. apply shape_relax. }
  intros _. intros s H. exact H.
Qed.

Lemma shape_render_segment (n : nat) (sp : Number) (time : Number)
    (segment : nat) (locals : Number * Number * Number * Number) :
  keeps (shape n sp) (render_segment time segment locals).
Proof.
  destruct locals as [[[xStart yStart] dxStart] dyStart]. unfold render_segment.
  repeat keeps_step.
Qed.

Lemma shape_render (n : nat) (sp : Number) (time : Number) :
  keeps (shape n sp) (render time).
Proof.
  unfold render.
  repeat first [ apply keeps_for_each; intros; apply shape_render_segment
               | keeps_step ].
Qed.

Lemma shape_initializeSpine (n : nat) (sp : Number) (head direction : Vector2.t) :
  (1 <= n)%nat -> keeps (shape n sp) (initializeSpine head direction).
Proof.
  intros Hn. unfold initializeSpine.
  apply keeps_bind; [apply shape_spine_assign; lia|]. intros _.
  apply keeps_bind; [apply shape_spinePrevious_assign; lia|]. intros _.
  eapply hoare_bind; [apply segments_from_shape|].
  intros segments. cbv beta.
  intros s [Hs ->]. revert s Hs.
  apply keeps_for_each. intros j l Hj. apply in_seq in Hj.
  apply keeps_bind; [apply keeps_spine_at|]. intros previous.
  apply keeps_bind; [apply keeps_get_this|]. intros b. cbv zeta.
  apply keeps_bind; [apply shape_spine_assign; lia|]. intros _.
  apply shape_spinePrevious_assign. lia.
Qed.

End Shape.

(** * Rendering reads the body and only appends to the renderer *)

Section RenderPure.

Import JS Body BodySpec.

Lemma untouched_emit (b : Body.t) (d : list Number) (c : command) :
  keeps (untouched b d) (emit c).
Proof. intros s H. exact H. Qed.

Ltac untouched_step :=
  lazymatch goal with
  | |- keeps _ (bind _ _) => apply keeps_bind
  | |- keeps _ (spinePrevious_at _) => apply keeps_spinePrevious_at
  | |- keeps _ (spine_at _) => apply keeps_spine_at
  | |- keeps _ get_this => apply keeps_get_this
  | |- keeps _ (segments_from _) => apply keeps_segments_from
  | |- keeps _ (emit _) => apply untouched_emit
  | |- keeps _ (ret _) => apply keeps_ret
  | |- forall _, _ => intro
  | |- _ => progress cbv beta iota zeta
  end.

Lemma untouched_render_segment (b : Body.t) (d : list Number) (time : Number)
    (segment : nat) (locals : Number * Number * Number * Number) :
  keeps (untouched b d) (render_segment time segment locals).
Proof.
  destruct locals as [[[xStart yStart] dxStart] dyStart]. unfold render_segment.
  repeat untouched_step.
Qed.

Lemma untouched_render (b : Body.t) (d : list Number) (time : Number) :
  keeps (untouched b d) (render time).
Proof.
  unfold render.
  repeat first [ apply keeps_for_each; intros; apply untouched_render_segment
               | untouched_step ].
Qed.

Lemma keeps_fst {A : Type} (I : store -> Prop) (m : M A) (s : store) :
  keeps I m -> I s -> I (fst (m s)).
Proof.
  intros Hm Hs. specialize (Hm s Hs). now destruct (m s) as [s' [a|e]].
Qed.

Lemma store_prepend (s : store) :
  s = prepend (renderer s) (divisions s) (on_body (this s)).
Proof.
  destruct s as [b r d]. unfold prepend, on_body. cbn. now rewrite !app_nil_r.
Qed.

(** A [render] call seen from the store it runs in: the commands and the
    completion are those of the call on the body alone. *)
Lemma render_on_body (s : store) (time : Number) :
  this (fst (render time s)) = this s /\
  divisions (fst (render time s)) = divisions s /\
  renderer (fst (render time s)) = renderer s ++ render_output (this s) time /\
  snd (render time s) = snd (render time (on_body (this s))).
Proof.
  destruct (keeps_fst _ _ s (untouched_render (this s) (divisions s) time))
    as [Hthis Hdiv]; [split; reflexivity|].
  split; [exact Hthis|]. split; [exact Hdiv|].
  pose proof (framed_render time (renderer s) (divisions s) (on_body (this s)))
    as H.
  rewrite <- store_prepend in H. rewrite H.
  cbn [fst snd prepend renderer]. split; reflexivity.
Qed.

(** C8: [render] changes nothing of the body (spine, previous spine, phase
    and the arrays made at construction are all part of [this]), and a second
    call with the same [time] before the next tick sends the renderer the
    same commands with the same arguments. *)
Theorem render_is_pure (s : store) (time : Number) :
  let s1 := fst (render time s) in
  let s2 := fst (render time s1) in
  this s1 = this s /\
  this s2 = this s /\
  renderer s1 = renderer s ++ render_output (this s) time /\
  renderer s2 = renderer s1 ++ render_output (this s) time /\
  snd (render time s1) = snd (render time s).
Proof.
  cbv zeta.
  destruct (render_on_body s time) as (Hthis & _ & Hout & Hc).
  destruct (render_on_body (fst (render time s)) time) as (Hthis' & _ & Hout' & Hc').
  rewrite Hthis in Hthis', Hout', Hc'.
  repeat split; try assumption. now rewrite Hc', Hc.
Qed.

End RenderPure.

(** * Fields a method leaves alone, and calls that return *)

Section Fields.

Import JS Body BodySpec.

Context {X : Type} (f : Body.t -> X) (x : X).

Lemma fixed_spine_put (i : nat) (v : Vector2.t) :
  (forall b, f (with_spine b (replace_at i v (spine b))) = f b) ->
  keeps (fixed f x) (spine_put i v).
Proof. intros Hf s H. cbn. unfold fixed in *. cbn. now rewrite Hf. Qed.

Lemma fixed_spinePrevious_put (i : nat) (v : Vector2.t) :
  (forall b l, f (with_spinePrevious b l) = f b) ->
  keeps (fixed f x) (spinePrevious_put i v).
Proof. intros Hf s H. cbn. unfold fixed in *. cbn. now rewrite Hf. Qed.

Lemma fixed_divided_by (d : Number) : keeps (fixed f x) (divided_by d).
Proof. intros s H. exact H. Qed.

Lemma fixed_storePreviousState :
  (forall b l, f (with_spinePrevious b l) = f b) ->
  keeps (fixed f x) storePreviousState.
Proof.
  intros Hf. unfold storePreviousState.
  apply keeps_bind; [apply keeps_segments_from|]. intros segments.
  apply keeps_for_each. intros j l _.
  apply keeps_bind; [apply keeps_spinePrevious_at|]. intros _.
  apply keeps_bind; [apply keeps_spine_at|]. intros current.
  now apply fixed_spinePrevious_put.
Qed.

Lemma fixed_relax (segment : nat) (dir : Number * Number) :
  (forall b v, f (with_spine b (replace_at segment v (spine b))) = f b) ->
  keeps (fixed f x) (relax segment dir).
Proof.
  intros Hf. unfold relax.
  apply keeps_bind; [apply keeps_spine_at|]. intros current.
  apply keeps_bind; [apply keeps_spine_at|]. intros previous.
  apply keeps_bind; [apply keeps_get_this|]. intros b. cbv zeta.
  apply keeps_bind; [apply fixed_divided_by|]. intros _.
  apply keeps_bind; [apply fixed_divided_by|]. intros _.
  apply keeps_bind; [apply fixed_spine_put; intros; apply Hf|]. intros _.
  apply keeps_ret.
Qed.

End Fields.

Section Returns.

Import JS Body BodySpec.

Lemma returns_bind {A B : Type} (I : store -> Prop) (m : M A) (k : A -> M B) :
  returns I m -> (forall a, returns I (k a)) -> returns I (bind m k).
Proof. intros Hm Hk. eapply hoare_bind; [exact Hm | exact Hk]. Qed.

Lemma returns_ret {A : Type} (I : store -> Prop) (a : A) : returns I (ret a).
Proof. intros s H. exact H. Qed.

Lemma returns_get_this (I : store -> Prop) : returns I get_this.
Proof. intros s H. exact H. Qed.

Lemma returns_for_each {A : Type} (I : store -> Prop) (body : nat -> A -> M A)
    (first n : nat) (l : A) :
  (forall j l', (first <= j < first + n)%nat -> returns I (body j l')) ->
  returns I (for_each (seq first n) body l).
Proof.
  intros H. apply (hoare_for_each (fun _ _ => I) body (fun _ => False)).
  exact H.
Qed.

Lemma full_spine_at (n i : nat) : (i < n)%nat -> returns (full n) (spine_at i).
Proof.
  intros Hi s H. pose proof H as (_ & _ & Hs & _).
  destruct (Hs i Hi) as [v Hv]. unfold spine_at, bind, get_this.
  rewrite Hv. exact H.
Qed.

Lemma full_spinePrevious_at (n i : nat) :
  (i < n)%nat -> returns (full n) (spinePrevious_at i).
Proof.
  intros Hi s H. pose proof H as (_ & _ & _ & Hs).
  destruct (Hs i Hi) as [v Hv]. unfold spinePrevious_at, bind, get_this.
  rewrite Hv. exact H.
Qed.

Lemma array_get_replace_at_full (l : list (option Vector2.t)) (i : nat)
    (v : Vector2.t) (j : nat) :
  (exists w, array_get l j = Some w) ->
  exists w, array_get (replace_at i v l) j = Some w.
Proof.
  intros [w Hw]. destruct (Nat.eq_dec i j) as [->|Hne].
  - exists v. apply array_get_replace_at_eq. eapply array_get_length, Hw.
  - exists w. now rewrite array_get_replace_at_neq.
Qed.

Lemma full_spine_put (n i : nat) (v : Vector2.t) :
  returns (full n) (spine_put i v).
Proof.
  intros s (H1 & H2 & H3 & H4). cbn. unfold full. cbn.
  rewrite length_replace_at. repeat split; auto.
  intros j Hj. apply array_get_replace_at_full. auto.
Qed.

Lemma full_spinePrevious_put (n i : nat) (v : Vector2.t) :
  returns (full n) (spinePrevious_put i v).
Proof.
  intros s (H1 & H2 & H3 & H4). cbn. unfold full. cbn.
  rewrite length_replace_at. repeat split; auto.
  intros j Hj. apply array_get_replace_at_full. auto.
Qed.

Lemma full_segments_from (n first : nat) :
  hoare (full n) (segments_from first)
    (fun segments s => full n s /\ segments = seq first (n - first))
    (fun _ => False).
Proof.
  intros s H. cbn. split; [exact H|]. destruct H as [-> _]. reflexivity.
Qed.

Lemma full_storePreviousState (n : nat) : returns (full n) storePreviousState.
Proof.
  unfold storePreviousState.
  eapply hoare_bind; [apply full_segments_from|].
  intros segments s [Hs ->]. revert s Hs.
  apply returns_for_each. intros j l Hj.
  apply returns_bind; [apply full_spinePrevious_at; lia|]. intros _.
  apply returns_bind; [apply full_spine_at; lia|]. intros current.
  apply full_spinePrevious_put.
Qed.

Lemma full_relax (n segment : nat) (dir : Number * Number) :
  (1 <= segment < n)%nat -> returns (full n) (relax segment dir).
Proof.
  intros Hseg. unfold relax.
  apply returns_bind; [apply full_spine_at; lia|]. intros current.
  apply returns_bind; [apply full_spine_at; lia|]. intros previous.
  apply returns_bind; [apply returns_get_this|]. intros b. cbv zeta.
  apply returns_bind; [intros s H; exact H|]. intros _.
  apply returns_bind; [intros s H; exact H|]. intros _.
  apply returns_bind; [apply full_spine_put|]. intros _.
  apply returns_ret.
Qed.

Lemma full_update (n : nat) (head : Vector2.t) (direction_angle speed : Number) :
  (1 <= n)%nat -> returns (full n) (update head direction_angle speed).
Proof.
  intros Hn. unfold update.
  apply returns_bind; [apply full_storePreviousState|]. intros _.
  apply returns_bind; [apply full_spine_at; lia|]. intros _.
  apply returns_bind; [apply full_spine_put|]. intros _.
  apply returns_bind; [apply returns_get_this|]. intros b. cbv zeta.
  eapply hoare_bind; [apply full_segments_from|].
  intros segments s [Hs ->]. revert s Hs.
  apply returns_bind.
  { apply returns_for_each. intros j l Hj. apply full_relax. lia. }
  intros _ s H. exact H.
Qed.

Lemma initialised_full (b : Body.t) (previous current : list Vector2.t)
    (r : list command) (d : list Number) :
  initialised b previous current ->
  full (length current) {| this := b; renderer := r; divisions := d |}.
Proof.
  intros (Hs & Hp & Hlen). unfold full. cbn. rewrite Hs, Hp, !length_map.
  repeat split; auto.
  - intros i Hi. rewrite array_get_map_Some.
    destruct (nth_error current i) eqn:E; [eauto|].
    apply nth_error_None in E. lia.
  - intros i Hi. rewrite array_get_map_Some.
    destruct (nth_error previous i) eqn:E; [eauto|].
    apply nth_error_None in E. lia.
Qed.

(** [update] returns on every body whose spines hold objects. *)
Lemma update_returns (b : Body.t) (previous current : list Vector2.t)
    (head : Vector2.t) (direction_angle speed : Number) :
  initialised b previous current -> current <> [] ->
  exists s', update head direction_angle speed (on_body b) = (s', Normal tt).
Proof.
  intros Hinit Hne.
  pose proof (full_update (length current) head direction_angle speed) as H.
  specialize (H ltac:(destruct current; [contradiction|simpl; lia]) (on_body b)
                (initialised_full b previous current [] [] Hinit)).
  destruct (update head direction_angle speed (on_body b)) as [s' [[]|e]];
    [eauto|contradiction].
Qed.

End Returns.

Section Phase.

Import JS Body BodySpec.
Local Open Scope R_scope.

(** [update] ends by advancing the phase, whatever the spine pass did. *)
Lemma update_phase (head : Vector2.t) (direction_angle speed ph : Number) :
  hoare (fixed phase ph) (update head direction_angle speed)
    (fun _ => fixed phase (advance_phase ph speed)) (fixed phase ph).
Proof.
  unfold update.
  eapply hoare_bind; [apply fixed_storePreviousState; reflexivity|].
  intros ?; cbv beta.
  eapply hoare_bind; [apply keeps_spine_at|]. intros ?; cbv beta.
  eapply hoare_bind; [apply fixed_spine_put; reflexivity|]. intros ?; cbv beta.
  eapply hoare_bind; [apply keeps_get_this|]. intros b; cbv beta zeta.
  eapply hoare_bind; [apply keeps_segments_from|]. intros segments; cbv beta.
  eapply hoare_bind.
  { apply keeps_for_each. intros j l _. apply fixed_relax. reflexivity. }
  intros ? s H. cbn. unfold fixed in *. cbn. now rewrite H.
Qed.

Lemma fixed_phase_render (time ph : Number) :
  keeps (fixed phase ph) (render time).
Proof.
  intros s H.
  pose proof (untouched_render (this s) (divisions s) time s
                (conj eq_refl eq_refl)) as Hr.
  unfold fixed in *.
  destruct (render time s) as [s' [a|e]]; destruct Hr as [Hr _];
    now rewrite Hr.
Qed.

Lemma fixed_phase_initializeSpine (head direction : Vector2.t) (ph : Number) :
  keeps (fixed phase ph) (initializeSpine head direction).
Proof.
  unfold initializeSpine.
  assert (Ha : forall i v, keeps (fixed phase ph) (spine_assign i v))
    by (intros i v s H; exact H).
  assert (Hb : forall i v, keeps (fixed phase ph) (spinePrevious_assign i v))
    by (intros i v s H; exact H).
  apply keeps_bind; [apply Ha|]. intros _.
  apply keeps_bind; [apply Hb|]. intros _.
  apply keeps_bind; [apply keeps_segments_from|]. intros segments.
  apply keeps_for_each. intros j l _.
  apply keeps_bind; [apply keeps_spine_at|]. intros previous.
  apply keeps_bind; [apply keeps_get_this|]. intros b. cbv zeta.
  apply keeps_bind; [apply Ha | intros _; apply Hb].
Qed.

(** One step of the phase from within [[0, 2π]] by an increment within
    [[0, 2π]]. *)
Lemma advance_phase_bounds (p v : R) :
  0 <= p <= 2 * PI -> 0 <= 6.5 * v <= 2 * PI ->
  exists p', advance_phase (Fin p) (Fin v) = Fin p' /\ 0 <= p' <= 2 * PI.
Proof.
  intros Hp Hv. unfold advance_phase, SWIM_SPEED, Math_PI.
  cbn [add mul sub opp].
  destruct (Rlt_dec (PI * 2) (p + 6.5 * v)) as [Hgt|Hle].
  - rewrite gtb_Fin_true by exact Hgt. eexists. split; [reflexivity|]. lra.
  - rewrite gtb_Fin_false by lra. eexists. split; [reflexivity|]. lra.
Qed.

End Phase.

(** * Construction: segment count and spacing *)

Section Construction.

Import JS Body BodySpec.
Local Open Scope R_scope.

Lemma array_length_inv (len : Number) (n : nat) :
  array_length len = Normal n ->
  len = of_nat n /\ (Z.of_nat n <= 4294967295)%Z.
Proof.
  destruct len as [r| | |]; simpl; try discriminate.
  destruct (Req_dec_T (IZR (Zfloor r)) r) as [Hint|]; [|discriminate].
  destruct (0 <=? Zfloor r)%Z eqn:H0; [|discriminate].
  destruct (Zfloor r <=? 4294967295)%Z eqn:H1; [|discriminate].
  cbn [andb]. intros H. injection H as <-.
  apply Z.leb_le in H0, H1.
  rewrite Z2Nat.id by exact H0. split; [|exact H1].
  unfold of_nat. now rewrite INR_IZR_INZ, Z2Nat.id, Hint by exact H0.
Qed.

Lemma array_length_of_nat (n : nat) :
  (Z.of_nat n <= 4294967295)%Z -> array_length (of_nat n) = Normal n.
Proof.
  intros H. unfold array_length, of_nat.
  rewrite INR_IZR_INZ, ZfloorZ.
  destruct (Req_dec_T (IZR (Z.of_nat n)) (IZR (Z.of_nat n))); [|contradiction].
  replace (0 <=? Z.of_nat n)%Z with true by (symmetry; apply Z.leb_le; lia).
  replace (Z.of_nat n <=? 4294967295)%Z with true by (symmetry; now apply Z.leb_le).
  cbn [andb]. now rewrite Nat2Z.id.
Qed.

Lemma of_nat_minus (n k : nat) :
  (k <= n)%nat -> (of_nat n - Fin (INR k))%js = of_nat (n - k).
Proof.
  intros H. unfold of_nat. cbn. f_equal. rewrite minus_INR by exact H. lra.
Qed.

Lemma of_nat_minus_inv (n m : nat) (c : R) (k : nat) :
  c = INR k -> (of_nat n - Fin c)%js = of_nat m -> (k <= n)%nat /\ m = (n - k)%nat.
Proof.
  intros -> H. unfold of_nat in H. cbn in H. injection H as H.
  assert (Hn : INR n = INR (m + k)) by (rewrite plus_INR; lra).
  apply INR_eq in Hn. lia.
Qed.

Lemma filled_Array_inv (len : Number) (first : nat) (f : nat -> Number)
    (l : list Number) :
  filled_Array len first f = Normal l ->
  exists n, array_length len = Normal n /\ l = map f (seq first n).
Proof.
  unfold filled_Array. destruct (array_length len) as [n|e]; [|discriminate].
  intros H. injection H as <-. now exists n.
Qed.

(** What a successful construction has built. *)
Lemma new_inv (p : Pattern) (atlasPixel : Vector2.t) (length0 thickness : Number)
    (b : Body.t) :
  Body.new p atlasPixel length0 thickness = Normal b ->
  exists n : nat,
    (2 <= n)%nat /\
    of_nat n = (Math_ceil (length0 / RESOLUTION) + Fin 1)%js /\
    spine b = repeat None n /\
    spinePrevious b = repeat None n /\
    spacing b = (length0 / (of_nat n - Fin 1))%js /\
    length (radii b) = n /\
    length (springs b) = (n - 1)%nat /\
    length (u b) = n /\
    length (vRadii b) = (n - 2)%nat /\
    phase b = Fin 0.
Proof.
  unfold Body.new, bindc, new_Array.
  destruct (array_length (Math_ceil (length0 / RESOLUTION) + Fin 1)%js)
    as [n|e] eqn:En; [|discriminate].
  rewrite repeat_length.
  destruct (array_length (of_nat n)) as [n'|e] eqn:En'; [|discriminate].
  destruct (makeRadii n thickness (Fin 0.6)) as [radii0|e] eqn:Er; [|discriminate].
  destruct (makeSprings n SPRING_START SPRING_END SPRING_POWER)
    as [springs0|e] eqn:Es; [|discriminate].
  destruct (makeU n p atlasPixel) as [u0|e] eqn:Eu; [|discriminate].
  destruct (makeVRadii n p atlasPixel) as [vRadii0|e] eqn:Ev; [|discriminate].
  intros H. injection H as <-. cbn.
  apply array_length_inv in En. destruct En as [En Hmax].
  rewrite (array_length_of_nat n Hmax) in En'. injection En' as <-.
  apply filled_Array_inv in Er, Es, Eu, Ev.
  destruct Er as (nr & Hnr & ->), Es as (ns & Hns & ->),
           Eu as (nu & Hnu & ->), Ev as (nv & Hnv & ->).
  rewrite (array_length_of_nat n Hmax) in Hnr, Hnu.
  injection Hnr as <-. injection Hnu as <-.
  apply array_length_inv in Hns, Hnv.
  destruct Hns as [Hns _], Hnv as [Hnv _].
  apply (of_nat_minus_inv n ns 1 1) in Hns; [|reflexivity].
  apply (of_nat_minus_inv n nv 2 2) in Hnv; [|simpl; lra].
  destruct Hns as [_ ->], Hnv as [Hn ->].
  exists n. rewrite !length_map, !length_seq.
  repeat split; auto.
Qed.

(** A constructed body has a positive real spacing. *)
Lemma new_spacing_positive (p : Pattern) (atlasPixel : Vector2.t)
    (length0 thickness : Number) (b : Body.t) :
  Body.new p atlasPixel length0 thickness = Normal b ->
  exists sp : R, spacing b = Fin sp /\ 0 < sp.
Proof.
  intros H. apply new_inv in H.
  destruct H as (n & Hn & Hcount & _ & _ & Hsp & _).
  destruct length0 as [l| | |];
    try (unfold of_nat, RESOLUTION in Hcount; cbn in Hcount;
         try match type of Hcount with
             | context [Rlt_dec ?a ?z] => destruct (Rlt_dec a z)
             end; discriminate Hcount).
  unfold of_nat, RESOLUTION in Hcount. cbn in Hcount.
  destruct (Req_dec_T 0.14 0) as [H0|_]; [lra|].
  cbn in Hcount. injection Hcount as Hcount.
  assert (Hn1 : 1 <= INR n - 1).
  { apply le_INR in Hn. simpl in Hn. lra. }
  assert (Hl : 0 < l).
  { pose proof (Zceil_bound (l / 0.14)) as [Hlow _]. lra. }
  rewrite Hsp. unfold of_nat. cbn.
  match goal with
  | |- context [Req_dec_T ?a ?z] => destruct (Req_dec_T a z) as [H0|_]; [lra|]
  end.
  eexists. split; [reflexivity|].
  apply Rdiv_lt_0_compat; lra.
Qed.

(** The constructor returns for every positive real length (short of
    2^32 - 1 segments). *)
Lemma new_succeeds (p : Pattern) (atlasPixel : Vector2.t) (l : R)
    (thickness : Number) :
  0 < l -> l / 0.14 <= 4294967294 ->
  exists b, Body.new p atlasPixel (Fin l) thickness = Normal b.
Proof.
  intros Hl Hmax.
  pose proof (Zceil_bound (l / 0.14)) as [Hlow Hup].
  assert (Hpos : (0 < Zceil (l / 0.14))%Z).
  { apply lt_IZR. assert (0 < l / 0.14) by (apply Rdiv_lt_0_compat; lra). lra. }
  assert (Hbig : (Zceil (l / 0.14) < 4294967295)%Z).
  { apply lt_IZR. lra. }
  set (n := Z.to_nat (Zceil (l / 0.14) + 1)).
  assert (Hn : of_nat n = (Math_ceil (Fin l / RESOLUTION) + Fin 1)%js).
  { unfold of_nat, RESOLUTION, n. cbn.
    destruct (Req_dec_T 0.14 0) as [H0|_]; [lra|]. cbn.
    rewrite INR_IZR_INZ, Z2Nat.id, plus_IZR by lia. reflexivity. }
  assert (Hn2 : (2 <= n)%nat) by (unfold n; lia).
  assert (Hnmax : (Z.of_nat n <= 4294967295)%Z) by (unfold n; lia).
  unfold Body.new, bindc, new_Array.
  rewrite <- Hn, (array_length_of_nat n Hnmax), repeat_length.
  rewrite (array_length_of_nat n Hnmax).
  unfold makeRadii, makeSprings, makeU, makeVRadii, filled_Array.
  rewrite (array_length_of_nat n Hnmax).
  change (Fin 1) with (Fin (INR 1)).
  replace (Fin 2) with (Fin (INR 2)) by (simpl; f_equal; lra).
  rewrite !of_nat_minus by lia.
  rewrite !array_length_of_nat by lia.
  eexists. reflexivity.
Qed.

End Construction.

Section ChainLength.

Import JS Body BodySpec.
Local Open Scope R_scope.

Lemma run_call_shape (n : nat) (sp : Number) (c : method_call) (s : store) :
  (1 <= n)%nat -> shape n sp s -> shape n sp (run_call c s).
Proof.
  intros Hn Hs. destruct c; cbn [run_call]; apply keeps_fst; try assumption.
  - now apply shape_initializeSpine.
  - apply shape_update.
  - apply shape_render.
Qed.

Lemma run_calls_shape (n : nat) (sp : Number) (calls : list method_call) :
  (1 <= n)%nat -> forall s, shape n sp s -> shape n sp (run_calls calls s).
Proof.
  intros Hn. unfold run_calls.
  induction calls as [|c calls IH]; intros s Hs; cbn [fold_left].
  - exact Hs.
  - apply IH. now apply run_call_shape.
Qed.

(** C9: a body constructed with length [L] has
    [ceil(L / RESOLUTION) + 1] spine segments, [RESOLUTION] being .14, the
    spacing [L / (N - 1)] and a previous spine of the same length; whatever
    calls of [initializeSpine], [update] and [render] follow, in any order,
    the two lengths and the spacing stay what they were. *)
Theorem chain_length_invariance (p : Pattern) (atlasPixel : Vector2.t)
    (L thickness : Number) (b : Body.t) :
  Body.new p atlasPixel L thickness = Normal b ->
  RESOLUTION = Fin 0.14 /\
  of_nat (length (spine b)) = (Math_ceil (L / RESOLUTION) + Fin 1)%js /\
  spacing b = (L / (of_nat (length (spine b)) - Fin 1))%js /\
  length (spinePrevious b) = length (spine b) /\
  forall (calls : list method_call) (r : list command) (d : list Number),
    let s' := run_calls calls {| this := b; renderer := r; divisions := d |} in
    length (spine (this s')) = length (spine b) /\
    length (spinePrevious (this s')) = length (spine b) /\
    spacing (this s') = spacing b.
Proof.
  intros H. apply new_inv in H.
  destruct H as (n & Hn & Hcount & Hspine & Hprev & Hsp & _).
  assert (Hlen : length (spine b) = n) by (rewrite Hspine; apply repeat_length).
  assert (Hlen' : length (spinePrevious b) = n)
    by (rewrite Hprev; apply repeat_length).
  rewrite Hlen. repeat split; try assumption.
  all: apply (run_calls_shape n (spacing b) calls); [lia|];
    repeat split; assumption.
Qed.

End ChainLength.

(** A body of length 1 has 9 segments, 1/8 apart, and keeps them through an
    initialisation, two ticks and a frame. *)
Lemma chain_length_invariance_witness :
  exists b,
    Body.new corner_pattern corner_pixel (JS.Fin 1) (JS.Fin 0.3) = JS.Normal b /\
    length (Body.spine b) = 9%nat /\
    Body.spacing b = JS.Fin (1 / 8) /\
    let head := {| Vector2.x := JS.Fin 0; Vector2.y := JS.Fin 0 |} in
    let direction := {| Vector2.x := JS.Fin 1; Vector2.y := JS.Fin 0 |} in
    let s' := BodySpec.run_calls
                [BodySpec.call_initializeSpine head direction;
                 BodySpec.call_update head (JS.Fin 0) (JS.Fin 0.05);
                 BodySpec.call_render (JS.Fin 0.5);
                 BodySpec.call_update head (JS.Fin 0) (JS.Fin 0.05)]
                (BodySpec.on_body b) in
    length (Body.spine (Body.this s')) = 9%nat /\
    length (Body.spinePrevious (Body.this s')) = 9%nat /\
    Body.spacing (Body.this s') = JS.Fin (1 / 8).
Proof.
  destruct (new_succeeds corner_pattern corner_pixel 1 (JS.Fin 0.3))
    as [b Hb]; [lra | lra |].
  exists b. split; [exact Hb|].
  destruct (chain_length_invariance _ _ _ _ _ Hb)
    as (_ & Hcount & Hsp & _ & Hcalls).
  assert (Hceil : Zceil (1 / 0.14) = 8%Z) by (apply Zceil_eq; lra).
  assert (Hlen : length (Body.spine b) = 9%nat).
  { unfold JS.of_nat, Body.RESOLUTION in Hcount. cbn in Hcount.
    destruct (Req_dec_T 0.14 0) as [H0|_]; [lra|].
    cbn in Hcount. injection Hcount as Hcount. rewrite Hceil in Hcount.
    apply INR_eq. rewrite Hcount. simpl. lra. }
  assert (Hspacing : Body.spacing b = JS.Fin (1 / 8)).
  { rewrite Hsp, Hlen. unfold JS.of_nat. cbn.
    match goal with
    | |- context [Req_dec_T ?a ?z] => destruct (Req_dec_T a z) as [H0|_]; [lra|]
    end.
    match goal with
    | |- JS.Fin (1 / ?a) = _ => replace a with 8%R by lra
    end.
    reflexivity. }
  split; [exact Hlen|]. split; [exact Hspacing|].
  cbv zeta. rewrite <- Hlen at 1 2. rewrite <- Hspacing. apply Hcalls.
Defined.

(** * The phase *)

Section PhaseWrap.

Import JS Body BodySpec.
Local Open Scope R_scope.

Lemma small_body_initialised : initialised small_body small_spine small_spine.
Proof. repeat split. Qed.

Lemma run_call_phase_wrapped (c : method_call) (s : store) :
  gentle c -> phase_wrapped s -> phase_wrapped (run_call c s).
Proof.
  intros Hc (p & Hp & Hrange). destruct c as [head direction|head da speed|time];
    cbn [run_call].
  - exists p. split; [|exact Hrange].
    exact (keeps_fst _ _ s (fixed_phase_initializeSpine head direction (Fin p)) Hp).
  - destruct Hc as (v & -> & Hv).
    pose proof (update_phase head da (Fin v) (Fin p) s Hp) as H.
    destruct (update head da (Fin v) s) as [s' [a|e]]; cbn [fst].
    + destruct (advance_phase_bounds p v Hrange Hv) as (p' & Hp' & Hrange').
      exists p'. split; [|exact Hrange']. unfold fixed in H. now rewrite H.
    + exists p. split; [exact H|exact Hrange].
  - exists p. split; [|exact Hrange].
    exact (keeps_fst _ _ s (fixed_phase_render time (Fin p)) Hp).
Qed.

(** C4, amended: an [update] that returns has added [SWIM_SPEED * speed] to
    the phase and then subtracted 2π once if the sum exceeded 2π; through any
    sequence of calls whose updates have [0 <= SWIM_SPEED * speed <= 2π], a
    phase in [[0, 2π]] stays in [[0, 2π]] after each call. *)
Theorem phase_wrap :
  (forall head direction_angle speed s s',
     update head direction_angle speed s = (s', Normal tt) ->
     phase (this s') =
       (if (phase (this s) + SWIM_SPEED * speed >? Math_PI * Fin 2)%js
        then (phase (this s) + SWIM_SPEED * speed - Math_PI * Fin 2)%js
        else (phase (this s) + SWIM_SPEED * speed)%js)) /\
  (forall (calls : list method_call) (s : store),
     Forall gentle calls -> phase_wrapped s ->
     forall k, phase_wrapped (run_calls (firstn k calls) s)).
Proof.
  split.
  - intros head da speed s s' Hrun.
    pose proof (update_phase head da speed (phase (this s)) s eq_refl) as H.
    rewrite Hrun in H. exact H.
  - intros calls. unfold run_calls.
    induction calls as [|c calls IH]; intros s Hcalls Hs k.
    + rewrite firstn_nil. exact Hs.
    + destruct k as [|k]; [exact Hs|]. cbn [firstn fold_left].
      inversion Hcalls as [|? ? Hc Hcalls']; subst.
      apply IH; [exact Hcalls'|]. now apply run_call_phase_wrapped.
Qed.

End PhaseWrap.

(** On the small body, at rest with phase 0, three gentle ticks and a frame
    keep the phase in [[0, 2π]]. *)
Lemma phase_wrap_witness :
  phase_wrapped
    (BodySpec.run_calls
       (firstn 4
          [BodySpec.call_update (vec 0 0) (JS.Fin 0) (JS.Fin 0.5);
           BodySpec.call_update (vec 0 0) (JS.Fin 0) (JS.Fin 0.5);
           BodySpec.call_render (JS.Fin 0.5);
           BodySpec.call_update (vec 0 0) (JS.Fin 0) (JS.Fin 0.5)])
       (BodySpec.on_body small_body)).
Proof.
  assert (Hpi : (3 < PI)%R) by (pose proof PI2_3_2; lra).
  apply (proj2 phase_wrap).
  - repeat constructor; exists 0.5%R; (split; [reflexivity|lra]).
  - exists 0%R. split; [reflexivity|]. lra.
Defined.

(** C4 as stated fails for a fast fish: one [update] at speed 4 from phase 0
    leaves the phase at [26 - 2π], beyond 2π. *)
Lemma phase_wrap_counterexample :
  exists s',
    Body.update (vec 0 0) (JS.Fin 0) (JS.Fin 4) (BodySpec.on_body small_body)
      = (s', JS.Normal tt) /\
    Body.phase (Body.this s') = JS.Fin (0 + 6.5 * 4 - PI * 2) /\
    ~ (0 + 6.5 * 4 - PI * 2 < 2 * PI)%R.
Proof.
  destruct (update_returns small_body small_spine small_spine (vec 0 0)
              (JS.Fin 0) (JS.Fin 4) small_body_initialised)
    as [s' Hs']; [discriminate|].
  exists s'. split; [exact Hs'|].
  pose proof PI_4 as Hpi.
  split; [|lra].
  pose proof (update_phase (vec 0 0) (JS.Fin 0) (JS.Fin 4) (JS.Fin 0)
                (BodySpec.on_body small_body) eq_refl) as H.
  rewrite Hs' in H. unfold BodySpec.fixed in H. rewrite H.
  unfold Body.advance_phase, Body.SWIM_SPEED, JS.Math_PI. cbn [JS.add JS.mul].
  rewrite gtb_Fin_true by lra. reflexivity.
Qed.

(** The closed end of the interval is reached as well: a step of exactly 2π
    from phase 0 is not wrapped. *)
Lemma phase_reaches_two_pi :
  Body.advance_phase (JS.Fin 0) (JS.Fin (2 * PI / 6.5)) = JS.Fin (2 * PI).
Proof.
  unfold Body.advance_phase, Body.SWIM_SPEED, JS.Math_PI. cbn [JS.add JS.mul].
  rewrite gtb_Fin_false by lra. f_equal. lra.
Qed.

(** * The spine pass *)

Section SpinePass.

Import JS Body BodySpec.
Local Open Scope R_scope.

(** What a real, nonzero blended distance says about an iteration: the
    segment before, the blended offset and the spacing are real, and the new
    position is the segment before plus the offset rescaled. *)
Lemma relax_step_real (spacing0 spring : Number) (previous current : Vector2.t)
    (xDir yDir : Number) :
  nonzero_real
    (blended_distance (relax_step spacing0 spring previous current xDir yDir)) ->
  exists px py a b sp,
    previous = vec px py /\
    spacing0 = Fin sp /\
    sqrt (a * a + b * b) <> 0 /\
    position (relax_step spacing0 spring previous current xDir yDir) =
      vec (px + sp * a / sqrt (a * a + b * b))
          (py + sp * b / sqrt (a * a + b * b)).
Proof.
  unfold relax_step. cbn [blended_distance position].
  set (dx := (Vector2.x current - Vector2.x previous)%js).
  set (dy := (Vector2.y current - Vector2.y previous)%js).
  set (dxc := (Vector2.x previous + xDir * spacing0 - Vector2.x current)%js).
  set (dyc := (Vector2.y previous + yDir * spacing0 - Vector2.y current)%js).
  set (dx' := (dx + dxc * spring)%js).
  set (dy' := (dy + dyc * spring)%js).
  intros (d & Hd & Hnz).
  destruct (sqrt_Fin_inv _ _ Hd) as (q & Hq & Hq0 & ->).
  destruct (add_Fin_inv _ _ _ Hq) as (qa & qb & Hqa & Hqb & ->).
  destruct (mul_Fin_inv _ _ _ Hqa) as (a & a' & Ha & Ha' & ->).
  destruct (mul_Fin_inv _ _ _ Hqb) as (b & b' & Hb & Hb' & ->).
  rewrite Ha in Ha'. injection Ha' as <-.
  rewrite Hb in Hb'. injection Hb' as <-.
  destruct (add_Fin_inv _ _ _ Ha) as (ex & gx & Hex & Hgx & _).
  destruct (sub_Fin_inv _ _ _ Hex) as (cx & px & _ & Hpx & _).
  destruct (add_Fin_inv _ _ _ Hb) as (ey & gy & Hey & Hgy & _).
  destruct (sub_Fin_inv _ _ _ Hey) as (cy & py & _ & Hpy & _).
  destruct (mul_Fin_inv _ _ _ Hgx) as (hx & k & Hhx & _ & _).
  destruct (sub_Fin_inv _ _ _ Hhx) as (ix & cx' & Hix & _ & _).
  destruct (add_Fin_inv _ _ _ Hix) as (px' & jx & _ & Hjx & _).
  destruct (mul_Fin_inv _ _ _ Hjx) as (xd & sp & _ & Hsp & _).
  exists px, py, a, b, sp.
  split; [destruct previous; cbn in Hpx, Hpy; now subst|].
  split; [exact Hsp|]. split; [exact Hnz|].
  rewrite Hd, Ha, Hb, Hpx, Hpy, Hsp. cbn [mul].
  rewrite !div_Fin by exact Hnz. reflexivity.
Qed.

(** The new position of a segment is a real vector. *)
Lemma relax_step_finite (spacing0 spring : Number) (previous current : Vector2.t)
    (xDir yDir : Number) :
  nonzero_real
    (blended_distance (relax_step spacing0 spring previous current xDir yDir)) ->
  finite_vector previous /\
  finite_vector (position (relax_step spacing0 spring previous current xDir yDir)).
Proof.
  intros H. destruct (relax_step_real _ _ _ _ _ _ H)
    as (px & py & a & b & sp & -> & _ & _ & ->).
  split; eexists _, _; reflexivity.
Qed.

End SpinePass.

Section SpineChain.

Import JS Body BodySpec.
Local Open Scope R_scope.

(** An iteration of the spine pass, run: it throws at a slot without an
    object, and otherwise logs its two divisors and moves the segment. *)
Lemma relax_run (j : nat) (dir : Number * Number) (s : store)
    (current previous : Vector2.t) :
  array_get (spine (this s)) j = Some current ->
  array_get (spine (this s)) (j - 1) = Some previous ->
  let r := relax_step (spacing (this s)) (number_at (springs (this s)) (j - 1))
             previous current (fst dir) (snd dir) in
  relax j dir s =
    ({| this := with_spine (this s) (replace_at j (position r) (spine (this s)));
        renderer := renderer s;
        divisions := (divisions s ++ [distance r]) ++ [blended_distance r] |},
     Normal (direction r)).
Proof.
  intros Ec Ep. unfold relax.
  rewrite (bind_run _ _ _ _ _ (spine_at_run j s current Ec)).
  rewrite (bind_run _ _ _ _ _ (spine_at_run (j - 1) s previous Ep)).
  reflexivity.
Qed.

Lemma relax_cases (j : nat) (dir : Number * Number) (s : store) :
  (exists current previous,
     array_get (spine (this s)) j = Some current /\
     array_get (spine (this s)) (j - 1) = Some previous /\
     relax j dir s =
       (let r := relax_step (spacing (this s))
                   (number_at (springs (this s)) (j - 1))
                   previous current (fst dir) (snd dir) in
        ({| this := with_spine (this s)
                      (replace_at j (position r) (spine (this s)));
            renderer := renderer s;
            divisions := (divisions s ++ [distance r]) ++ [blended_distance r] |},
         Normal (direction r)))) \/
  (exists e, relax j dir s = (s, Throw e)).
Proof.
  destruct (array_get (spine (this s)) j) as [current|] eqn:Ec.
  - destruct (array_get (spine (this s)) (j - 1)) as [previous|] eqn:Ep.
    + left. exists current, previous. split; [reflexivity|]. split; [reflexivity|].
      now apply relax_run.
    + right. exists TypeError. unfold relax.
      rewrite (bind_run _ _ _ _ _ (spine_at_run j s current Ec)).
      now rewrite (bind_throw _ _ _ _ _ (spine_at_throw (j - 1) s Ep)).
  - right. exists TypeError. unfold relax.
    now rewrite (bind_throw _ _ _ _ _ (spine_at_throw j s Ec)).
Qed.

Variable good : Vector2.t -> Vector2.t -> Prop.
Variable sp : Number.
Hypothesis good_step :
  forall spring previous current xDir yDir,
    nonzero_real
      (blended_distance (relax_step sp spring previous current xDir yDir)) ->
    good previous (position (relax_step sp spring previous current xDir yDir)).

Lemma relax_chain (j : nat) (dir : Number * Number) :
  (1 <= j)%nat ->
  hoare (fun s => fixed spacing sp s /\ chain good j s) (relax j dir)
    (fun _ s => chain good (S j) s) (fun _ => True).
Proof.
  intros Hj s [Hsp Hchain].
  destruct (relax_cases j dir s)
    as [(current & previous & Ec & Ep & ->)|[e ->]]; [|exact I].
  unfold chain. cbn [this divisions spine with_spine].
  intros Hdiv i Hi.
  apply Forall_app in Hdiv. destruct Hdiv as [Hdiv Hd1].
  apply Forall_app in Hdiv. destruct Hdiv as [Hdiv _].
  apply Forall_inv in Hd1.
  unfold fixed in Hsp. rewrite Hsp in *.
  destruct (Nat.eq_dec i j) as [->|Hne].
  - eexists previous, _. split; [|split].
    + rewrite array_get_replace_at_neq by lia. exact Ep.
    + apply array_get_replace_at_eq. eapply array_get_length, Ec.
    + now apply good_step.
  - destruct (Hchain Hdiv i) as (p & c & Hp & Hc & Hgood); [lia|].
    exists p, c. rewrite !array_get_replace_at_neq by lia. auto.
Qed.

Lemma extent_replace_at (b : Body.t) (i : nat) (v : Vector2.t) :
  extent (with_spine b (replace_at i v (spine b))) = extent b.
Proof. unfold extent. cbn. now rewrite length_replace_at. Qed.

(** The spine pass of [update], from the head down. *)
Lemma update_chain (n : nat) (head : Vector2.t) (direction_angle speed : Number) :
  hoare (fixed extent (n, sp)) (update head direction_angle speed)
    (fun _ s => fixed extent (n, sp) s /\
                array_get (spine (this s)) 0 = Some head /\
                chain good n s)
    (fun _ => True).
Proof.
  unfold update.
  eapply hoare_bind with (R := fun _ => fixed extent (n, sp)).
  { apply (hoare_weaken _ (fixed extent (n, sp)) _ _
             (fun _ => fixed extent (n, sp)) _ (fixed extent (n, sp)));
      [apply fixed_storePreviousState; reflexivity | auto | auto | auto]. }
  intros ?; cbv beta.
  eapply hoare_bind
    with (R := fun _ s => fixed extent (n, sp) s /\ (0 < n)%nat).
  { intros s H. unfold spine_at, bind, get_this.
    destruct (array_get (spine (this s)) 0) as [v|] eqn:E; [|exact I].
    cbn. split; [exact H|]. injection H as <- _.
    eapply array_get_length, E. }
  intros ?; cbv beta.
  eapply hoare_bind
    with (R := fun _ s => fixed extent (n, sp) s /\
                          fixed (fun b => array_get (spine b) 0) (Some head) s).
  { intros s [H Hn]. rewrite spine_put_run. unfold fixed in *.
    cbn [this]. rewrite extent_replace_at. split; [exact H|].
    cbn [spine with_spine]. apply array_get_replace_at_eq.
    injection H as -> _. exact Hn. }
  intros ?; cbv beta.
  eapply hoare_bind with (R := fun _ s => fixed extent (n, sp) s /\
        fixed (fun b => array_get (spine b) 0) (Some head) s).
  { intros s H. exact H. }
  intros b; cbv beta zeta.
  eapply hoare_bind with (R := fun segments s =>
        (fixed extent (n, sp) s /\
         fixed (fun b => array_get (spine b) 0) (Some head) s) /\
        segments = seq 1 (n - 1)).
  { intros s [H H0]. cbn. split; [now split|]. injection H as -> _. reflexivity. }
  intros segments; cbv beta.
  eapply hoare_bind with (R := fun _ s =>
        fixed extent (n, sp) s /\
        fixed (fun b => array_get (spine b) 0) (Some head) s /\
        chain good (1 + (n - 1)) s).
  { intros s [[Hshape Hhead] ->]. revert s Hshape Hhead.
    assert (Hloop := hoare_for_each
      (fun j (_ : Number * Number) s =>
         fixed extent (n, sp) s /\
         fixed (fun b => array_get (spine b) 0) (Some head) s /\
         chain good j s)
      relax (fun _ => True) (n - 1) 1).
    intros s Hshape Hhead. apply Hloop.
    - intros j l Hj s1 (Hs1 & Hh1 & Hc1).
      pose proof (fixed_relax extent (n, sp) j l
                    ltac:(intros; apply extent_replace_at) s1 Hs1) as Ha.
      pose proof (fixed_relax (fun b => array_get (spine b) 0) (Some head) j l
                    ltac:(intros; cbn; apply array_get_replace_at_neq; lia)
                    s1 Hh1) as Hb.
      assert (Hsp1 : fixed spacing sp s1) by (now injection Hs1).
      pose proof (relax_chain j l ltac:(lia) s1 (conj Hsp1 Hc1)) as Hc.
      destruct (relax j l s1) as [s2 [dir'|e]]; [|exact I]. auto.
    - split; [exact Hshape|]. split; [exact Hhead|].
      intros _ i Hi. lia. }
  intros ?; cbv beta.
  intros s (Hshape & Hhead & Hchain). cbn.
  split; [exact Hshape|]. split; [exact Hhead|].
  unfold chain in *. cbn [this divisions spine with_phase].
  intros Hdiv i Hi. apply Hchain; [exact Hdiv|lia].
Qed.

End SpineChain.

(** * Rounding errors *)

Section Rounding.

Local Open Scope R_scope.

Ltac abs_cases :=
  unfold Rabs in *;
  repeat match goal with
         | |- context [Rcase_abs ?x] => destruct (Rcase_abs x)
         | H : context [Rcase_abs ?x] |- _ => destruct (Rcase_abs x)
         end.

Lemma rounds_nonneg (u x y : R) :
  0 <= x -> rounds u x y -> (1 - u) * x <= y <= (1 + u) * x.
Proof. unfold rounds. intros Hx H. abs_cases; lra. Qed.

(** The length of a vector moves by no more than the sum of the amounts its
    coordinates move by. *)
Lemma length_moved (a b e f : R) :
  sqrt ((a + e) * (a + e) + (b + f) * (b + f))
  <= sqrt (a * a + b * b) + (Rabs e + Rabs f).
Proof.
  set (A := sqrt (a * a + b * b)).
  assert (HA : 0 <= A) by apply sqrt_pos.
  assert (HA2 : A * A = a * a + b * b) by (apply sqrt_sqrt; nra).
  assert (Ha : Rabs a <= A).
  { apply Rsqr_incr_0_var; [|exact HA]. rewrite <- Rsqr_abs.
    unfold Rsqr. nra. }
  assert (Hb : Rabs b <= A).
  { apply Rsqr_incr_0_var; [|exact HA]. rewrite <- Rsqr_abs.
    unfold Rsqr. nra. }
  pose proof (Rabs_pos e) as He. pose proof (Rabs_pos f) as Hf.
  assert (Hae : a * e <= A * Rabs e).
  { apply Rle_trans with (Rabs (a * e)); [apply Rle_abs|].
    rewrite Rabs_mult. now apply Rmult_le_compat_r. }
  assert (Hbf : b * f <= A * Rabs f).
  { apply Rle_trans with (Rabs (b * f)); [apply Rle_abs|].
    rewrite Rabs_mult. now apply Rmult_le_compat_r. }
  assert (He2 : e * e = Rabs e * Rabs e)
    by (rewrite <- Rabs_mult; symmetry; apply Rabs_pos_eq; nra).
  assert (Hf2 : f * f = Rabs f * Rabs f)
    by (rewrite <- Rabs_mult; symmetry; apply Rabs_pos_eq; nra).
  rewrite <- (sqrt_square (A + (Rabs e + Rabs f))) by lra.
  apply sqrt_le_1_alt. nra.
Qed.

Lemma length_moved_back (a b e f : R) :
  sqrt (a * a + b * b) - (Rabs e + Rabs f)
  <= sqrt ((a + e) * (a + e) + (b + f) * (b + f)).
Proof.
  pose proof (length_moved (a + e) (b + f) (- e) (- f)) as H.
  replace (a + e + - e) with a in H by ring.
  replace (b + f + - f) with b in H by ring.
  rewrite !Rabs_Ropp in H. lra.
Qed.

(** The error of the renormalisation.  When every operation is rounded with a
    relative error of at most [u], the new position lies as far from the
    segment before as the spacing asks, up to [u] times ten spacings and the
    coordinates of the segment before. *)
Lemma renormalizes_length (u sp px py dx dy nx ny : R) :
  0 <= u <= 1 / 16 -> 0 <= sp -> dx * dx + dy * dy <> 0 ->
  renormalizes u sp px py dx dy nx ny ->
  Rabs (sqrt ((nx - px) * (nx - px) + (ny - py) * (ny - py)) - sp)
  <= u * (10 * sp + Rabs px + Rabs py).
Proof.
  intros Hu Hsp Hnz
    (xx & yy & s & d & mx & ox & my & oy &
     Hxx & Hyy & Hs & Hd & Hmx & Hox & Hnx & Hmy & Hoy & Hny).
  set (N2 := dx * dx + dy * dy) in *.
  assert (HN2 : 0 < N2) by (unfold N2 in *; nra).
  set (n := sqrt N2).
  assert (Hn : 0 < n) by (apply sqrt_lt_R0; exact HN2).
  assert (Hn2 : n * n = N2) by (apply sqrt_sqrt; lra).
  apply rounds_nonneg in Hxx; [|nra]. apply rounds_nonneg in Hyy; [|nra].
  assert (Ht : (1 - u) * N2 <= xx + yy <= (1 + u) * N2) by (unfold N2; nra).
  apply rounds_nonneg in Hs; [|nra].
  assert (Hs' : ((1 - u) * n) * ((1 - u) * n) <= s <= ((1 + u) * n) * ((1 + u) * n))
    by nra.
  assert (Hr : (1 - u) * n <= sqrt s <= (1 + u) * n).
  { split.
    - rewrite <- (sqrt_square ((1 - u) * n)) by nra. apply sqrt_le_1_alt. lra.
    - rewrite <- (sqrt_square ((1 + u) * n)) by nra. apply sqrt_le_1_alt. lra. }
  apply rounds_nonneg in Hd; [|nra].
  assert (Hdn : (1 - u) * (1 - u) * n <= d <= (1 + u) * (1 + u) * n) by nra.
  assert (Hdpos : 0 < d) by nra.
  (* the offset, exact but for the distance *)
  set (A := sp * n / d).
  assert (HA : 0 <= A).
  { unfold A. apply Rmult_le_pos; [nra|]. left. now apply Rinv_0_lt_compat. }
  assert (HAd : A * d = sp * n) by (unfold A; field; lra).
  assert (HAlo : A * ((1 - u) * (1 - u)) <= sp).
  { apply (Rmult_le_reg_r n); [exact Hn|]. nra. }
  assert (HAhi : sp <= A * ((1 + u) * (1 + u))).
  { apply (Rmult_le_reg_r n); [exact Hn|]. nra. }
  assert (Hu2 : 225 / 256 <= (1 - u) * (1 - u)) by nra.
  assert (HAsp : A <= 256 / 225 * sp).
  { assert (A * (225 / 256) <= A * ((1 - u) * (1 - u)))
      by (apply Rmult_le_compat_l; lra).
    lra. }
  assert (HuA : u * A <= 256 / 225 * (u * sp))
    by (replace (u * A) with (A * u) by ring; nra).
  assert (Hnear : - (12 / 5 * (u * sp)) <= A - sp <= 12 / 5 * (u * sp)).
  { split.
    - assert (sp - A <= A * (u * (2 + u))) by nra.
      assert (A * (u * (2 + u)) <= 33 / 16 * (u * A)) by nra. lra.
    - assert (A - sp <= A * (u * (2 - u))) by nra.
      assert (A * (u * (2 - u)) <= 2 * (u * A)) by nra. lra. }
  set (ax := sp * dx / d). set (ay := sp * dy / d).
  assert (Hnorm : sqrt (ax * ax + ay * ay) = A).
  { replace (ax * ax + ay * ay) with (A * A).
    - now apply sqrt_square.
    - transitivity (sp * sp * (n * n) / (d * d));
        [unfold A; field; lra|].
      rewrite Hn2. unfold N2, ax, ay. field. lra. }
  assert (Hax : Rabs ax <= A).
  { rewrite <- Hnorm. apply Rsqr_incr_0_var; [|apply sqrt_pos].
    rewrite <- Rsqr_abs. unfold Rsqr. rewrite sqrt_sqrt; nra. }
  assert (Hay : Rabs ay <= A).
  { rewrite <- Hnorm. apply Rsqr_incr_0_var; [|apply sqrt_pos].
    rewrite <- Rsqr_abs. unfold Rsqr. rewrite sqrt_sqrt; nra. }
  (* one coordinate *)
  assert (Hcoord : forall p m o v a,
            a = sp * m / d ->
            rounds u (sp * m) v -> rounds u (v / d) o ->
            forall q, rounds u (p + o) q ->
            Rabs ((q - p) - a) <= 16 / 5 * u * Rabs a + u * Rabs p).
  { intros p m o v a -> Hv Ho q Hq.
    assert (Hva : Rabs (v / d - sp * m / d) <= u * Rabs (sp * m / d)).
    { replace (v / d - sp * m / d) with ((v - sp * m) / d) by (field; lra).
      unfold Rdiv. rewrite !Rabs_mult, (Rabs_pos_eq (/ d))
        by (left; now apply Rinv_0_lt_compat).
      rewrite <- Rmult_assoc. apply Rmult_le_compat_r;
        [left; now apply Rinv_0_lt_compat|].
      unfold rounds in Hv. now rewrite Rabs_mult in Hv. }
    assert (Hvd : Rabs (v / d) <= (1 + u) * Rabs (sp * m / d)).
    { replace (v / d) with ((v / d - sp * m / d) + sp * m / d) by ring.
      eapply Rle_trans; [apply Rabs_triang|]. lra. }
    unfold rounds in Ho, Hq.
    pose proof (Rabs_pos (sp * m / d)) as Ha0. pose proof (Rabs_pos p) as Hp0.
    assert (Hoa : Rabs (o - sp * m / d) <= u * (2 + u) * Rabs (sp * m / d)).
    { replace (o - sp * m / d) with ((o - v / d) + (v / d - sp * m / d)) by ring.
      eapply Rle_trans; [apply Rabs_triang|]. nra. }
    assert (Ho' : Rabs o <= (1 + u * (2 + u)) * Rabs (sp * m / d)).
    { replace o with ((o - sp * m / d) + sp * m / d) by ring.
      eapply Rle_trans; [apply Rabs_triang|]. lra. }
    assert (Hpo : Rabs (p + o) <= Rabs p + Rabs o) by apply Rabs_triang.
    replace (q - p - sp * m / d)
      with ((q - (p + o)) + (o - sp * m / d)) by ring.
    eapply Rle_trans; [apply Rabs_triang|].
    set (a := Rabs (sp * m / d)) in *.
    assert (H1 : u * Rabs (p + o) <= u * Rabs p + u * Rabs o)
      by (rewrite <- Rmult_plus_distr_l; apply Rmult_le_compat_l; lra).
    assert (H2 : u * Rabs o <= u * ((1 + u * (2 + u)) * a))
      by (apply Rmult_le_compat_l; lra).
    assert (H3 : u * ((1 + u * (2 + u)) * a) + u * (2 + u) * a
                 <= 16 / 5 * u * a).
    { assert (Hk : u * (1 + u * (2 + u)) + u * (2 + u) <= 16 / 5 * u) by nra.
      replace (u * ((1 + u * (2 + u)) * a) + u * (2 + u) * a)
        with ((u * (1 + u * (2 + u)) + u * (2 + u)) * a) by ring.
      apply Rmult_le_compat_r; lra. }
    lra. }
  pose proof (Hcoord px dx ox mx ax eq_refl Hmx Hox nx Hnx) as Hex.
  pose proof (Hcoord py dy oy my ay eq_refl Hmy Hoy ny Hny) as Hey.
  set (ex := nx - px - ax) in *. set (ey := ny - py - ay) in *.
  replace (nx - px) with (ax + ex) by (unfold ex; ring).
  replace (ny - py) with (ay + ey) by (unfold ey; ring).
  pose proof (length_moved ax ay ex ey) as Hup.
  pose proof (length_moved_back ax ay ex ey) as Hdown.
  rewrite Hnorm in Hup, Hdown.
  pose proof (Rabs_pos px). pose proof (Rabs_pos py).
  pose proof (Rabs_pos ax). pose proof (Rabs_pos ay).
  assert (Hmove : Rabs ex + Rabs ey
                  <= 32 / 5 * (u * A) + u * (Rabs px + Rabs py)).
  { assert (u * Rabs ax <= u * A) by (apply Rmult_le_compat_l; lra).
    assert (u * Rabs ay <= u * A) by (apply Rmult_le_compat_l; lra).
    lra. }
  apply Rabs_le. lra.
Qed.

End Rounding.

(** * Spacing preservation and degenerate geometry *)

Section Spacing.

Import JS Body BodySpec.
Local Open Scope R_scope.

Lemma sum_squares_nonneg (a b : R) : 0 <= a * a + b * b.
Proof. nra. Qed.

(** A component of a vector is no longer than the vector. *)
Lemma component_bound (a b : R) :
  sqrt (a * a + b * b) <> 0 -> -1 <= a / sqrt (a * a + b * b) <= 1.
Proof.
  intros Hnz. set (n := sqrt (a * a + b * b)) in *.
  assert (Hn : 0 < n) by (pose proof (sqrt_pos (a * a + b * b)); fold n in H; lra).
  assert (Hn2 : n * n = a * a + b * b) by (apply sqrt_sqrt; nra).
  assert (Ha : - n <= a <= n) by nra.
  split.
  - apply (Rmult_le_reg_r n); [exact Hn|].
    replace (a / n * n) with a by (field; lra). lra.
  - apply (Rmult_le_reg_r n); [exact Hn|].
    replace (a / n * n) with a by (field; lra). lra.
Qed.

(** An iteration of the spine pass on real numbers, when neither distance
    is zero. *)
Lemma relax_step_reals (sp k px py cx cy ux uy : R) :
  let dx := cx - px in
  let dy := cy - py in
  let dx' := dx + (px + ux * sp - cx) * k in
  let dy' := dy + (py + uy * sp - cy) * k in
  sqrt (dx * dx + dy * dy) <> 0 ->
  sqrt (dx' * dx' + dy' * dy') <> 0 ->
  relax_step (Fin sp) (Fin k) (vec px py) (vec cx cy) (Fin ux) (Fin uy) =
  {| distance := Fin (sqrt (dx * dx + dy * dy));
     direction := (Fin (dx / sqrt (dx * dx + dy * dy)),
                   Fin (dy / sqrt (dx * dx + dy * dy)));
     blended_distance := Fin (sqrt (dx' * dx' + dy' * dy'));
     position := vec (px + sp * dx' / sqrt (dx' * dx' + dy' * dy'))
                     (py + sp * dy' / sqrt (dx' * dx' + dy' * dy')) |}.
Proof.
  cbv zeta. unfold Rminus. intros H0 H1.
  unfold relax_step, vec. cbn [Vector2.x Vector2.y add sub opp mul].
  rewrite !sqrt_Fin by apply sum_squares_nonneg.
  rewrite !div_Fin by assumption.
  reflexivity.
Qed.

(** The renormalised position on real numbers. *)
Lemma renormalized_reals (sp px py dx dy : R) :
  sqrt (dx * dx + dy * dy) <> 0 ->
  renormalized (Fin sp) (vec px py) (Fin dx) (Fin dy)
  = vec (px + sp * dx / sqrt (dx * dx + dy * dy))
        (py + sp * dy / sqrt (dx * dx + dy * dy)).
Proof.
  intros Hnz. unfold renormalized, vec. cbn [Vector2.x Vector2.y add mul].
  rewrite sqrt_Fin by apply sum_squares_nonneg.
  rewrite !div_Fin by exact Hnz. reflexivity.
Qed.

(** What an iteration with a real, nonzero blended distance leaves: the
    segment renormalised from the segment before, along a real offset that
    is not zero. *)
Lemma relax_step_renormalized (sp : R) (spring : Number)
    (previous current : Vector2.t) (xDir yDir : Number) :
  nonzero_real
    (blended_distance (relax_step (Fin sp) spring previous current xDir yDir)) ->
  exists px py dx dy,
    previous = vec px py /\ dx * dx + dy * dy <> 0 /\
    position (relax_step (Fin sp) spring previous current xDir yDir)
    = renormalized (Fin sp) (vec px py) (Fin dx) (Fin dy).
Proof.
  intros H. destruct (relax_step_real _ _ _ _ _ _ H)
    as (px & py & a & b & sp' & -> & Hsp' & Hnz & ->).
  injection Hsp' as <-.
  exists px, py, a, b. split; [reflexivity|]. split.
  - intros H0. apply Hnz. rewrite H0. apply sqrt_0.
  - symmetry. now apply renormalized_reals.
Qed.

(** C1: when an [update] returns and every distance it divided by during the
    pass, between consecutive segments and of the blended offsets, was a real
    number other than zero, every segment after the head has been put where
    the renormalisation [spine[i - 1] + spacing * d / |d|] of a real offset
    [d] other than zero puts it, wherever the head was put.  That place lies
    [spacing] from the segment before up to rounding: when every operation of
    the renormalisation is rounded with a relative error of at most [u], by
    no more than [u * (10 * spacing + |x| + |y|)] more or less, for the
    coordinates [(x, y)] of the segment before, and exactly [spacing] when
    nothing is rounded ([u = 0]).  (The spacing of a body is a nonnegative
    real: see [new_spacing_positive].) *)
Theorem spacing_preservation (b : Body.t) (head : Vector2.t)
    (direction_angle speed : Number) (s' : store) (sp : R) :
  update head direction_angle speed (on_body b) = (s', Normal tt) ->
  spacing b = Fin sp -> 0 <= sp ->
  Forall nonzero_real (divisions s') ->
  forall i, (1 <= i < length (spine b))%nat ->
    exists (px py dx dy : R) (current : Vector2.t),
      array_get (spine (this s')) (i - 1) = Some (vec px py) /\
      array_get (spine (this s')) i = Some current /\
      dx * dx + dy * dy <> 0 /\
      current = renormalized (Fin sp) (vec px py) (Fin dx) (Fin dy) /\
      forall u nx ny : R,
        0 <= u <= 1 / 16 ->
        renormalizes u sp px py dx dy nx ny ->
        Rabs (sqrt ((nx - px) * (nx - px) + (ny - py) * (ny - py)) - sp)
        <= u * (10 * sp + Rabs px + Rabs py).
Proof.
  intros Hrun Hsp Hpos Hdiv i Hi.
  pose proof (update_chain
                (fun previous current =>
                   exists px py dx dy,
                     previous = vec px py /\ dx * dx + dy * dy <> 0 /\
                     current = renormalized (Fin sp) (vec px py) (Fin dx) (Fin dy))
                (Fin sp)
                ltac:(intros; now apply relax_step_renormalized)
                (length (spine b)) head direction_angle speed (on_body b)) as H.
  rewrite Hrun in H.
  destruct H as (_ & _ & Hchain).
  - unfold fixed, extent. cbn. now rewrite Hsp.
  - destruct (Hchain Hdiv i Hi)
      as (previous & current & Hp & Hc & px & py & dx & dy & -> & Hnz & ->).
    exists px, py, dx, dy. eexists. split; [exact Hp|]. split; [exact Hc|].
    split; [exact Hnz|]. split; [reflexivity|].
    intros u nx ny Hu Hr.
    exact (renormalizes_length u sp px py dx dy nx ny Hu Hpos Hnz Hr).
Qed.

(** A segment on top of the segment before it makes the direction handed on
    NaN ... *)
Lemma relax_step_coincident (spacing0 spring : Number) (px py : R)
    (xDir yDir : Number) :
  let r := relax_step spacing0 spring (vec px py) (vec px py) xDir yDir in
  distance r = Fin 0 /\ direction r = (NaN, NaN).
Proof.
  unfold relax_step, vec. cbn [distance direction Vector2.x Vector2.y sub add opp mul].
  rewrite sqrt_Fin by nra.
  replace ((px + - px) * (px + - px) + (py + - py) * (py + - py)) with 0 by ring.
  rewrite sqrt_0. split; [reflexivity|].
  rewrite !div_zero_zero by lra. reflexivity.
Qed.

(** ... and a NaN direction makes the next position NaN. *)
Lemma relax_step_NaN (spacing0 spring : Number) (previous current : Vector2.t)
    (yDir : Number) :
  let r := relax_step spacing0 spring previous current NaN yDir in
  blended_distance r = NaN /\
  position r = {| Vector2.x := NaN; Vector2.y := NaN |}.
Proof.
  unfold relax_step. cbn [blended_distance position].
  repeat first [ progress cbn [mul add sub opp div Math_sqrt]
               | rewrite add_NaN_r | rewrite mul_NaN_r | rewrite div_NaN_r ].
  split; reflexivity.
Qed.

(** [update] on a body of three segments, run. *)
Lemma update_three (b : Body.t) (s0 s1 s2 p0 p1 p2 head : Vector2.t)
    (direction_angle speed : Number) (r : list command) (d : list Number) :
  spine b = [Some s0; Some s1; Some s2] ->
  spinePrevious b = [Some p0; Some p1; Some p2] ->
  let angle := swim_angle direction_angle (phase b) speed in
  let r1 := relax_step (spacing b) (number_at (springs b) 0) head s1
              (Math_cos angle) (Math_sin angle) in
  let r2 := relax_step (spacing b) (number_at (springs b) 1) (position r1) s2
              (fst (direction r1)) (snd (direction r1)) in
  update head direction_angle speed {| this := b; renderer := r; divisions := d |}
  = ({| this :=
          with_phase
            (with_spine (with_spinePrevious b [Some s0; Some s1; Some s2])
               [Some head; Some (position r1); Some (position r2)])
            (advance_phase (phase b) speed);
        renderer := r;
        divisions := d ++ [distance r1; blended_distance r1;
                           distance r2; blended_distance r2] |},
     Normal tt).
Proof.
  intros Hs Hp. destruct b. cbn in Hs, Hp. subst.
  cbv zeta. unfold update, storePreviousState, relax, bind. cbn.
  rewrite <- !app_assoc. reflexivity.
Qed.

End Spacing.

Section SteadyState.

Import JS Body BodySpec.
Local Open Scope R_scope.

(** A segment that already trails the segment before it by [sp] along the
    direction handed in stays where it is and hands the direction on. *)
Lemma relax_step_aligned (sp k px py cx cy ux uy : R) :
  0 < sp -> ux * ux + uy * uy = 1 ->
  cx = px + sp * ux -> cy = py + sp * uy ->
  relax_step (Fin sp) (Fin k) (vec px py) (vec cx cy) (Fin ux) (Fin uy) =
  {| distance := Fin sp;
     direction := (Fin ux, Fin uy);
     blended_distance := Fin sp;
     position := vec cx cy |}.
Proof.
  intros Hsp Hunit -> ->.
  unfold relax_step, vec. cbn [Vector2.x Vector2.y add sub opp mul].
  match goal with
  | |- context [Math_sqrt (Fin ?e)] =>
      replace e with (sp * sp)
        by (transitivity (sp * sp * (ux * ux + uy * uy));
            [rewrite Hunit; ring | ring])
  end.
  match goal with
  | |- context [Math_sqrt (Fin (?a * ?a + ?b * ?b))] =>
      replace (a * a + b * b) with (sp * sp)
        by (transitivity (sp * sp * (ux * ux + uy * uy));
            [rewrite Hunit; ring | ring])
  end.
  rewrite !sqrt_Fin by nra. rewrite !sqrt_square by lra.
  rewrite !div_Fin by lra. cbn [add].
  f_equal; [f_equal; f_equal; field; lra | f_equal; f_equal; field; lra].
Qed.

End SteadyState.

Section Degenerate.

Import JS Body BodySpec.
Local Open Scope R_scope.

(** The small body at rest, ticked with its head held in place and the speed
    at the threshold: nothing moves, and the four divisors are the
    spacing. *)
Lemma small_tick :
  update (vec 0 0) (Fin 0) (Fin 0.02) (on_body small_body) =
  ({| this := with_phase small_body (Fin (0 + 6.5 * 0.02));
      renderer := [];
      divisions := [Fin 0.1; Fin 0.1; Fin 0.1; Fin 0.1] |}, Normal tt).
Proof.
  unfold on_body.
  rewrite (update_three small_body (vec 0 0) (vec (-0.1) 0) (vec (-0.2) 0)
             (vec 0 0) (vec (-0.1) 0) (vec (-0.2) 0)) by reflexivity.
  cbv zeta.
  assert (Hangle : swim_angle (Fin 0) (phase small_body) (Fin 0.02) = Fin PI).
  { unfold swim_angle, SPEED_THRESHOLD, SWIM_AMPLITUDE, Math_PI. cbn.
    f_equal. lra. }
  rewrite Hangle. cbn [Math_cos Math_sin spacing springs small_body number_at nth].
  rewrite (relax_step_aligned 0.1 0.9 0 0 (-0.1) 0 (cos PI) (sin PI))
    by (rewrite ?cos_PI, ?sin_PI; lra).
  cbn [position direction distance blended_distance fst snd].
  rewrite (relax_step_aligned 0.1 0.3 (-0.1) 0 (-0.2) 0 (cos PI) (sin PI))
    by (rewrite ?cos_PI, ?sin_PI; lra).
  cbn [position direction distance blended_distance fst snd app].
  assert (Hphase : advance_phase (Fin 0) (Fin 0.02) = Fin (0 + 6.5 * 0.02)).
  { unfold advance_phase, SWIM_SPEED, Math_PI. cbn [add mul].
    pose proof PI2_3_2. rewrite gtb_Fin_false by lra. reflexivity. }
  change (phase small_body) with (Fin 0). rewrite Hphase. reflexivity.
Qed.

(** The small body ticked with its head moved by half a spacing, at a speed
    above the threshold: the update returns, and each of the four distances
    it divides by is a real number other than zero. *)
Lemma moving_tick :
  exists (s' : store) (qx qy tx ty : R),
    update (vec 0.05 0) (Fin 0) (Fin 0.05) (on_body small_body) = (s', Normal tt) /\
    Forall nonzero_real (divisions s') /\
    spine (this s') = map Some [vec 0.05 0; vec qx qy; vec tx ty].
Proof.
  unfold on_body.
  rewrite (update_three small_body (vec 0 0) (vec (-0.1) 0) (vec (-0.2) 0)
             (vec 0 0) (vec (-0.1) 0) (vec (-0.2) 0)) by reflexivity.
  cbv zeta.
  assert (Hangle : exists a, swim_angle (Fin 0) (phase small_body) (Fin 0.05) = Fin a).
  { unfold swim_angle, SPEED_THRESHOLD, SWIM_AMPLITUDE, Math_PI. cbn.
    eexists. reflexivity. }
  destruct Hangle as [a ->].
  cbn [Math_cos Math_sin spacing springs small_body number_at nth].
  pose proof (COS_bound a) as [Hc1 Hc2].
  pose proof (sin2_cos2 a) as Hunit. unfold Rsqr in Hunit.
  set (ux := cos a) in *. set (uy := sin a) in *.
  assert (H10 : sqrt ((-0.1 - 0.05) * (-0.1 - 0.05) + (0 - 0) * (0 - 0)) <> 0).
  { intros H0. apply sqrt_eq_0 in H0; nra. }
  assert (H11 : sqrt ((-0.1 - 0.05 + (0.05 + ux * 0.1 - -0.1) * 0.9)
                      * (-0.1 - 0.05 + (0.05 + ux * 0.1 - -0.1) * 0.9)
                      + (0 - 0 + (0 + uy * 0.1 - 0) * 0.9)
                        * (0 - 0 + (0 + uy * 0.1 - 0) * 0.9)) <> 0).
  { intros H0. apply sqrt_eq_0 in H0; nra. }
  rewrite (relax_step_reals 0.1 0.9 0.05 0 (-0.1) 0 ux uy H10 H11).
  cbn [position direction distance blended_distance fst snd].
  set (dx1 := -0.1 - 0.05 + (0.05 + ux * 0.1 - -0.1) * 0.9) in *.
  set (dy1 := 0 - 0 + (0 + uy * 0.1 - 0) * 0.9) in *.
  pose proof (component_bound dx1 dy1 H11) as Hq.
  set (d1 := sqrt (dx1 * dx1 + dy1 * dy1)) in *.
  pose proof (component_bound (-0.1 - 0.05) (0 - 0) H10) as Hu2.
  set (d0 := sqrt ((-0.1 - 0.05) * (-0.1 - 0.05) + (0 - 0) * (0 - 0))) in *.
  set (qx := 0.05 + 0.1 * dx1 / d1).
  set (qy := 0 + 0.1 * dy1 / d1).
  assert (Hqx : -0.05 <= qx <= 0.15).
  { unfold qx. replace (0.1 * dx1 / d1) with (0.1 * (dx1 / d1)) by (field; exact H11).
    lra. }
  set (vx := (-0.1 - 0.05) / d0) in *.
  set (vy := (0 - 0) / d0) in *.
  assert (H20 : sqrt ((-0.2 - qx) * (-0.2 - qx) + (0 - qy) * (0 - qy)) <> 0).
  { intros H0. apply sqrt_eq_0 in H0; nra. }
  assert (H21 : sqrt ((-0.2 - qx + (qx + vx * 0.1 - -0.2) * 0.3)
                      * (-0.2 - qx + (qx + vx * 0.1 - -0.2) * 0.3)
                      + (0 - qy + (qy + vy * 0.1 - 0) * 0.3)
                        * (0 - qy + (qy + vy * 0.1 - 0) * 0.3)) <> 0).
  { set (X := -0.2 - qx + (qx + vx * 0.1 - -0.2) * 0.3).
    set (Y := 0 - qy + (qy + vy * 0.1 - 0) * 0.3).
    assert (HX : X < 0) by (unfold X; lra).
    intros H0. apply sqrt_eq_0 in H0; nra. }
  rewrite (relax_step_reals 0.1 0.3 qx qy (-0.2) 0 vx vy H20 H21).
  cbn [position direction distance blended_distance fst snd app].
  eexists _, qx, qy, _, _. split; [reflexivity|].
  cbn [divisions this spine with_phase with_spine].
  split; [|reflexivity].
  repeat constructor; eexists; (split; [reflexivity|assumption]).
Qed.

(** The pinched body ticked: the first iteration divides by zero, and the
    NaN it hands on becomes the position of the last segment. *)
Lemma pinched_tick :
  exists s',
    update (vec 0 0) (Fin 0) (Fin 0.02) (on_body pinched_body) = (s', Normal tt) /\
    In (Fin 0) (divisions s') /\
    array_get (spine (this s')) 2 = Some not_a_vector.
Proof.
  unfold on_body.
  rewrite (update_three pinched_body (vec 0 0) (vec 0 0) (vec 0 0)
             (vec 0 0) (vec 0 0) (vec 0 0)) by reflexivity.
  cbv zeta. eexists. split; [reflexivity|].
  cbn [this divisions spine with_phase with_spine].
  match goal with
  | |- context [relax_step ?sp ?k (vec 0 0) (vec 0 0) ?xd ?yd] =>
      destruct (relax_step_coincident sp k 0 0 xd yd) as [Hd Hdir]
  end.
  rewrite Hdir, Hd. cbn [fst snd]. split; [now left|].
  match goal with
  | |- context [relax_step ?sp ?k ?p ?c NaN ?yd] =>
      destruct (relax_step_NaN sp k p c yd) as [_ Hpos]
  end.
  rewrite Hpos. reflexivity.
Qed.

(** C7: nothing guards the divisions.  On a body whose first two segments
    coincide the pass divides by zero and a NaN ends up in the spine; when
    an [update] returns, the head was given real coordinates and every
    distance divided by during the pass was a real number other than zero
    (which a NaN is not), every segment has real coordinates afterwards. *)
Theorem degenerate_geometry :
  (array_get (spine pinched_body) 0 = array_get (spine pinched_body) 1 /\
   exists s',
     update (vec 0 0) (Fin 0) (Fin 0.02) (on_body pinched_body)
       = (s', Normal tt) /\
     In (Fin 0) (divisions s') /\
     array_get (spine (this s')) 2 = Some not_a_vector) /\
  (forall (b : Body.t) (head : Vector2.t) (direction_angle speed : Number)
          (s' : store),
     update head direction_angle speed (on_body b) = (s', Normal tt) ->
     finite_vector head ->
     Forall nonzero_real (divisions s') ->
     forall i, (i < length (spine b))%nat ->
       exists v, array_get (spine (this s')) i = Some v /\ finite_vector v).
Proof.
  split; [split; [reflexivity | exact pinched_tick]|].
  intros b head da speed s' Hrun Hhead Hdiv i Hi.
  pose proof (update_chain
                (fun previous current =>
                   finite_vector previous /\ finite_vector current)
                (spacing b)
                ltac:(intros; now apply relax_step_finite)
                (length (spine b)) head da speed (on_body b)) as H.
  rewrite Hrun in H.
  destruct H as (_ & H0 & Hchain); [reflexivity|].
  destruct i as [|i].
  - exists head. split; assumption.
  - destruct (Hchain Hdiv (S i)) as (p & c & _ & Hc & _ & Hfin); [lia|].
    exists c. split; assumption.
Qed.

End Degenerate.

(** After the tick of the small body with its head moved, the last segment
    is a real vector. *)
Lemma degenerate_geometry_witness :
  exists s' v,
    Body.update (vec 0.05 0) (JS.Fin 0) (JS.Fin 0.05) (BodySpec.on_body small_body)
      = (s', JS.Normal tt) /\
    JS.array_get (Body.spine (Body.this s')) 2 = Some v /\
    BodySpec.finite_vector v.
Proof.
  destruct moving_tick as (s' & qx & qy & tx & ty & Hrun & Hdiv & _).
  destruct (proj2 degenerate_geometry small_body (vec 0.05 0) (JS.Fin 0)
              (JS.Fin 0.05) s' Hrun) with (i := 2%nat) as (v & Hv & Hfin).
  - exists 0.05%R, 0%R. reflexivity.
  - exact Hdiv.
  - cbn. lia.
  - exists s', v. split; [exact Hrun|]. split; [exact Hv|exact Hfin].
Defined.

(** After the tick of the small body with its head moved by half a spacing,
    the segment after the head has been renormalised from where the head is
    now. *)
Lemma spacing_preservation_witness :
  exists (s' : Body.store) (dx dy : R) (current : Vector2.t),
    Body.update (vec 0.05 0) (JS.Fin 0) (JS.Fin 0.05) (BodySpec.on_body small_body)
      = (s', JS.Normal tt) /\
    JS.array_get (Body.spine (Body.this s')) 0 = Some (vec 0.05 0) /\
    JS.array_get (Body.spine (Body.this s')) 1 = Some current /\
    (dx * dx + dy * dy <> 0)%R /\
    current = renormalized (JS.Fin 0.1) (vec 0.05 0) (JS.Fin dx) (JS.Fin dy).
Proof.
  destruct moving_tick as (s' & qx & qy & tx & ty & Hrun & Hdiv & Hs').
  destruct (spacing_preservation small_body (vec 0.05 0) (JS.Fin 0) (JS.Fin 0.05)
              s' 0.1%R Hrun eq_refl ltac:(lra) Hdiv 1%nat ltac:(cbn; lia))
    as (px & py & dx & dy & current & Hp & Hc & Hnz & Hr & _).
  rewrite Hs' in Hp. cbn in Hp. injection Hp as <- <-.
  exists s', dx, dy, current.
  split; [exact Hrun|]. split; [now rewrite Hs'|]. auto.
Defined.

(** * The direction fed into the chain *)

Section SwimDirection.

Import JS Body BodySpec.
Local Open Scope R_scope.

Lemma bind_Normal_inv {A B : Type} (m : M A) (k : A -> M B) (s s' : store)
    (b : B) :
  bind m k s = (s', Normal b) ->
  exists s1 a, m s = (s1, Normal a) /\ k a s1 = (s', Normal b).
Proof.
  unfold bind. destruct (m s) as [s1 [a|e]]; [|discriminate].
  intros H. now exists s1, a.
Qed.

Lemma spine_at_Normal_inv (i : nat) (s s' : store) (v : Vector2.t) :
  spine_at i s = (s', Normal v) ->
  s' = s /\ array_get (spine (this s)) i = Some v.
Proof.
  unfold spine_at, bind, get_this.
  destruct (array_get (spine (this s)) i) as [w|]; [|discriminate].
  intros H. injection H as <- <-. now split.
Qed.

(** The first iteration of the pass of a returning [update]. *)
Lemma update_first_segment (b : Body.t) (head current : Vector2.t)
    (direction_angle speed : Number) (s' : store) :
  update head direction_angle speed (on_body b) = (s', Normal tt) ->
  array_get (spine b) 1 = Some current ->
  let angle := swim_angle direction_angle (phase b) speed in
  array_get (spine (this s')) 1 =
    Some (position (relax_step (spacing b) (number_at (springs b) 0) head current
                      (Math_cos angle) (Math_sin angle))).
Proof.
  intros Hrun Hcur. cbv zeta. unfold update in Hrun.
  apply bind_Normal_inv in Hrun. destruct Hrun as (s1 & [] & Hstore & Hrun).
  pose proof (fixed_storePreviousState but_previous (but_previous b)
                ltac:(reflexivity) (on_body b) eq_refl) as Hsame.
  rewrite Hstore in Hsame. unfold fixed, but_previous in Hsame.
  injection Hsame as Hspine Hspacing Hsprings Hphase.
  apply bind_Normal_inv in Hrun. destruct Hrun as (s2 & v0 & Hat & Hrun).
  apply spine_at_Normal_inv in Hat. destruct Hat as [-> H0].
  apply bind_Normal_inv in Hrun. destruct Hrun as (s3 & [] & Hput & Hrun).
  rewrite spine_put_run in Hput.
  remember (replace_at 0 head (spine (this s1))) as l1 eqn:El1.
  assert (Hlen1 : length l1 = length (spine b))
    by (now rewrite El1, length_replace_at, Hspine).
  assert (Hl10 : array_get l1 0 = Some head).
  { rewrite El1. apply array_get_replace_at_eq. rewrite Hspine.
    apply array_get_length in Hcur. lia. }
  assert (Hl11 : array_get l1 1 = Some current).
  { rewrite El1, array_get_replace_at_neq by lia. now rewrite Hspine. }
  clear El1. injection Hput as <-.
  apply bind_Normal_inv in Hrun. destruct Hrun as (s4 & b' & Hget & Hrun).
  injection Hget as <- <-.
  apply bind_Normal_inv in Hrun. destruct Hrun as (s5 & segments & Hseg & Hrun).
  injection Hseg as <- <-.
  apply bind_Normal_inv in Hrun. destruct Hrun as (s6 & dir' & Hloop & Hrun).
  injection Hrun as <-.
  cbn [this spine with_spine with_phase phase] in *.
  rewrite Hlen1 in Hloop.
  assert (Hlen : (2 <= length (spine b))%nat).
  { apply array_get_length in Hcur. lia. }
  destruct (length (spine b)) as [|[|n]] eqn:En; try lia.
  change (S (S n) - 1)%nat with (S n) in Hloop. cbn [seq for_each] in Hloop.
  apply bind_Normal_inv in Hloop. destruct Hloop as (s7 & dir1 & Hfirst & Hloop).
  rewrite (relax_run 1 _ _ current head) in Hfirst by assumption.
  cbv zeta in Hfirst.
  pose proof (f_equal fst Hfirst) as Hs7. cbn [fst] in Hs7. subst s7.
  clear Hfirst.
  match type of Hloop with
  | for_each _ _ ?d ?s = _ =>
      pose proof (keeps_for_each
                    (fixed (fun b => array_get (spine b) 1)
                       (array_get (spine (this s)) 1))
                    relax (seq 2 n) d
                    ltac:(intros j l Hj; apply in_seq in Hj;
                          apply fixed_relax; intros; cbn;
                          apply array_get_replace_at_neq; lia)
                    s eq_refl) as Hkeep
  end.
  rewrite Hloop in Hkeep. unfold fixed in Hkeep. rewrite Hkeep.
  cbn [this spine with_spine spacing springs fst snd Nat.sub].
  rewrite array_get_replace_at_eq by lia.
  now rewrite Hspacing, Hsprings, Hphase.
Qed.

(** C5: the direction the pass starts from, seen in the position it gives
    segment 1, is [(cos(angle), sin(angle))] for
    [angle = direction.angle() + π +
             cos(phase) * (speed - SPEED_THRESHOLD) * SWIM_AMPLITUDE],
    with [SWIM_AMPLITUDE = 8.5] and [SPEED_THRESHOLD = .02]; below the
    threshold the factor [speed - SPEED_THRESHOLD] is negative, so the
    oscillation term has the sign opposite to the one it has above. *)
Theorem swim_direction (b : Body.t) (head current : Vector2.t)
    (direction_angle speed : Number) (s' : store) :
  update head direction_angle speed (on_body b) = (s', Normal tt) ->
  array_get (spine b) 1 = Some current ->
  let angle :=
    (direction_angle + Math_PI +
     Math_cos (phase b) * (speed - Fin 0.02) * Fin 8.5)%js in
  array_get (spine (this s')) 1 =
    Some (position (relax_step (spacing b) (number_at (springs b) 0) head current
                      (Math_cos angle) (Math_sin angle))) /\
  forall a p v : R,
    direction_angle = Fin a -> phase b = Fin p -> speed = Fin v ->
    angle = Fin (a + PI + cos p * (v - 0.02) * 8.5) /\
    (v < 0.02 ->
       v - 0.02 < 0 /\
       (0 < cos p -> a + PI + cos p * (v - 0.02) * 8.5 < a + PI) /\
       (cos p < 0 -> a + PI < a + PI + cos p * (v - 0.02) * 8.5)) /\
    (0.02 < v ->
       (0 < cos p -> a + PI < a + PI + cos p * (v - 0.02) * 8.5) /\
       (cos p < 0 -> a + PI + cos p * (v - 0.02) * 8.5 < a + PI)).
Proof.
  intros Hrun Hcur. cbv zeta. split.
  - exact (update_first_segment b head current direction_angle speed s' Hrun Hcur).
  - intros a p v -> -> ->. split; [reflexivity|]. split.
    + intros Hv. split; [lra|]. split; intros Hc; nra.
    + intros Hv. split; intros Hc; nra.
Qed.

End SwimDirection.

(** On the small body at rest, ticked at the threshold speed, segment 1 is
    placed from the direction [(cos π, sin π)]. *)
Lemma swim_direction_witness :
  JS.array_get
    (Body.spine (Body.with_phase small_body (JS.Fin (0 + 6.5 * 0.02)))) 1
  = Some (Body.position
            (Body.relax_step (JS.Fin 0.1) (JS.Fin 0.9) (vec 0 0) (vec (-0.1) 0)
               (JS.Math_cos
                  (JS.Fin 0 + JS.Math_PI +
                   JS.Math_cos (JS.Fin 0) * (JS.Fin 0.02 - JS.Fin 0.02) * JS.Fin 8.5)%js)
               (JS.Math_sin
                  (JS.Fin 0 + JS.Math_PI +
                   JS.Math_cos (JS.Fin 0) * (JS.Fin 0.02 - JS.Fin 0.02) * JS.Fin 8.5)%js))).
Proof.
  exact (proj1 (swim_direction small_body (vec 0 0) (vec (-0.1) 0) (JS.Fin 0)
                  (JS.Fin 0.02) _ small_tick eq_refl)).
Defined.

(** * The interpolated centerline *)

Section Centerline.

Import JS Body BodySpec.
Local Open Scope R_scope.

Lemma render_segment_run (time : Number) (segment : nat)
    (xStart yStart dxStart dyStart : Number) (s : store)
    (previous current : Vector2.t) :
  array_get (spinePrevious (this s)) segment = Some previous ->
  array_get (spine (this s)) segment = Some current ->
  let p := centerline_point time previous current in
  render_segment time segment (xStart, yStart, dxStart, dyStart) s =
    ({| this := this s;
        renderer :=
          renderer s ++
          strip_pair (this s) segment (fst p) (snd p)
            (fst p - xStart)%js (snd p - yStart)%js;
        divisions := divisions s |},
     Normal (fst p, snd p, (fst p - xStart)%js, (snd p - yStart)%js)).
Proof.
  intros Hp Hc. unfold render_segment.
  rewrite (bind_run _ _ _ _ _ (spinePrevious_at_run segment s previous Hp)).
  rewrite (bind_run _ _ _ _ _ (spine_at_run segment s current Hc)).
  unfold bind, get_this, emit, ret, strip_pair, centerline_point, interpolate.
  cbn [this renderer divisions fst snd]. now rewrite <- app_assoc.
Qed.

Lemma centerline_length (time : Number) : forall previous current,
  length previous = length current ->
  length (centerline time previous current) = length current.
Proof.
  induction previous as [|p previous IH]; intros [|c current] H;
    simpl in *; try discriminate; auto.
Qed.

Lemma centerline_nth (time : Number) : forall previous current k p c,
  nth_error previous k = Some p -> nth_error current k = Some c ->
  nth_error (centerline time previous current) k
    = Some (centerline_point time p c).
Proof.
  induction previous as [|p0 previous IH]; intros [|c0 current] [|k] p c Hp Hc;
    simpl in *; try discriminate.
  - now injection Hp as ->; injection Hc as ->.
  - now apply IH.
Qed.

(** The loop of [render] from segment [k] on, started at the point
    [start]. *)
Lemma render_loop (b : Body.t) (previous current : list Vector2.t)
    (time : Number) :
  initialised b previous current ->
  forall (m k : nat) (start : Number * Number) (dx dy : Number)
         (r : list command) (d : list Number),
    (k + m = length current)%nat ->
    exists locals,
      for_each (seq k m) (render_segment time) (fst start, snd start, dx, dy)
        {| this := b; renderer := r; divisions := d |} =
      ({| this := b;
          renderer :=
            r ++ strip_from b k start (skipn k (centerline time previous current));
          divisions := d |},
       Normal locals).
Proof.
  intros (Hs & Hp & Hlen).
  induction m as [|m IH]; intros k start dx dy r d Hk.
  - rewrite skipn_all2 by (rewrite centerline_length; lia).
    cbn. rewrite app_nil_r. eexists. reflexivity.
  - destruct (nth_error previous k) as [p|] eqn:Ep;
      [|apply nth_error_None in Ep; lia].
    destruct (nth_error current k) as [c|] eqn:Ec;
      [|apply nth_error_None in Ec; lia].
    rewrite (skipn_nth_error _ k _ (centerline_nth time _ _ k p c Ep Ec)).
    cbn [seq for_each strip_from].
    rewrite (bind_run _ _ _ _ _
               (render_segment_run time k (fst start) (snd start) dx dy
                  {| this := b; renderer := r; divisions := d |} p c
                  ltac:(cbn [this]; now rewrite Hp, array_get_map_Some)
                  ltac:(cbn [this]; now rewrite Hs, array_get_map_Some))).
    cbn [this renderer divisions].
    set (P := centerline_point time p c).
    destruct (IH (S k) P (fst P - fst start)%js (snd P - snd start)%js
                (r ++ strip_pair b k (fst P) (snd P)
                        (fst P - fst start)%js (snd P - snd start)%js) d)
      as [locals Hrest]; [lia|].
    exists locals. rewrite Hrest. now rewrite <- app_assoc.
Qed.

(** [render], run on a body whose spines are filled. *)
Lemma render_strip (b : Body.t) (previous current : list Vector2.t)
    (time : Number) :
  initialised b previous current -> current <> [] ->
  render time (on_body b) =
    ({| this := b;
        renderer := strip_through b (centerline time previous current);
        divisions := [] |}, Normal tt).
Proof.
  intros Hinit Hne. pose proof Hinit as (Hs & Hp & Hlen).
  destruct current as [|c current]; [contradiction|].
  destruct previous as [|p previous]; [discriminate|].
  unfold render.
  assert (Hp0 : array_get (spinePrevious (this (on_body b))) 0 = Some p)
    by (cbn [this on_body]; now rewrite Hp).
  assert (Hs0 : array_get (spine (this (on_body b))) 0 = Some c)
    by (cbn [this on_body]; now rewrite Hs).
  rewrite (bind_run _ _ _ _ _ (spinePrevious_at_run 0 _ p Hp0)).
  rewrite (bind_run _ _ _ _ _ (spine_at_run 0 _ c Hs0)).
  unfold bind at 1. unfold get_this at 1. cbv beta iota zeta.
  unfold bind at 1. unfold emit at 1. cbv beta iota zeta.
  unfold bind at 1. unfold segments_from, bind at 1, get_this at 1, ret at 1.
  cbv beta iota zeta. cbn [this renderer divisions app on_body].
  rewrite Hs, length_map. cbn [length].
  replace (S (length current) - 1)%nat with (length current) by lia.
  destruct (render_loop b (p :: previous) (c :: current) time Hinit
              (length current) 1
              (interpolate (Vector2.x p) (Vector2.x c) time,
               interpolate (Vector2.y p) (Vector2.y c) time)
              (Fin 0) (Fin 0)
              [cutStrip (interpolate (Vector2.x p) (Vector2.x c) time)
                 (interpolate (Vector2.y p) (Vector2.y c) time)
                 (number_at (u b) 0) (vCenter b)] [])
    as [locals Hloop]; [reflexivity|].
  cbn [fst snd] in Hloop. unfold bind at 1. rewrite Hloop. reflexivity.
Qed.

Lemma mul_one (a : Number) : (a * Fin 1)%js = a.
Proof.
  destruct a as [x| | |]; cbn; try reflexivity.
  - f_equal. lra.
  - destruct (Req_dec_T 1 0); [lra|]. destruct (Rlt_dec 0 1); [reflexivity|lra].
  - destruct (Req_dec_T 1 0); [lra|]. destruct (Rlt_dec 0 1); [reflexivity|lra].
Qed.

Lemma mul_infinity_zero : (NInf * Fin 0)%js = NaN.
Proof. cbn. destruct (Req_dec_T 0 0); [reflexivity|contradiction]. Qed.

(** At [time = 1] the centerline is made of the arrival points ... *)
Lemma centerline_arrivals : forall previous current,
  centerline (Fin 1) previous current = arrivals previous current.
Proof.
  induction previous as [|p previous IH]; intros [|c current]; try reflexivity.
  cbn [centerline arrivals]. rewrite IH. unfold centerline_point, arrival_point.
  now rewrite !mul_one.
Qed.

(** ... and at [time = 0] of the previous spine, when the offsets are
    finite. *)
Lemma centerline_start : forall previous current,
  length previous = length current ->
  Forall finite_vector (offsets previous current) ->
  centerline (Fin 0) previous current = coordinates previous.
Proof.
  induction previous as [|p previous IH]; intros [|c current] Hlen Hfin;
    try discriminate; [reflexivity|].
  cbn [offsets] in Hfin. inversion Hfin as [|? ? (dx & dy & Hd) Hfin']; subst.
  cbn [centerline coordinates map]. fold (coordinates previous).
  rewrite IH by (auto; now injection Hlen).
  f_equal. unfold Vector2.subtract in Hd. injection Hd as Hdx Hdy.
  destruct (sub_Fin_inv _ _ _ Hdx) as (cx & px & Hcx & Hpx & _).
  destruct (sub_Fin_inv _ _ _ Hdy) as (cy & py & Hcy & Hpy & _).
  unfold centerline_point. rewrite Hcx, Hpx, Hcy, Hpy.
  cbn [add sub mul opp]. f_equal; f_equal; lra.
Qed.

(** The rounded [p + (c - p)] lies near [c]. *)
Lemma arrives_near (u p c r : R) :
  0 <= u <= 1 -> arrives u p c r ->
  Rabs (r - c) <= u * (2 * Rabs (c - p) + Rabs c).
Proof.
  intros Hu (d & Hd & Hr). unfold rounds in *.
  set (e1 := d - (c - p)) in *. set (e2 := r - (p + d)) in *.
  replace (r - c) with (e1 + e2) by (unfold e1, e2; ring).
  assert (Hpd : Rabs (p + d) <= Rabs c + Rabs e1).
  { replace (p + d) with (c + e1) by (unfold e1; ring). apply Rabs_triang. }
  pose proof (Rabs_triang e1 e2) as Ht.
  pose proof (Rabs_pos (c - p)) as H1. pose proof (Rabs_pos c) as H2.
  pose proof (Rabs_pos e1) as H3.
  assert (H4 : u * Rabs (p + d) <= u * (Rabs c + Rabs e1))
    by (apply Rmult_le_compat_l; lra).
  assert (H5 : u * Rabs e1 <= 1 * Rabs e1)
    by (apply Rmult_le_compat_r; lra).
  lra.
Qed.

(** C10: [render] draws the strip of the centerline whose point for segment
    [i] is [spinePrevious[i] + (spine[i] - spinePrevious[i]) * time].  At
    [time = 0] that is the strip of the previous spine alone when every
    offset [spine[i] - spinePrevious[i]] is finite.  At [time = 1] it is the
    strip of the points [spinePrevious[i] + (spine[i] - spinePrevious[i])],
    and such a point lies at [spine[i]] up to rounding: when the two
    operations are rounded with a relative error of at most [u], within
    [u * (2 |spine[i] - spinePrevious[i]| + |spine[i]|)] of it in each
    coordinate. *)
Theorem interpolated_centerline (b : Body.t) (previous current : list Vector2.t)
    (time : Number) :
  initialised b previous current -> current <> [] ->
  render time (on_body b) =
    ({| this := b;
        renderer := strip_through b (centerline time previous current);
        divisions := [] |}, Normal tt) /\
  (Forall finite_vector (offsets previous current) ->
   render_output b (Fin 0) = strip_through b (coordinates previous)) /\
  render_output b (Fin 1) = strip_through b (arrivals previous current) /\
  (forall (i : nat) (px py cx cy : R),
     nth_error previous i = Some (vec px py) ->
     nth_error current i = Some (vec cx cy) ->
     nth_error (arrivals previous current) i
     = Some (Fin (px + (cx - px)), Fin (py + (cy - py))) /\
     forall u rx ry : R,
       0 <= u <= 1 -> arrives u px cx rx -> arrives u py cy ry ->
       Rabs (rx - cx) <= u * (2 * Rabs (cx - px) + Rabs cx) /\
       Rabs (ry - cy) <= u * (2 * Rabs (cy - py) + Rabs cy)).
Proof.
  intros Hinit Hne.
  split; [now apply render_strip|]. split; [|split].
  - intros Hfin. destruct Hinit as (Hs & Hp & Hlen).
    unfold render_output.
    rewrite (render_strip b previous current (Fin 0)) by (repeat split; auto).
    cbn [fst renderer]. now rewrite centerline_start.
  - unfold render_output.
    rewrite (render_strip b previous current (Fin 1) Hinit Hne).
    cbn [fst renderer]. now rewrite centerline_arrivals.
  - intros i px py cx cy Hp Hc. split.
    + rewrite <- centerline_arrivals.
      rewrite (centerline_nth _ _ _ _ _ _ Hp Hc).
      unfold centerline_point, vec. cbn [Vector2.x Vector2.y].
      rewrite !mul_one. reflexivity.
    + intros u rx ry Hu Hx Hy. split; now apply arrives_near.
Qed.

End Centerline.

(** C10 as stated fails on a body whose head comes back from infinity.  At
    [time = 0] the head is drawn at [Infinity + (0 - Infinity) * 0], which
    is NaN and not where the previous spine has it; at [time = 1] at
    [Infinity + (0 - Infinity) * 1], which is NaN and not where the current
    spine has it. *)
Lemma interpolated_centerline_counterexample :
  BodySpec.initialised returning_body far_spine small_spine /\
  BodySpec.render_output returning_body (JS.Fin 0)
    <> BodySpec.strip_through returning_body (BodySpec.coordinates far_spine) /\
  BodySpec.render_output returning_body (JS.Fin 1)
    <> BodySpec.strip_through returning_body (BodySpec.coordinates small_spine).
Proof.
  assert (Hinit : BodySpec.initialised returning_body far_spine small_spine)
    by (repeat split).
  split; [exact Hinit|].
  unfold BodySpec.render_output.
  rewrite !(render_strip returning_body far_spine small_spine _ Hinit)
    by discriminate.
  cbn [fst Body.renderer].
  unfold far_spine, small_spine, vec.
  cbn [BodySpec.centerline BodySpec.coordinates map BodySpec.strip_through
       BodySpec.centerline_point Vector2.x Vector2.y fst snd].
  split; intros E;
    apply (f_equal (fun l => match l with
                             | Body.cutStrip x _ _ _ :: _ => x
                             | _ => JS.NaN
                             end)) in E.
  - change (JS.Fin 0 - JS.PInf)%js with JS.NInf in E.
    rewrite mul_infinity_zero in E. discriminate E.
  - rewrite mul_one in E. discriminate E.
Qed.

(** Rendered at [time = 0], the moving body is drawn where it was; at
    [time = 1], where its previous spine and the offsets from it put it. *)
Lemma interpolated_centerline_witness :
  BodySpec.render_output moving_body (JS.Fin 0)
    = BodySpec.strip_through moving_body (BodySpec.coordinates shifted_spine) /\
  BodySpec.render_output moving_body (JS.Fin 1)
    = BodySpec.strip_through moving_body (arrivals shifted_spine small_spine).
Proof.
  destruct (interpolated_centerline moving_body shifted_spine small_spine
              (JS.Fin 0.5)) as (_ & H0 & H1 & _).
  - repeat split.
  - discriminate.
  - split; [apply H0|exact H1].
    repeat constructor; eexists _, _; reflexivity.
Defined.

(** * The small body is what the constructor and [initializeSpine] build *)

Section SmallBody.

Import JS Body BodySpec.
Local Open Scope R_scope.

Lemma array_length_real (r : R) (n : nat) :
  r = INR n -> (Z.of_nat n <= 4294967295)%Z -> array_length (Fin r) = Normal n.
Proof. intros -> H. now apply array_length_of_nat. Qed.

Lemma pow_zero (e : R) : 0 < e -> pow (Fin 0) (Fin e) = Fin 0.
Proof.
  intros He. unfold pow.
  destruct (Req_dec_T e 0); [lra|].
  destruct (Req_dec_T 0 0); [|contradiction].
  destruct (Rlt_dec 0 e); [reflexivity|contradiction].
Qed.

Lemma pow_positive (x e : R) :
  e <> 0 -> 0 < x -> pow (Fin x) (Fin e) = Fin (Rpower x e).
Proof.
  intros He Hx. unfold pow.
  destruct (Req_dec_T e 0); [contradiction|].
  destruct (Req_dec_T x 0); [lra|].
  destruct (Rlt_dec 0 x); [reflexivity|contradiction].
Qed.

Lemma Rpower_one (e : R) : Rpower 1 e = 1.
Proof. unfold Rpower. rewrite ln_1, Rmult_0_r. apply exp_0. Qed.

Lemma small_body_constructed :
  Body.new corner_pattern corner_pixel (Fin 0.2) (Fin 0.3)
    = Normal fresh_small_body.
Proof.
  assert (Hceil : Zceil (0.2 / 0.14) = 2%Z) by (apply Zceil_eq; lra).
  unfold Body.new, bindc, new_Array, RESOLUTION.
  rewrite div_Fin by lra. cbn [Math_ceil add]. rewrite Hceil.
  rewrite (array_length_real _ 3) by (simpl; lra || lia).
  cbn [repeat length].
  rewrite (array_length_of_nat 3) by lia.
  unfold makeRadii, makeSprings, makeU, makeVRadii, filled_Array.
  rewrite (array_length_of_nat 3) by lia.
  change (Fin 1) with (Fin (INR 1)).
  replace (Fin 2) with (Fin (INR 2)) by (simpl; f_equal; lra).
  rewrite !of_nat_minus by lia.
  rewrite !array_length_of_nat by lia.
  cbn [Nat.sub seq map].
  unfold fresh_small_body, small_body, with_spine, with_spinePrevious,
    corner_pattern, corner_pixel, SPRING_START, SPRING_END, SPRING_POWER, of_nat.
  cbn [pattern spine spinePrevious spacing inverseSpacing radii springs u
       vCenter vRadii phase slot size Vector2.x Vector2.y INR repeat].
  rewrite !div_Fin by lra.
  replace (0 / 1) with 0 by lra. replace ((1 + 1) / 1) with 2 by lra.
  replace (1 / 1) with 1 by lra.
  rewrite pow_zero by lra. rewrite pow_positive by lra. rewrite Rpower_one.
  cbn [add sub mul opp]. rewrite !div_Fin by lra.
  repeat (f_equal; try lra).
Qed.

Lemma small_body_initialized :
  initializeSpine (vec 0 0) (vec 1 0) (on_body fresh_small_body)
    = (on_body small_body, Normal tt).
Proof.
  unfold initializeSpine, bind, spine_assign, spinePrevious_assign, segments_from,
    spine_at, get_this, set_this, ret, on_body, fresh_small_body, small_body,
    with_spine, with_spinePrevious, Vector2.subtract, Vector2.multiply, vec.
  cbn. unfold vec, ret.
  repeat (f_equal; try lra).
Qed.

Lemma pinched_body_initialized :
  initializeSpine (vec 0 0) (vec 0 0) (on_body fresh_small_body)
    = (on_body pinched_body, Normal tt).
Proof.
  unfold initializeSpine, bind, spine_assign, spinePrevious_assign, segments_from,
    spine_at, get_this, set_this, ret, on_body, fresh_small_body, pinched_body,
    small_body, with_spine, with_spinePrevious, Vector2.subtract,
    Vector2.multiply, vec.
  cbn. unfold vec, ret.
  repeat (f_equal; try lra).
Qed.

End SmallBody.

(** * The constructor of the body *)

Section Constructor.

Import JS Body BodySpec.
Local Open Scope R_scope.

Lemma array_length_throws (len : Number) (e : Error) :
  array_length len = Throw e -> e = RangeError.
Proof.
  destruct len as [r| | |]; cbn; try congruence.
  destruct (Req_dec_T (IZR (Zfloor r)) r); [|congruence].
  destruct ((0 <=? Zfloor r)%Z && (Zfloor r <=? 4294967295)%Z); congruence.
Qed.

Lemma filled_Array_throws (len : Number) (first : nat) (f : nat -> Number)
    (e : Error) :
  filled_Array len first f = Throw e -> e = RangeError.
Proof.
  unfold filled_Array. destruct (array_length len) eqn:E; [discriminate|].
  intros H. injection H as <-. now apply array_length_throws in E.
Qed.

(** The number of segments of a constructed body, with the bound the array
    constructor puts on it. *)
Lemma new_count (p : Pattern) (atlasPixel : Vector2.t) (L thickness : Number)
    (b : Body.t) :
  Body.new p atlasPixel L thickness = Normal b ->
  exists (l : R) (n : nat),
    L = Fin l /\ length (spine b) = n /\ (2 <= n)%nat /\
    (Z.of_nat n <= 4294967295)%Z /\
    INR n = IZR (Zceil (l / 0.14)) + 1.
Proof.
  intros H. pose proof (new_inv _ _ _ _ _ H)
    as (n & Hn & Hcount & Hspine & _).
  assert (Hmax : (Z.of_nat n <= 4294967295)%Z).
  { unfold Body.new, bindc, new_Array in H. rewrite <- Hcount in H.
    destruct (array_length (of_nat n)) as [n'|] eqn:E; [|discriminate].
    apply array_length_inv in E. destruct E as [E Hmax].
    unfold of_nat in E. injection E as E. apply INR_eq in E. now subst. }
  destruct L as [l| | |];
    try (unfold of_nat, RESOLUTION in Hcount; cbn in Hcount;
         try match type of Hcount with
             | context [Rlt_dec ?a ?z] => destruct (Rlt_dec a z)
             end; discriminate Hcount).
  unfold of_nat, RESOLUTION in Hcount. cbn in Hcount.
  destruct (Req_dec_T 0.14 0) as [H0|_]; [lra|].
  cbn in Hcount. injection Hcount as Hcount.
  exists l, n. rewrite Hspine, repeat_length. auto.
Qed.

(** The fields a successful construction has filled in. *)
Lemma new_fields (p : Pattern) (atlasPixel : Vector2.t) (L thickness : Number)
    (b : Body.t) :
  Body.new p atlasPixel L thickness = Normal b ->
  let n := length (spine b) in
  pattern b = p /\
  inverseSpacing b = (Fin 1 / spacing b)%js /\
  radii b = map (fun _ => (thickness * Fin 0.5)%js) (seq 0 n) /\
  springs b =
    map (fun spring =>
           (SPRING_START + (SPRING_END - SPRING_START)
            * pow (of_nat spring / (of_nat n - Fin 2)) SPRING_POWER)%js)
      (seq 0 (n - 1)) /\
  u b =
    map (fun segment =>
           let uStart := (Vector2.x (slot p) + Vector2.x atlasPixel)%js in
           let uEnd := (Vector2.x (slot p) + Vector2.x (size p)
                        - Vector2.y atlasPixel)%js in
           (uStart + (uEnd - uStart) * of_nat segment / (of_nat n - Fin 1))%js)
      (seq 0 n) /\
  vCenter b = (Vector2.y (slot p) + Vector2.y (size p) * Fin 0.5)%js /\
  vRadii b =
    map (fun _ => (Vector2.y (size p) * Fin 0.5 - Vector2.y atlasPixel)%js)
      (seq 1 (n - 2)).
Proof.
  intros H. pose proof (new_inv _ _ _ _ _ H)
    as (n & Hn & _ & Hspine & _ & _ & Hr & Hs & Hu & Hv & _).
  rewrite Hspine, repeat_length. cbv zeta.
  unfold Body.new, bindc, new_Array in H.
  destruct (array_length _) as [n0|] eqn:E0 in H; [|discriminate].
  rewrite repeat_length in H.
  destruct (array_length _) as [n1|] eqn:E1 in H; [|discriminate].
  destruct (makeRadii _ _ _) as [r|] eqn:E2 in H; [|discriminate].
  destruct (makeSprings _ _ _ _) as [sp|] eqn:E3 in H; [|discriminate].
  destruct (makeU _ _ _) as [u0|] eqn:E4 in H; [|discriminate].
  destruct (makeVRadii _ _ _) as [v|] eqn:E5 in H; [|discriminate].
  injection H as <-.
  cbn [pattern inverseSpacing radii springs u vCenter vRadii spacing spine] in *.
  assert (n0 = n).
  { apply (f_equal (@length _)) in Hspine. now rewrite !repeat_length in Hspine. }
  subst n0.
  apply filled_Array_inv in E2, E3, E4, E5.
  destruct E2 as (n2 & _ & ->), E3 as (n3 & _ & ->),
           E4 as (n4 & _ & ->), E5 as (n5 & _ & ->).
  rewrite length_map, length_seq in Hr, Hs, Hu, Hv. subst.
  repeat split; reflexivity.
Qed.

(** X1: the constructor returns for exactly the lengths that are positive
    real numbers (up to the limit on array lengths); for every other length
    (zero, negative, infinite, not a number) it throws, and what it throws is
    a [RangeError] of [new Array]. *)
Theorem constructor_domain (p : Pattern) (atlasPixel : Vector2.t)
    (L thickness : Number) :
  ((exists b, Body.new p atlasPixel L thickness = Normal b) <->
   (exists l, L = Fin l /\ 0 < l /\ l / 0.14 <= 4294967294)) /\
  ((forall b, Body.new p atlasPixel L thickness <> Normal b) ->
   Body.new p atlasPixel L thickness = Throw RangeError).
Proof.
  split; [split|].
  - intros [b H]. apply new_count in H.
    destruct H as (l & n & -> & _ & Hn & Hmax & Hcount).
    exists l. split; [reflexivity|].
    pose proof (Zceil_bound (l / 0.14)) as [Hlow Hup].
    apply le_INR in Hn. apply IZR_le in Hmax. rewrite <- INR_IZR_INZ in Hmax.
    simpl in Hn. split; [|lra].
    assert (0 < l / 0.14) by lra.
    replace l with (l / 0.14 * 0.14) by (field; lra).
    apply Rmult_lt_0_compat; lra.
  - intros (l & -> & Hl & Hmax). now apply new_succeeds.
  - intros Hno. destruct (Body.new p atlasPixel L thickness) as [b|e] eqn:E;
      [now elim (Hno b)|].
    f_equal. unfold Body.new, bindc, new_Array in E.
    destruct (array_length _) as [n|e0] eqn:E0 in E;
      [|injection E as <-; now apply array_length_throws in E0].
    destruct (array_length _) as [n'|e1] eqn:E1 in E;
      [|injection E as <-; now apply array_length_throws in E1].
    destruct (makeRadii _ _ _) as [r|e2] eqn:E2 in E;
      [|injection E as <-; now apply filled_Array_throws in E2].
    destruct (makeSprings _ _ _ _) as [sp|e3] eqn:E3 in E;
      [|injection E as <-; now apply filled_Array_throws in E3].
    destruct (makeU _ _ _) as [u0|e4] eqn:E4 in E;
      [|injection E as <-; now apply filled_Array_throws in E4].
    destruct (makeVRadii _ _ _) as [v|e5] eqn:E5 in E;
      [discriminate|injection E as <-; now apply filled_Array_throws in E5].
Qed.

End Constructor.

(** * Powers of numbers between 0 and 1 *)

Section Powers.

Import JS.
Local Open Scope R_scope.

Lemma Rpower_positive (x e : R) : 0 < Rpower x e.
Proof. unfold Rpower. apply exp_pos. Qed.

(** A positive power is defined on the nonnegative reals and monotone
    there. *)
Lemma pow_le (x x' e : R) :
  0 <= x <= x' -> 0 < e ->
  exists y y', pow (Fin x) (Fin e) = Fin y /\ pow (Fin x') (Fin e) = Fin y' /\
               0 <= y <= y'.
Proof.
  intros [Hx Hxx'] He.
  destruct (Req_dec_T x 0) as [->|Hx0].
  - rewrite pow_zero by exact He.
    destruct (Req_dec_T x' 0) as [->|Hx'0].
    + rewrite pow_zero by exact He. exists 0, 0. repeat split; lra.
    + rewrite pow_positive by lra. eexists 0, _. repeat split; try lra.
      apply Rlt_le, Rpower_positive.
  - rewrite !pow_positive by lra. eexists _, _. repeat split.
    + apply Rlt_le, Rpower_positive.
    + apply Rle_Rpower_l; lra.
Qed.

Lemma pow_one (e : R) : pow (Fin 1) (Fin e) = Fin 1.
Proof.
  destruct (Req_dec_T e 0) as [->|He].
  - unfold pow. destruct (Req_dec_T 0 0); [reflexivity|contradiction].
  - rewrite pow_positive by lra. now rewrite Rpower_one.
Qed.

(** A positive power maps the unit interval into itself. *)
Lemma pow_unit (x e : R) :
  0 <= x <= 1 -> 0 < e ->
  exists y, pow (Fin x) (Fin e) = Fin y /\ 0 <= y <= 1.
Proof.
  intros Hx He.
  destruct (pow_le x 1 e ltac:(lra) He) as (y & y' & Hy & Hy' & Hyy').
  rewrite pow_one in Hy'. injection Hy' as <-. now exists y.
Qed.

End Powers.

Section ConstructedArrays.

Import JS Body BodySpec.
Local Open Scope R_scope.

Lemma number_at_map_seq (f : nat -> Number) (first m k : nat) :
  (k < m)%nat -> number_at (map f (seq first m)) k = f (first + k)%nat.
Proof.
  intros Hk. unfold number_at.
  rewrite (nth_indep _ NaN (f 0%nat)) by (now rewrite length_map, length_seq).
  rewrite map_nth. now rewrite seq_nth.
Qed.

(** The strength of the spring at [k] of the [m + 1] springs of a body with
    at least three segments. *)
Lemma spring_value (n k : nat) :
  (3 <= n)%nat -> (k <= n - 2)%nat ->
  exists y,
    pow (of_nat k / (of_nat n - Fin 2)) SPRING_POWER = Fin y /\
    0 <= y <= 1 /\ (k = 0%nat -> y = 0) /\ (k = (n - 2)%nat -> y = 1) /\
    forall k' y', (k <= k' <= n - 2)%nat ->
      pow (of_nat k' / (of_nat n - Fin 2)) SPRING_POWER = Fin y' -> y <= y'.
Proof.
  intros Hn Hk.
  assert (Hm : INR (n - 2) = INR n - 2).
  { rewrite minus_INR by lia. simpl. lra. }
  assert (Hpos : 1 <= INR (n - 2)).
  { replace 1 with (INR 1) by reflexivity. apply le_INR. lia. }
  assert (Hdiv : forall j, (of_nat j / (of_nat n - Fin 2))%js
                           = Fin (INR j / INR (n - 2))).
  { intros j. unfold of_nat. cbn [sub add opp].
    rewrite div_Fin by lra. do 2 f_equal. lra. }
  assert (Hfrac : forall j, (j <= n - 2)%nat -> 0 <= INR j / INR (n - 2) <= 1).
  { intros j Hj. apply le_INR in Hj. pose proof (pos_INR j). split.
    - apply Rmult_le_pos; [lra|]. apply Rlt_le, Rinv_0_lt_compat. lra.
    - apply (Rmult_le_reg_r (INR (n - 2))); [lra|].
      replace (INR j / INR (n - 2) * INR (n - 2)) with (INR j) by (field; lra).
      lra. }
  rewrite Hdiv. unfold SPRING_POWER.
  destruct (pow_unit (INR k / INR (n - 2)) 1.7 (Hfrac k Hk) ltac:(lra))
    as (y & Hy & Hy01).
  exists y. split; [exact Hy|]. split; [exact Hy01|]. repeat split.
  - intros ->. change (INR 0) with 0 in Hy.
    replace (0 / INR (n - 2)) with 0 in Hy by (field; lra).
    rewrite pow_zero in Hy by lra. now injection Hy.
  - intros ->. replace (INR (n - 2) / INR (n - 2)) with 1 in Hy by (field; lra).
    rewrite pow_one in Hy. now injection Hy.
  - intros k' y' Hk' Hy'. rewrite Hdiv in Hy'.
    destruct (pow_le (INR k / INR (n - 2)) (INR k' / INR (n - 2)) 1.7)
      as (z & z' & Hz & Hz' & Hzz'); [|lra|].
    + split; [apply Hfrac; lia|].
      apply Rmult_le_compat_r; [apply Rlt_le, Rinv_0_lt_compat; lra|].
      apply le_INR. lia.
    + rewrite Hz in Hy. rewrite Hz' in Hy'.
      injection Hy as <-. injection Hy' as <-. lra.
Qed.

(** X3: in a body of at least three segments the spring strengths are real
    numbers that start at [SPRING_START] (.9) at the head, end at
    [SPRING_START + (SPRING_END - SPRING_START) * 1] at the tail and never
    rise in between. *)
Theorem springs_fall (p : Pattern) (atlasPixel : Vector2.t)
    (L thickness : Number) (b : Body.t) :
  Body.new p atlasPixel L thickness = Normal b ->
  (3 <= length (spine b))%nat ->
  length (springs b) = (length (spine b) - 1)%nat /\
  number_at (springs b) 0 = SPRING_START /\
  number_at (springs b) (length (spine b) - 2)
  = (SPRING_START + (SPRING_END - SPRING_START) * Fin 1)%js /\
  forall i j, (i <= j < length (spine b) - 1)%nat ->
    exists si sj last,
      number_at (springs b) i = Fin si /\ number_at (springs b) j = Fin sj /\
      number_at (springs b) (length (spine b) - 2) = Fin last /\
      last <= sj /\ sj <= si /\ si <= 0.9.
Proof.
  intros H Hn. destruct (new_fields _ _ _ _ _ H) as (_ & _ & _ & Hs & _).
  cbv zeta in Hs. set (n := length (spine b)) in *.
  rewrite Hs, length_map, length_seq.
  assert (Hval : forall k, (k <= n - 2)%nat ->
            exists y,
              pow (of_nat k / (of_nat n - Fin 2)) SPRING_POWER = Fin y /\
              number_at
                (map (fun spring =>
                        (SPRING_START + (SPRING_END - SPRING_START)
                         * pow (of_nat spring / (of_nat n - Fin 2))
                             SPRING_POWER)%js)
                   (seq 0 (n - 1))) k
              = (SPRING_START + (SPRING_END - SPRING_START) * Fin y)%js).
  { intros k Hk. destruct (spring_value n k Hn Hk) as (y & Hy & _).
    exists y. split; [exact Hy|].
    rewrite number_at_map_seq by lia. cbn [Nat.add]. now rewrite Hy. }
  assert (Hreal : forall y,
            (SPRING_START + (SPRING_END - SPRING_START) * Fin y)%js
            = Fin (0.9 + (0.3 - 0.9) * y)).
  { intros y. unfold SPRING_START, SPRING_END. cbn [add sub mul opp].
    f_equal; lra. }
  split; [reflexivity|]. split; [|split].
  - destruct (Hval 0%nat ltac:(lia)) as (y & Hy & ->).
    destruct (spring_value n 0 Hn ltac:(lia)) as (y0 & Hy0 & _ & H0 & _).
    rewrite Hy0 in Hy. injection Hy as <-. rewrite H0 by reflexivity.
    rewrite Hreal. unfold SPRING_START. f_equal. lra.
  - destruct (Hval (n - 2)%nat ltac:(lia)) as (y & Hy & ->).
    destruct (spring_value n (n - 2) Hn ltac:(lia)) as (y0 & Hy0 & _ & _ & H1 & _).
    rewrite Hy0 in Hy. injection Hy as <-. now rewrite H1 by reflexivity.
  - intros i j Hij.
    destruct (Hval i ltac:(lia)) as (yi & Hyi & ->).
    destruct (Hval j ltac:(lia)) as (yj & Hyj & ->).
    destruct (Hval (n - 2)%nat ltac:(lia)) as (yl & Hyl & ->).
    destruct (spring_value n i Hn ltac:(lia)) as (y & Hy & Hy01 & _ & _ & Hmono).
    rewrite Hy in Hyi. injection Hyi as <-.
    pose proof (Hmono j yj ltac:(lia) Hyj).
    destruct (spring_value n j Hn ltac:(lia)) as (y' & Hy' & Hy'01 & _ & _ & Hmono').
    rewrite Hy' in Hyj. injection Hyj as <-.
    pose proof (Hmono' (n - 2)%nat yl ltac:(lia) Hyl).
    rewrite !Hreal. eexists _, _, _.
    split; [reflexivity|]. split; [reflexivity|]. split; [reflexivity|]. lra.
Qed.

End ConstructedArrays.

Section ShortBody.

Import JS Body BodySpec.
Local Open Scope R_scope.

(** A spring strength that is not a number makes the new position of the
    segment not a number. *)
Lemma relax_step_NaN_spring (spacing0 : Number) (previous current : Vector2.t)
    (xDir yDir : Number) :
  position (relax_step spacing0 NaN previous current xDir yDir) = not_a_vector.
Proof.
  unfold relax_step, not_a_vector. cbn [position].
  repeat first [ progress cbn [mul add sub opp div Math_sqrt]
               | rewrite add_NaN_r | rewrite mul_NaN_r | rewrite div_NaN_r ].
  reflexivity.
Qed.

(** [initializeSpine] and [update] on a body of two segments, run. *)
Lemma initializeSpine_two (b : Body.t) (s0 s1 p0 p1 : option Vector2.t)
    (head direction : Vector2.t) :
  spine b = [s0; s1] -> spinePrevious b = [p0; p1] ->
  let v := Vector2.subtract head (Vector2.multiply direction (spacing b)) in
  initializeSpine head direction (on_body b) =
    (on_body (with_spinePrevious (with_spine b [Some head; Some v])
                [Some head; Some v]), Normal tt).
Proof.
  intros Hs Hp. destruct b. cbn in Hs, Hp. subst. reflexivity.
Qed.

Lemma update_two (b : Body.t) (s0 s1 p0 p1 head : Vector2.t)
    (direction_angle speed : Number) (r : list command) (d : list Number) :
  spine b = [Some s0; Some s1] ->
  spinePrevious b = [Some p0; Some p1] ->
  let angle := swim_angle direction_angle (phase b) speed in
  let r1 := relax_step (spacing b) (number_at (springs b) 0) head s1
              (Math_cos angle) (Math_sin angle) in
  update head direction_angle speed {| this := b; renderer := r; divisions := d |}
  = ({| this :=
          with_phase
            (with_spine (with_spinePrevious b [Some s0; Some s1])
               [Some head; Some (position r1)])
            (advance_phase (phase b) speed);
        renderer := r;
        divisions := d ++ [distance r1; blended_distance r1] |},
     Normal tt).
Proof.
  intros Hs Hp. destruct b. cbn in Hs, Hp. subst.
  cbv zeta. unfold update, storePreviousState, relax, bind. cbn.
  rewrite <- !app_assoc. reflexivity.
Qed.

(** X4: a body no longer than [RESOLUTION] has two segments and one spring,
    whose strength is not a number ([makeSprings] divides 0 by
    [spine.length - 2]); its first [update] after [initializeSpine] returns
    and leaves NaN coordinates in the second segment, whatever the
    arguments of the two calls. *)
Theorem short_body_update (p : Pattern) (atlasPixel : Vector2.t) (l : R)
    (thickness : Number) (b : Body.t) :
  0 < l <= 0.14 ->
  Body.new p atlasPixel (Fin l) thickness = Normal b ->
  length (spine b) = 2%nat /\
  springs b = [NaN] /\
  forall (head direction head' : Vector2.t) (direction_angle speed : Number),
  exists s1 s2,
    initializeSpine head direction (on_body b) = (s1, Normal tt) /\
    update head' direction_angle speed s1 = (s2, Normal tt) /\
    spine (this s2) = [Some head'; Some not_a_vector].
Proof.
  intros Hl H.
  destruct (new_count _ _ _ _ _ H) as (l' & n & El & Hlen & _ & _ & Hcount).
  injection El as <-.
  assert (Hceil : Zceil (l / 0.14) = 1%Z).
  { apply Zceil_eq. split.
    - assert (0 < l / 0.14) by (apply Rdiv_lt_0_compat; lra). lra.
    - apply (Rmult_le_reg_r 0.14); [lra|].
      replace (l / 0.14 * 0.14) with l by (field; lra). lra. }
  rewrite Hceil in Hcount.
  assert (Hn : n = 2%nat) by (apply INR_eq; rewrite Hcount; simpl; lra).
  rewrite Hn in Hlen. clear Hn Hcount n.
  destruct (new_fields _ _ _ _ _ H) as (_ & _ & _ & Hs & _).
  cbv zeta in Hs. rewrite Hlen in Hs.
  cbn [Nat.sub seq map] in Hs.
  assert (Hnan : (of_nat 0 / (of_nat 2 - Fin 2))%js = NaN).
  { unfold of_nat. cbn [INR sub add opp]. now rewrite div_zero_zero by lra. }
  rewrite Hnan in Hs. unfold SPRING_POWER, pow in Hs.
  destruct (Req_dec_T 1.7 0) as [H0|_] in Hs; [lra|].
  rewrite mul_NaN_r, add_NaN_r in Hs.
  split; [exact Hlen|]. split; [exact Hs|].
  intros head direction head' direction_angle speed.
  destruct (new_inv _ _ _ _ _ H) as (n & _ & _ & Hspine & Hprev & _).
  assert (n = 2%nat) by (now rewrite Hspine, repeat_length in Hlen). subst n.
  cbn [repeat] in Hspine, Hprev.
  rewrite (initializeSpine_two b None None None None head direction Hspine Hprev).
  cbv zeta.
  set (v := Vector2.subtract head (Vector2.multiply direction (spacing b))).
  exists (on_body (with_spinePrevious (with_spine b [Some head; Some v])
                     [Some head; Some v])).
  unfold on_body.
  rewrite (update_two _ head v head v head' direction_angle speed [] [])
    by reflexivity.
  cbv zeta. eexists. split; [reflexivity|]. split; [reflexivity|].
  cbn [this spine with_phase with_spine with_spinePrevious springs].
  rewrite Hs. cbn [number_at nth]. now rewrite relax_step_NaN_spring.
Qed.

End ShortBody.

(** * A body of two segments *)

Section TwoSegments.

Import JS Body BodySpec.
Local Open Scope R_scope.

(** What the constructor leaves of a body no longer than [RESOLUTION]: two
    empty slots in each spine, one spring strength, which is not a number,
    and the length as the spacing. *)
Lemma short_body_fields (p : Pattern) (atlasPixel : Vector2.t) (l : R)
    (thickness : Number) (b : Body.t) :
  0 < l <= 0.14 ->
  Body.new p atlasPixel (Fin l) thickness = Normal b ->
  spine b = [None; None] /\ spinePrevious b = [None; None] /\
  springs b = [NaN] /\ spacing b = Fin l.
Proof.
  intros Hl H.
  destruct (new_count _ _ _ _ _ H) as (l' & n & El & Hlen & _ & _ & Hcount).
  injection El as <-.
  assert (Hceil : Zceil (l / 0.14) = 1%Z).
  { apply Zceil_eq. split.
    - assert (0 < l / 0.14) by (apply Rdiv_lt_0_compat; lra). lra.
    - apply (Rmult_le_reg_r 0.14); [lra|].
      replace (l / 0.14 * 0.14) with l by (field; lra). lra. }
  rewrite Hceil in Hcount.
  assert (Hn : n = 2%nat) by (apply INR_eq; rewrite Hcount; simpl; lra).
  rewrite Hn in Hlen. clear Hn Hcount n.
  destruct (new_fields _ _ _ _ _ H) as (_ & _ & _ & Hs & _).
  cbv zeta in Hs. rewrite Hlen in Hs.
  cbn [Nat.sub seq map] in Hs.
  assert (Hnan : (of_nat 0 / (of_nat 2 - Fin 2))%js = NaN).
  { unfold of_nat. cbn [INR sub add opp]. now rewrite div_zero_zero by lra. }
  rewrite Hnan in Hs. unfold SPRING_POWER, pow in Hs.
  destruct (Req_dec_T 1.7 0) as [H0|_] in Hs; [lra|].
  rewrite mul_NaN_r, add_NaN_r in Hs.
  destruct (new_inv _ _ _ _ _ H) as (n & _ & _ & Hspine & Hprev & Hsp & _).
  assert (n = 2%nat) by (now rewrite Hspine, repeat_length in Hlen). subst n.
  cbn [repeat] in Hspine, Hprev.
  split; [exact Hspine|]. split; [exact Hprev|]. split; [exact Hs|].
  rewrite Hsp. unfold of_nat. cbn [INR sub add opp].
  rewrite div_Fin by lra. f_equal. field.
Qed.

(** A spring strength that is not a number makes the blended distance not a
    number. *)
Lemma relax_step_NaN_spring_distance (spacing0 : Number)
    (previous current : Vector2.t) (xDir yDir : Number) :
  blended_distance (relax_step spacing0 NaN previous current xDir yDir) = NaN.
Proof.
  unfold relax_step. cbn [blended_distance].
  repeat first [ progress cbn [mul add sub opp div Math_sqrt]
               | rewrite add_NaN_r | rewrite mul_NaN_r | rewrite div_NaN_r ].
  reflexivity.
Qed.

(** The body of length .1, laid out from the origin along the x axis and
    ticked with its head moved by half a spacing: the two segments are a
    spacing apart before the tick, the tick divides by their distance from
    the moved head, which is not zero, and by a NaN, and puts the second
    segment at [(NaN, NaN)]. *)
Lemma short_tick :
  exists b s1 s2 d,
    Body.new corner_pattern corner_pixel (Fin 0.1) (Fin 0.3) = Normal b /\
    initializeSpine (vec 0 0) (vec 1 0) (on_body b) = (s1, Normal tt) /\
    spine (this s1) = [Some (vec 0 0); Some (vec (-0.1) 0)] /\
    update (vec 0.05 0) (Fin 0) (Fin 0.05) s1 = (s2, Normal tt) /\
    spacing (this s2) = Fin 0.1 /\
    divisions s2 = [Fin d; NaN] /\ d <> 0 /\
    spine (this s2) = [Some (vec 0.05 0); Some not_a_vector].
Proof.
  destruct (new_succeeds corner_pattern corner_pixel 0.1 (Fin 0.3))
    as [b Hb]; [lra | lra |].
  destruct (short_body_fields _ _ 0.1 _ _ ltac:(lra) Hb)
    as (Hspine & Hprev & Hsprings & Hsp).
  exists b.
  rewrite (initializeSpine_two b None None None None (vec 0 0) (vec 1 0)
             Hspine Hprev).
  cbv zeta. rewrite Hsp.
  assert (Hv : Vector2.subtract (vec 0 0) (Vector2.multiply (vec 1 0) (Fin 0.1))
               = vec (-0.1) 0).
  { unfold Vector2.subtract, Vector2.multiply, vec.
    cbn [Vector2.x Vector2.y sub add opp mul]. f_equal; f_equal; lra. }
  rewrite Hv. eexists. eexists. eexists.
  split; [exact Hb|]. split; [reflexivity|]. split; [reflexivity|].
  unfold on_body.
  rewrite (update_two _ (vec 0 0) (vec (-0.1) 0) (vec 0 0) (vec (-0.1) 0)
             (vec 0.05 0) (Fin 0) (Fin 0.05) [] []) by reflexivity.
  cbv zeta. split; [reflexivity|].
  cbn [this spine spacing divisions with_phase with_spine with_spinePrevious
       springs app].
  rewrite Hsprings, Hsp. cbn [number_at nth].
  rewrite relax_step_NaN_spring, relax_step_NaN_spring_distance.
  split; [reflexivity|].
  unfold relax_step, vec. cbn [distance Vector2.x Vector2.y sub add opp mul].
  rewrite sqrt_Fin by apply sum_squares_nonneg.
  split; [reflexivity|]. split; [|reflexivity].
  intros H0. apply sqrt_eq_0 in H0; nra.
Qed.

End TwoSegments.

(** C1 as stated fails on a body of two segments.  The body of length .1,
    laid out along the x axis, has its two segments a spacing apart; the
    tick that moves its head by half a spacing divides by no zero (the
    distance to the moved head is not zero, and the blended distance is not
    a number, since the one spring strength is not), and leaves the second
    segment at no distance from the head: the distance is NaN, not the
    spacing. *)
Lemma spacing_preservation_counterexample :
  exists b s1 s2,
    Body.new corner_pattern corner_pixel (JS.Fin 0.1) (JS.Fin 0.3) = JS.Normal b /\
    Body.initializeSpine (vec 0 0) (vec 1 0) (BodySpec.on_body b)
      = (s1, JS.Normal tt) /\
    BodySpec.linked (fun previous current => previous <> current)
      (Body.spine (Body.this s1)) 1 /\
    Body.update (vec 0.05 0) (JS.Fin 0) (JS.Fin 0.05) s1 = (s2, JS.Normal tt) /\
    ~ In (JS.Fin 0) (Body.divisions s2) /\
    BodySpec.linked
      (fun previous current =>
         BodySpec.distance_between current previous = JS.NaN /\
         BodySpec.distance_between current previous <> Body.spacing (Body.this s2))
      (Body.spine (Body.this s2)) 1.
Proof.
  destruct short_tick
    as (b & s1 & s2 & d & Hb & H1 & Hs1 & H2 & Hsp & Hdiv & Hd & Hs2).
  exists b, s1, s2. split; [exact Hb|]. split; [exact H1|].
  split; [|split; [exact H2|split]].
  - rewrite Hs1. eexists _, _. split; [reflexivity|]. split; [reflexivity|].
    intros E. injection E as E. lra.
  - rewrite Hdiv. intros [E|[E|[]]]; [|discriminate].
    injection E as E. contradiction.
  - rewrite Hs2, Hsp. eexists _, _. split; [reflexivity|]. split; [reflexivity|].
    split; [reflexivity|discriminate].
Qed.

(** C7 as stated fails on a body of two segments.  The two segments of the
    body of length .1 are distinct, the tick that moves its head divides by
    no zero, and yet the second segment ends at [(NaN, NaN)]: the one spring
    strength of such a body is not a number. *)
Lemma degenerate_geometry_counterexample :
  exists b s1 s2,
    Body.new corner_pattern corner_pixel (JS.Fin 0.1) (JS.Fin 0.3) = JS.Normal b /\
    Body.initializeSpine (vec 0 0) (vec 1 0) (BodySpec.on_body b)
      = (s1, JS.Normal tt) /\
    Body.spine (Body.this s1) = [Some (vec 0 0); Some (vec (-0.1) 0)] /\
    vec 0 0 <> vec (-0.1) 0 /\
    Body.update (vec 0.05 0) (JS.Fin 0) (JS.Fin 0.05) s1 = (s2, JS.Normal tt) /\
    ~ In (JS.Fin 0) (Body.divisions s2) /\
    JS.array_get (Body.spine (Body.this s2)) 1 = Some not_a_vector.
Proof.
  destruct short_tick
    as (b & s1 & s2 & d & Hb & H1 & Hs1 & H2 & Hsp & Hdiv & Hd & Hs2).
  exists b, s1, s2. split; [exact Hb|]. split; [exact H1|].
  split; [exact Hs1|]. split; [|split; [exact H2|split]].
  - intros E. injection E as E. lra.
  - rewrite Hdiv. intros [E|[E|[]]]; [|discriminate].
    injection E as E. contradiction.
  - now rewrite Hs2.
Qed.

Section TextureU.

Import JS Body BodySpec.
Local Open Scope R_scope.

(** X5: the texture coordinates [u] of a constructed body, one for each
    segment: entry [k] is [uStart + (uEnd - uStart) * k / (N - 1)] for
    [uStart = slot.x + atlasPixel.x] and
    [uEnd = slot.x + size.x - atlasPixel.y] (the pixel's height, not its
    width), and the first is [uStart] when [uStart] and [uEnd - uStart] are
    real numbers. *)
Theorem texture_u_values (p : Pattern) (atlasPixel : Vector2.t)
    (L thickness : Number) (b : Body.t) :
  Body.new p atlasPixel L thickness = Normal b ->
  let uStart := (Vector2.x (slot p) + Vector2.x atlasPixel)%js in
  let uEnd := (Vector2.x (slot p) + Vector2.x (size p) - Vector2.y atlasPixel)%js in
  length (u b) = length (spine b) /\
  (forall k, (k < length (spine b))%nat ->
     number_at (u b) k
     = (uStart + (uEnd - uStart) * of_nat k
                 / (of_nat (length (spine b)) - Fin 1))%js) /\
  (forall su du : R, uStart = Fin su -> (uEnd - uStart)%js = Fin du ->
     number_at (u b) 0 = uStart).
Proof.
  intros H uStart uEnd.
  destruct (new_count _ _ _ _ _ H) as (l & n & _ & Hlen & Hn & _).
  destruct (new_fields _ _ _ _ _ H) as (_ & _ & _ & _ & Hu & _).
  cbv zeta in Hu. rewrite Hlen in *. fold uStart uEnd in Hu.
  assert (Hval : forall k, (k < n)%nat ->
            number_at (u b) k
            = (uStart + (uEnd - uStart) * of_nat k / (of_nat n - Fin 1))%js).
  { intros k Hk. rewrite Hu, number_at_map_seq by exact Hk. reflexivity. }
  split; [now rewrite Hu, length_map, length_seq|].
  split; [exact Hval|].
  intros su du Hsu Hdu. rewrite Hval by lia. rewrite Hdu, Hsu.
  assert (Hm : 1 <= INR n - 1).
  { apply le_INR in Hn. simpl in Hn. lra. }
  unfold of_nat. cbn [INR add sub mul opp].
  rewrite div_Fin by lra. cbn [add]. f_equal. field. lra.
Qed.

End TextureU.

Section Uninitialised.

Import JS Body BodySpec.

(** X6: on a body that has just been constructed, before [initializeSpine],
    both [update] and [render] throw a [TypeError] at the first empty slot
    they read, and leave the body, the renderer and everything else as they
    were. *)
Theorem uninitialised_body_throws (p : Pattern) (atlasPixel : Vector2.t)
    (L thickness : Number) (b : Body.t) :
  Body.new p atlasPixel L thickness = Normal b ->
  forall (head : Vector2.t) (direction_angle speed time : Number)
         (r : list command) (d : list Number),
    let s := {| this := b; renderer := r; divisions := d |} in
    update head direction_angle speed s = (s, Throw TypeError) /\
    render time s = (s, Throw TypeError).
Proof.
  intros H head direction_angle speed time r d s.
  destruct (new_inv _ _ _ _ _ H) as (n & Hn & _ & Hspine & Hprev & _).
  destruct n as [|n]; [lia|].
  assert (Hp0 : spinePrevious_at 0 s = (s, Throw TypeError)).
  { unfold spinePrevious_at, bind, get_this, throw. cbn [this s].
    now rewrite Hprev. }
  assert (Hstore : storePreviousState s = (s, Throw TypeError)).
  { unfold storePreviousState, segments_from.
    unfold bind at 1. unfold bind at 1. unfold get_this at 1, ret at 1.
    cbn [this s]. rewrite Hspine, repeat_length. cbn [Nat.sub seq for_each].
    fold s. unfold bind at 1.
    now rewrite (bind_throw _ _ _ _ _ Hp0). }
  split.
  - unfold update. now rewrite (bind_throw _ _ _ _ _ Hstore).
  - unfold render. now rewrite (bind_throw _ _ _ _ _ Hp0).
Qed.

End Uninitialised.

(** * What the methods leave alone *)

Section Frame.

Import JS Body BodySpec.

Context {X : Type} (f : Body.t -> X) (x : X).
Hypothesis f_spine : forall b l, f (with_spine b l) = f b.
Hypothesis f_spinePrevious : forall b l, f (with_spinePrevious b l) = f b.
Hypothesis f_phase : forall b p, f (with_phase b p) = f b.

Lemma fixed_spine_assign (i : nat) (v : Vector2.t) :
  keeps (fixed f x) (spine_assign i v).
Proof. intros s H. cbn. unfold fixed in *. cbn. now rewrite f_spine. Qed.

Lemma fixed_spinePrevious_assign (i : nat) (v : Vector2.t) :
  keeps (fixed f x) (spinePrevious_assign i v).
Proof. intros s H. cbn. unfold fixed in *. cbn. now rewrite f_spinePrevious. Qed.

Lemma fixed_emit (c : command) : keeps (fixed f x) (emit c).
Proof. intros s H. exact H. Qed.

Ltac fixed_step :=
  lazymatch goal with
  | |- keeps _ (bind get_this (fun _ => set_this _)) =>
      let s := fresh "s" in
      let H := fresh "H" in
      intros s H; cbn; unfold fixed in *; cbn; now rewrite f_phase
  | |- keeps _ (bind _ _) => apply keeps_bind
  | |- keeps _ (for_each _ _ _) => apply keeps_for_each
  | |- keeps _ (spinePrevious_at _) => apply keeps_spinePrevious_at
  | |- keeps _ (spine_at _) => apply keeps_spine_at
  | |- keeps _ get_this => apply keeps_get_this
  | |- keeps _ (segments_from _) => apply keeps_segments_from
  | |- keeps _ (spine_put _ _) => apply fixed_spine_put; intros; apply f_spine
  | |- keeps _ (spinePrevious_put _ _) =>
      apply fixed_spinePrevious_put; intros; apply f_spinePrevious
  | |- keeps _ (spine_assign _ _) => apply fixed_spine_assign
  | |- keeps _ (spinePrevious_assign _ _) => apply fixed_spinePrevious_assign
  | |- keeps _ (divided_by _) => apply fixed_divided_by
  | |- keeps _ (emit _) => apply fixed_emit
  | |- keeps _ (ret _) => apply keeps_ret
  | |- keeps _ (throw _) => apply keeps_throw
  | |- keeps _ storePreviousState =>
      apply fixed_storePreviousState; intros; apply f_spinePrevious
  | |- keeps _ (relax _ _) => apply fixed_relax; intros; apply f_spine
  | |- keeps _ (render_segment _ _ ?l) =>
      destruct l as [[[? ?] ?] ?]; unfold render_segment
  | |- forall _, _ => intro
  | |- _ => progress cbv beta iota zeta
  end.

Lemma fixed_initializeSpine (head direction : Vector2.t) :
  keeps (fixed f x) (initializeSpine head direction).
Proof. unfold initializeSpine. repeat fixed_step. Qed.

(** The statements of [update] after [storePreviousState]. *)
Lemma fixed_update (head : Vector2.t) (direction_angle speed : Number) :
  keeps (fixed f x) (update head direction_angle speed).
Proof.
  unfold update. repeat fixed_step.
Qed.

Lemma fixed_render (time : Number) : keeps (fixed f x) (render time).
Proof. unfold render. repeat fixed_step. Qed.

Lemma fixed_run_calls (calls : list method_call) :
  forall s, fixed f x s -> fixed f x (run_calls calls s).
Proof.
  induction calls as [|c calls IH]; intros s H; [exact H|].
  cbn [run_calls fold_left]. apply IH. destruct c as [h d|h a v|t]; cbn [run_call].
  - pose proof (fixed_initializeSpine h d s H) as K.
    destruct (initializeSpine h d s) as [s' [[]|e]]; exact K.
  - pose proof (fixed_update h a v s H) as K.
    destruct (update h a v s) as [s' [[]|e]]; exact K.
  - pose proof (fixed_render t s H) as K.
    destruct (render t s) as [s' [[]|e]]; exact K.
Qed.

End Frame.

Section ConstructionFields.

Import JS Body BodySpec.

(** X7: no call of [initializeSpine], [update] or [render], in any number
    and order and whether it returns or throws, changes a field the
    constructor has filled in: the pattern, the spacing and its inverse, the
    radii, the spring strengths and the texture coordinates. *)
Theorem construction_fields_constant (calls : list method_call) (s : store) :
  built (this (run_calls calls s)) = built (this s).
Proof. now apply (fixed_run_calls built (built (this s))). Qed.

End ConstructionFields.

(** * The spine [initializeSpine] lays out *)

Section Trail.

Import JS Body BodySpec.
Local Open Scope R_scope.

Lemma array_set_app {A : Type} (v : A) (l1 : list (option A)) (x : option A)
    (l2 : list (option A)) (i : nat) :
  length l1 = i -> array_set i v (l1 ++ x :: l2) = l1 ++ Some v :: l2.
Proof.
  intros <-. induction l1 as [|h l1 IH]; cbn; [reflexivity|]. now rewrite IH.
Qed.

Lemma array_get_app_last {A : Type} (l1 : list A) (v : A)
    (l2 : list (option A)) :
  array_get (map Some (l1 ++ [v]) ++ l2) (length l1) = Some v.
Proof.
  unfold array_get. rewrite nth_error_app1
    by (rewrite length_map, length_app; cbn; lia).
  rewrite nth_error_map, nth_error_app2, Nat.sub_diag by lia. reflexivity.
Qed.

Lemma trail_S (head step : Vector2.t) (n : nat) :
  trail head step (S n) = trail head step n ++ [trail_point head step n].
Proof. unfold trail. now rewrite seq_S, map_app. Qed.

Lemma length_trail (head step : Vector2.t) (n : nat) :
  length (trail head step n) = n.
Proof. unfold trail. now rewrite length_map, length_seq. Qed.

(** The loop of [initializeSpine] from segment [j] on: the segments before
    [j] are laid out, the slots from [j] on hold what they held. *)
Lemma initializeSpine_trail_loop (b : Body.t) (head direction : Vector2.t)
    (r : list command) (d : list Number) :
  let step := Vector2.multiply direction (spacing b) in
  forall (m j : nat) (rest rest' : list (option Vector2.t)),
    length rest = m -> length rest' = m ->
    for_each (seq (S j) m)
      (fun segment _ =>
         bind (spine_at (segment - 1)) (fun previous =>
         bind get_this (fun b =>
         let v := Vector2.subtract previous
                    (Vector2.multiply direction (spacing b)) in
         bind (spine_assign segment v) (fun _ =>
         spinePrevious_assign segment v))))
      tt
      {| this :=
           with_spinePrevious
             (with_spine b (map Some (trail head step (S j)) ++ rest))
             (map Some (trail head step (S j)) ++ rest');
         renderer := r; divisions := d |}
    = ({| this :=
            with_spinePrevious
              (with_spine b (map Some (trail head step (S j + m))))
              (map Some (trail head step (S j + m)));
          renderer := r; divisions := d |}, Normal tt).
Proof.
  intros step. induction m as [|m IH]; intros j rest rest' Hrest Hrest'.
  - destruct rest; [|discriminate]. destruct rest'; [|discriminate].
    rewrite !app_nil_r, Nat.add_0_r. reflexivity.
  - destruct rest as [|x rest]; [discriminate|].
    destruct rest' as [|x' rest']; [discriminate|].
    cbn [seq for_each].
    match goal with
    | |- bind ?first ?k ?s = _ =>
        assert (Hstep : first s =
          ({| this :=
                with_spinePrevious
                  (with_spine b
                     (map Some (trail head step (S (S j))) ++ rest))
                  (map Some (trail head step (S (S j))) ++ rest');
              renderer := r; divisions := d |}, Normal tt))
    end.
    { replace (S j - 1)%nat with j by lia.
      erewrite bind_run; cycle 1.
      { apply spine_at_run. cbn [this spine with_spine with_spinePrevious].
        rewrite trail_S.
        pose proof (array_get_app_last (trail head step j)
                      (trail_point head step j) (x :: rest)) as Hg.
        rewrite length_trail in Hg. exact Hg. }
      cbv beta iota zeta delta
        [bind get_this spine_assign spinePrevious_assign set_this].
      cbn [this spine spinePrevious with_spine with_spinePrevious spacing
           renderer divisions].
      fold step.
      change (Vector2.subtract (trail_point head step j) step)
        with (trail_point head step (S j)).
      rewrite !array_set_app by (now rewrite length_map, length_trail).
      rewrite (trail_S _ _ (S j)), !map_app, <- !app_assoc.
      reflexivity. }
    rewrite (bind_run _ _ _ _ _ Hstep).
    replace (S j + S m)%nat with (S (S j) + m)%nat by lia.
    apply (IH (S j) rest rest'); cbn in *; lia.
Qed.

(** X8: [initializeSpine] returns on every body whose two spines have the
    same number of slots, at least one, whatever the slots held and whatever
    the numbers handed in; it leaves the head in segment 0 and in each
    further segment the segment before it less
    [direction * spacing], in the spine and in the previous spine alike, and
    changes nothing else. *)
Theorem initializeSpine_trail (b : Body.t) (head direction : Vector2.t)
    (r : list command) (d : list Number) :
  (1 <= length (spine b))%nat ->
  length (spinePrevious b) = length (spine b) ->
  let points :=
    trail head (Vector2.multiply direction (spacing b)) (length (spine b)) in
  initializeSpine head direction
    {| this := b; renderer := r; divisions := d |}
  = ({| this := with_spinePrevious (with_spine b (map Some points))
                  (map Some points);
        renderer := r; divisions := d |}, Normal tt).
Proof.
  intros Hn Hlen points. subst points.
  destruct (spine b) as [|x rest] eqn:Es; [cbn in Hn; lia|].
  destruct (spinePrevious b) as [|x' rest'] eqn:Ep; [discriminate|].
  unfold initializeSpine.
  assert (H0 : spine_assign 0 head
                 {| this := b; renderer := r; divisions := d |}
               = ({| this := with_spine b (Some head :: rest);
                     renderer := r; divisions := d |}, Normal tt)).
  { unfold spine_assign, bind, get_this, set_this. cbn [this renderer divisions].
    now rewrite Es. }
  rewrite (bind_run _ _ _ _ _ H0).
  assert (H1 : spinePrevious_assign 0 head
                 {| this := with_spine b (Some head :: rest);
                    renderer := r; divisions := d |}
               = ({| this :=
                       with_spinePrevious
                         (with_spine b (Some head :: rest))
                         (Some head :: rest');
                     renderer := r; divisions := d |}, Normal tt)).
  { unfold spinePrevious_assign, bind, get_this, set_this.
    cbn [this renderer divisions spinePrevious with_spine]. now rewrite Ep. }
  rewrite (bind_run _ _ _ _ _ H1).
  unfold bind at 1. unfold segments_from, bind at 1, get_this at 1, ret at 1.
  cbn [this spine with_spine with_spinePrevious length Nat.sub].
  rewrite Nat.sub_0_r.
  pose proof (initializeSpine_trail_loop b head direction r d (length rest) 0
                rest rest' eq_refl) as Hloop.
  cbv zeta in Hloop.
  unfold trail in Hloop at 1 2. cbn [seq map app] in Hloop.
  change (trail_point head (Vector2.multiply direction (spacing b)) 0)
    with head in Hloop.
  apply Hloop. cbn in Hlen. lia.
Qed.

End Trail.

(** * The previous spine is the spine of the tick before *)

Section Snapshot.

Import JS Body BodySpec.

Lemma replace_at_app {A : Type} (v : A) (l1 : list (option A)) (x : option A)
    (l2 : list (option A)) (i : nat) :
  length l1 = i -> replace_at i v (l1 ++ x :: l2) = l1 ++ Some v :: l2.
Proof.
  intros <-. induction l1 as [|h l1 IH]; cbn; [reflexivity|]. now rewrite IH.
Qed.

(** The loop of [storePreviousState] from segment [j] on. *)
Lemma storePreviousState_loop (b : Body.t) (previous current : list Vector2.t)
    (r : list command) (d : list Number) :
  initialised b previous current ->
  forall m j : nat,
    (j + m = length current)%nat ->
    for_each (seq j m)
      (fun segment _ =>
         bind (spinePrevious_at segment) (fun _ =>
         bind (spine_at segment) (fun current0 =>
         spinePrevious_put segment current0)))
      tt
      {| this :=
           with_spinePrevious b
             (map Some (firstn j current ++ skipn j previous));
         renderer := r; divisions := d |}
    = ({| this := with_spinePrevious b (map Some current);
          renderer := r; divisions := d |}, Normal tt).
Proof.
  intros (Hs & Hp & Hlen). induction m as [|m IH]; intros j Hj.
  - rewrite firstn_all2, skipn_all2, app_nil_r by lia. reflexivity.
  - destruct (nth_error previous j) as [p|] eqn:Ep;
      [|apply nth_error_None in Ep; lia].
    destruct (nth_error current j) as [c|] eqn:Ec;
      [|apply nth_error_None in Ec; lia].
    cbn [seq for_each].
    assert (Hj' : length (map Some (firstn j current)) = j).
    { rewrite length_map, length_firstn. lia. }
    match goal with
    | |- bind ?first ?k ?s = _ =>
        assert (Hstep : first s =
          ({| this :=
                with_spinePrevious b
                  (map Some (firstn (S j) current ++ skipn (S j) previous));
              renderer := r; divisions := d |}, Normal tt))
    end.
    { erewrite bind_run; cycle 1.
      { apply spinePrevious_at_run.
        cbn [this spinePrevious with_spinePrevious].
        rewrite array_get_map_Some, nth_error_app2
          by (rewrite length_firstn; lia).
        rewrite length_firstn, Nat.min_l, Nat.sub_diag by lia.
        rewrite (skipn_nth_error _ _ _ Ep). reflexivity. }
      erewrite bind_run; cycle 1.
      { apply spine_at_run. cbn [this spine with_spinePrevious].
        rewrite Hs, array_get_map_Some. exact Ec. }
      unfold spinePrevious_put, bind, get_this, set_this.
      cbn [this spinePrevious with_spinePrevious renderer divisions].
      rewrite (skipn_nth_error _ _ _ Ep), map_app. cbn [map].
      rewrite replace_at_app by exact Hj'.
      rewrite (firstn_S_nth_error _ _ _ Ec), <- app_assoc, !map_app.
      reflexivity. }
    rewrite (bind_run _ _ _ _ _ Hstep).
    apply (IH (S j)). lia.
Qed.

(** [storePreviousState], run: the previous spine becomes a copy of the
    spine. *)
Lemma storePreviousState_run (b : Body.t) (previous current : list Vector2.t)
    (r : list command) (d : list Number) :
  initialised b previous current ->
  storePreviousState {| this := b; renderer := r; divisions := d |}
  = ({| this := with_spinePrevious b (map Some current);
        renderer := r; divisions := d |}, Normal tt).
Proof.
  intros Hinit. pose proof Hinit as (Hs & Hp & Hlen).
  unfold storePreviousState.
  unfold bind at 1. unfold segments_from, bind at 1, get_this at 1, ret at 1.
  cbn [this]. rewrite Hs, length_map, Nat.sub_0_r.
  pose proof (storePreviousState_loop b previous current r d Hinit
                (length current) 0 eq_refl) as Hloop.
  cbn [firstn skipn app] in Hloop. rewrite <- Hp in Hloop.
  destruct b. exact Hloop.
Qed.

Ltac tail_step :=
  lazymatch goal with
  | |- keeps _ (bind get_this (fun _ => set_this _)) =>
      let s := fresh "s" in
      let H := fresh "H" in
      intros s H; exact H
  | |- keeps _ (bind _ _) => apply keeps_bind
  | |- keeps _ (for_each _ _ _) => apply keeps_for_each
  | |- keeps _ (spine_at _) => apply keeps_spine_at
  | |- keeps _ get_this => apply keeps_get_this
  | |- keeps _ (segments_from _) => apply keeps_segments_from
  | |- keeps _ (spine_put _ _) => apply fixed_spine_put; intros; reflexivity
  | |- keeps _ (relax _ _) => apply fixed_relax; intros; reflexivity
  | |- forall _, _ => intro
  | |- _ => progress cbv beta iota zeta
  end.

(** After an [update] that returns, the previous spine is the spine the
    call found. *)
Lemma update_previous (b : Body.t) (previous current : list Vector2.t)
    (head : Vector2.t) (direction_angle speed : Number) (s' : store) :
  initialised b previous current ->
  update head direction_angle speed (on_body b) = (s', Normal tt) ->
  spinePrevious (this s') = map Some current.
Proof.
  intros Hinit Hrun. unfold update, on_body in Hrun.
  rewrite (bind_run _ _ _ _ _
             (storePreviousState_run b previous current [] [] Hinit)) in Hrun.
  match type of Hrun with
  | ?tail ?s = _ =>
      assert (Hkeep : keeps (fixed spinePrevious (map Some current)) tail)
        by repeat tail_step;
      specialize (Hkeep s eq_refl)
  end.
  rewrite Hrun in Hkeep. exact Hkeep.
Qed.

(** X10: an [update] on a body whose spines are filled returns; afterwards
    the previous spine is the spine as the call found it, the head is the
    first segment, and the spine has as many segments as before. *)
Theorem update_snapshot (b : Body.t) (previous current : list Vector2.t)
    (head : Vector2.t) (direction_angle speed : Number) :
  initialised b previous current -> current <> [] ->
  exists s',
    update head direction_angle speed (on_body b) = (s', Normal tt) /\
    spinePrevious (this s') = spine b /\
    array_get (spine (this s')) 0 = Some head /\
    length (spine (this s')) = length (spine b).
Proof.
  intros Hinit Hne.
  destruct (update_returns b previous current head direction_angle speed
              Hinit Hne) as [s' Hrun].
  exists s'. split; [exact Hrun|]. split.
  - rewrite (update_previous _ _ _ _ _ _ _ Hinit Hrun).
    symmetry. apply Hinit.
  - pose proof (update_chain (fun _ _ => True) (spacing b)
                  ltac:(intros; exact I)
                  (length (spine b)) head direction_angle speed (on_body b)
                  eq_refl) as H.
    rewrite Hrun in H. destruct H as (Hext & H0 & _).
    split; [exact H0|]. now injection Hext.
Qed.

End Snapshot.

(** * The strip a frame draws *)

Section Strip.

Import JS Body BodySpec.
Local Open Scope R_scope.

Lemma strip_from_built (b b' : Body.t) :
  built b = built b' ->
  forall points segment start,
    strip_from b segment start points = strip_from b' segment start points.
Proof.
  intros H. injection H as Hpat Hsp Hinv Hr Hspr Hu Hvc Hvr.
  induction points as [|q points IH]; intros segment start; [reflexivity|].
  cbn [strip_from]. rewrite IH. unfold strip_pair.
  now rewrite Hinv, Hr, Hu, Hvc, Hvr.
Qed.

Lemma strip_through_built (b b' : Body.t) (points : list (Number * Number)) :
  built b = built b' -> strip_through b points = strip_through b' points.
Proof.
  intros H. destruct points as [|q points]; [reflexivity|].
  cbn [strip_through]. rewrite (strip_from_built b b' H).
  injection H as Hpat Hsp Hinv Hr Hspr Hu Hvc Hvr. now rewrite Hu, Hvc.
Qed.

(** X11: the first frame after a tick shows the body where it was before
    the tick.  When an [update] returns and has moved every segment by a
    finite offset, [render] at [time = 0] sends the renderer the strip of
    the spine as the [update] found it. *)
Theorem render_after_update (b : Body.t) (previous current current' : list Vector2.t)
    (head : Vector2.t) (direction_angle speed : Number) (s' : store) :
  initialised b previous current -> current <> [] ->
  update head direction_angle speed (on_body b) = (s', Normal tt) ->
  spine (this s') = map Some current' ->
  Forall finite_vector (offsets current current') ->
  render_output (this s') (Fin 0) = strip_through b (coordinates current).
Proof.
  intros Hinit Hne Hrun Hs' Hfin.
  pose proof (update_previous _ _ _ _ _ _ _ Hinit Hrun) as Hp'.
  pose proof (fixed_update built (built b) ltac:(reflexivity) ltac:(reflexivity)
                ltac:(reflexivity) head direction_angle speed (on_body b)
                eq_refl) as Hbuilt.
  pose proof (shape_update (length current) (spacing b) head direction_angle
                speed (on_body b)) as Hshape.
  rewrite Hrun in Hbuilt, Hshape. unfold fixed in Hbuilt.
  destruct Hinit as (Hs & Hp & Hlen).
  destruct Hshape as (Hlen' & _ & _).
  { unfold shape, on_body. cbn [this]. rewrite Hs, Hp, !length_map. auto. }
  rewrite Hs', length_map in Hlen'.
  assert (Hinit' : initialised (this s') current current')
    by (repeat split; auto).
  assert (Hne' : current' <> []) by (destruct current, current'; easy).
  unfold render_output.
  rewrite (render_strip _ _ _ _ Hinit' Hne').
  cbn [fst renderer].
  rewrite (centerline_start current current' (eq_sym Hlen') Hfin).
  now apply strip_through_built.
Qed.

Lemma strip_from_length (b : Body.t) : forall points segment start,
  length (strip_from b segment start points) = (2 * length points)%nat.
Proof.
  induction points as [|q points IH]; intros segment start; [reflexivity|].
  cbn [strip_from strip_pair app length]. rewrite IH. lia.
Qed.

Lemma strip_from_draws (b : Body.t) : forall points segment start,
  forallb is_drawStrip (strip_from b segment start points) = true.
Proof.
  induction points as [|q points IH]; intros segment start; [reflexivity|].
  cbn [strip_from strip_pair app forallb is_drawStrip andb]. apply IH.
Qed.

(** X12: a frame of a body of [N] segments is one [cutStrip], at the head's
    interpolated position with the texture coordinates [u[0]] and
    [vCenter], followed by [2 (N - 1)] calls of [drawStrip] and nothing
    else. *)
Theorem render_command_count (b : Body.t) (previous current : list Vector2.t)
    (time : Number) :
  initialised b previous current -> current <> [] ->
  exists x y draws,
    render_output b time
      = cutStrip x y (number_at (u b) 0) (vCenter b) :: draws /\
    nth_error (centerline time previous current) 0 = Some (x, y) /\
    length draws = (2 * (length (spine b) - 1))%nat /\
    forallb is_drawStrip draws = true.
Proof.
  intros Hinit Hne. unfold render_output.
  rewrite (render_strip _ _ _ _ Hinit Hne). cbn [fst renderer].
  pose proof Hinit as (Hs & Hp & Hlen).
  pose proof (centerline_length time previous current Hlen) as Hcl.
  destruct (centerline time previous current) as [|[x y] points] eqn:E.
  { destruct current; [contradiction|discriminate]. }
  cbn [strip_through fst snd]. eexists x, y, _. split; [reflexivity|].
  split; [reflexivity|]. split; [|apply strip_from_draws].
  rewrite strip_from_length, Hs, length_map. cbn in Hcl. lia.
Qed.

Lemma strip_from_v (b : Body.t) : forall points segment start,
  map command_v (strip_from b segment start points)
  = flat_map
      (fun k => [ (vCenter b - number_at (vRadii b) (k - 1))%js;
                  (vCenter b + number_at (vRadii b) (k - 1))%js ])
      (seq segment (length points)).
Proof.
  induction points as [|q points IH]; intros segment start; [reflexivity|].
  cbn [strip_from strip_pair app length seq flat_map map command_v].
  now rewrite IH.
Qed.

Lemma flat_map_constant {A B : Type} (f : A -> list B) (c : list B) :
  forall l : list A,
    (forall a, In a l -> f a = c) ->
    flat_map f l = concat (repeat c (length l)).
Proof.
  induction l as [|a l IH]; intros H; [reflexivity|].
  cbn [flat_map length repeat concat].
  rewrite (H a (or_introl eq_refl)), IH; [reflexivity|].
  intros a' Ha'. apply H. now right.
Qed.

(** X13: the texture coordinates [v] of a frame.  For a constructed body,
    whatever calls have followed, a frame gives the cut [vCenter], the two
    vertices of every segment but the last [vCenter - r] and [vCenter + r]
    for [vCenter = slot.y + size.y * .5] and
    [r = size.y * .5 - atlasPixel.y], and the two vertices of the last
    segment NaN: [vRadii] has [N - 2] entries and [render] reads entry
    [N - 2] for the last segment. *)
Theorem texture_v_values (p : Pattern) (atlasPixel : Vector2.t)
    (L thickness : Number) (b0 : Body.t) (calls : list method_call)
    (previous current : list Vector2.t) (time : Number) :
  Body.new p atlasPixel L thickness = Normal b0 ->
  let b := this (run_calls calls (on_body b0)) in
  initialised b previous current ->
  let vCenter0 := (Vector2.y (slot p) + Vector2.y (size p) * Fin 0.5)%js in
  let vRadius := (Vector2.y (size p) * Fin 0.5 - Vector2.y atlasPixel)%js in
  map command_v (render_output b time)
  = vCenter0
    :: concat (repeat [(vCenter0 - vRadius)%js; (vCenter0 + vRadius)%js]
                 (length (spine b0) - 2))
    ++ [NaN; NaN].
Proof.
  intros Hnew b Hinit vCenter0 vRadius.
  destruct (new_count _ _ _ _ _ Hnew) as (l & n & _ & Hn & Hn2 & _).
  destruct (new_inv _ _ _ _ _ Hnew) as (n' & _ & _ & Hspine & Hprev & _).
  assert (n' = n) by (now rewrite Hspine, repeat_length in Hn). subst n'.
  destruct (new_fields _ _ _ _ _ Hnew) as (_ & _ & _ & _ & _ & Hvc & Hvr).
  cbv zeta in Hvr. rewrite Hn in *.
  assert (Hbuilt : built b = built b0)
    by (apply (fixed_run_calls built (built b0)); reflexivity).
  injection Hbuilt as _ _ _ _ _ _ Hvc' Hvr'.
  rewrite Hvc in Hvc'. rewrite Hvr in Hvr'.
  fold vCenter0 in Hvc'. fold vRadius in Hvr'.
  assert (Hshape : shape n (spacing b0) (run_calls calls (on_body b0))).
  { apply run_calls_shape; [lia|]. unfold shape, on_body. cbn [this].
    now rewrite Hspine, Hprev, !repeat_length. }
  destruct Hshape as (Hlen & _ & _). fold b in Hlen.
  pose proof Hinit as (Hs & Hp & Hpc).
  rewrite Hs, length_map in Hlen.
  assert (Hne : current <> []) by (destruct current; [cbn in Hlen; lia|easy]).
  unfold render_output. rewrite (render_strip _ _ _ _ Hinit Hne).
  cbn [fst renderer].
  pose proof (centerline_length time previous current Hpc) as Hcl.
  destruct (centerline time previous current) as [|q points]; [cbn in Hcl; lia|].
  cbn [strip_through map command_v]. rewrite strip_from_v, Hvc', Hvr'.
  f_equal.
  assert (Hpoints : length points = S (n - 2)) by (cbn in Hcl; lia).
  rewrite Hpoints, seq_S, flat_map_app. f_equal.
  - rewrite (flat_map_constant _ [(vCenter0 - vRadius)%js; (vCenter0 + vRadius)%js]);
      [now rewrite length_seq|].
    intros k Hk. apply in_seq in Hk.
    now rewrite number_at_map_seq by lia.
  - cbn [flat_map app]. unfold number_at.
    rewrite nth_overflow by (rewrite length_map, length_seq; lia).
    now rewrite sub_NaN_r, add_NaN_r.
Qed.

End Strip.

(** * The order of the calls of a tick *)

Section PondOrder.

Context {Fish Constraint Atlas Random World : Type}.
Variable fish_interact : Fish -> Fish -> Random -> World -> World.
Variable fish_update : Fish -> Constraint -> Random -> World -> bool * World.
Variable fish_free : Fish -> Atlas -> World -> World.

Notation "'state'" := (Pond.state Fish World).
Notation "'interact_loop'" :=
  (Pond.interact_loop Fish Random World fish_interact).
Notation "'update_loop'" :=
  (Pond.update_loop Fish Constraint Atlas Random World
     fish_interact fish_update fish_free).







Lemma keep_from_length (alive : nat -> bool) : forall (fs : list Fish) (i : nat),
  (length (keep_from i alive fs) <= length fs)%nat.
Proof.
  induction fs as [|f fs IH]; intros i; cbn [keep_from length]; [lia|].
  rewrite length_app. specialize (IH (S i)).
  destruct (alive i); cbn [length]; lia.
Qed.

(** X17: the two gates are ordered and only removals open them.  A pond
    that lets a fish spawn lets one be dropped; a gate that is closed stays
    closed when a fish is added; a gate that is open stays open through a
    tick, which never adds a fish. *)
Theorem gates_monotone (p : Pond.t Fish Constraint) :
  (Pond.canSpawn p = true -> Pond.canDrop p = true) /\
  (forall f, Pond.canDrop p = false -> Pond.canDrop (Pond.addFish p f) = false) /\
  (forall f, Pond.canSpawn p = false ->
             Pond.canSpawn (Pond.addFish p f) = false) /\
  (forall atlas random w p' w' calls,
     Pond.update fish_interact fish_update fish_free p atlas random w
       = Some (p', w', calls) ->
     (length (Pond.fishes p') <= length (Pond.fishes p))%nat /\
     (Pond.canDrop p = true -> Pond.canDrop p' = true) /\
     (Pond.canSpawn p = true -> Pond.canSpawn p' = true)).
Proof.
  unfold Pond.canSpawn, Pond.canDrop, Pond.SPAWN_OVERHEAD.
  split; [|split; [|split]].
  - rewrite !Z.ltb_lt. lia.
  - intros f. cbn [Pond.addFish Pond.fishes Pond.capacity].
    rewrite length_app, !Z.ltb_ge. cbn [length]. lia.
  - intros f. cbn [Pond.addFish Pond.fishes Pond.capacity].
    rewrite length_app, !Z.ltb_ge. cbn [length]. lia.
  - intros atlas random w p' w' calls Hupdate.
    destruct (update_spec fish_interact fish_update fish_free p atlas random w)
      as (p1 & w1 & calls1 & Hrun & _ & Hcap & _ & _ & _ & Hfs & _).
    rewrite Hupdate in Hrun. injection Hrun as <- <- <-.
    assert (Hlen : (length (Pond.fishes p') <= length (Pond.fishes p))%nat)
      by (rewrite Hfs; apply keep_from_length).
    rewrite Hcap, !Z.ltb_lt. repeat split; [exact Hlen|lia|lia].
Qed.

Section Render.

Context {Renderer : Type}.
Variable getCapacity : Constraint -> Z.
Variable constraint_render : Constraint -> Renderer -> World -> World.
Variable fish_render : Fish -> Renderer -> JS.Number -> World -> World.

(** X18: a frame of the pond renders the constraint first and then the fish
    in the order they were added: an empty pond renders its constraint
    alone, and a fish added last is rendered last, after everything the pond
    rendered without it. *)
Theorem render_order (c : Constraint) (p : Pond.t Fish Constraint) (f : Fish)
    (renderer : Renderer) (time : JS.Number) (w : World) :
  Pond.render constraint_render fish_render (Pond.new getCapacity c)
    renderer time w
  = constraint_render c renderer w /\
  Pond.render constraint_render fish_render (Pond.addFish p f) renderer time w
  = fish_render f renderer time
      (Pond.render constraint_render fish_render p renderer time w).
Proof.
  split; [reflexivity|].
  unfold Pond.render. cbn [Pond.addFish Pond.fishes Pond.constraint].
  now rewrite fold_left_app.
Qed.

End Render.

End PondOrder.

(** * The air buffer *)

Section AirBuffers.

Import JS JSMath.
Local Open Scope R_scope.

Context {GL RenderTarget World : Type}.
Variable new_RenderTarget : GL -> Number -> Number -> World -> RenderTarget * World.
Variable gl_clearColor : GL -> Number -> Number -> Number -> Number -> World -> World.
Variable gl_clear : GL -> World -> World.
Variable target_target : RenderTarget -> World -> World.

Lemma array_index_nat (n : nat) : array_index (of_nat n) = Some n.
Proof.
  unfold array_index, of_nat. rewrite INR_IZR_INZ, ZfloorZ.
  destruct (Req_dec_T (IZR (Z.of_nat n)) (IZR (Z.of_nat n))); [|contradiction].
  replace (0 <=? Z.of_nat n)%Z with true by (symmetry; apply Z.leb_le; lia).
  now rewrite Nat2Z.id.
Qed.

Lemma element_at_nat {A : Type} (l : list A) (r : R) (n : nat) :
  r = INR n -> element_at l (Fin r) = nth_error l n.
Proof.
  intros ->. unfold element_at. fold (of_nat n). now rewrite array_index_nat.
Qed.

(** X19: the air buffer is a double buffer.  The constructor builds two
    render targets, one after the other, of the size it has computed.  After
    any number of calls of [flip], [targets] still holds the two in this
    order and [front] is 0 or 1 with the parity of the number of flips;
    [getFront] returns the first target after an even number of flips and
    the second after an odd number, [getBack] the other one, never
    [undefined]. *)
Theorem air_buffers (gl : GL) (width height : Number) (w : World)
    (flips : nat) :
  let width1 := Math_ceil (width * Air.SCALE)%js in
  let height1 := Math_ceil (height * Air.SCALE)%js in
  let first := new_RenderTarget gl width1 height1 w in
  let second := new_RenderTarget gl width1 height1 (snd first) in
  let a := Nat.iter flips Air.flip
             (fst (Air.new new_RenderTarget gl_clearColor gl_clear target_target
                     gl width height w)) in
  Air.targets a = [fst first; fst second] /\
  Air.front a = (if Nat.even flips then Fin 0 else Fin 1) /\
  Air.getFront a = Some (if Nat.even flips then fst first else fst second) /\
  Air.getBack a = Some (if Nat.even flips then fst second else fst first).
Proof.
  cbv zeta. unfold Air.new.
  destruct (new_RenderTarget gl _ _ w) as [target0 w0].
  cbn [fst snd].
  destruct (new_RenderTarget gl _ _ w0) as [target1 w1].
  cbn [fst].
  set (a0 := Air.mk RenderTarget (Fin 0) _ _ [target0; target1]).
  assert (H : Air.targets (Nat.iter flips Air.flip a0) = [target0; target1] /\
              Air.front (Nat.iter flips Air.flip a0)
              = (if Nat.even flips then Fin 0 else Fin 1)).
  { induction flips as [|n [IHt IHf]]; [split; reflexivity|].
    rewrite Nat.iter_succ. unfold Air.flip at 1 3. cbn [Air.targets Air.front].
    split; [exact IHt|]. rewrite IHf, Nat.even_succ, <- Nat.negb_even.
    destruct (Nat.even n); cbn; f_equal; lra. }
  destruct H as [Ht Hf].
  split; [exact Ht|]. split; [exact Hf|].
  unfold Air.getFront, Air.getBack. rewrite Ht, Hf.
  destruct (Nat.even flips); cbn [sub add opp].
  - rewrite (element_at_nat _ 0 0) by reflexivity.
    rewrite (element_at_nat _ _ 1) by (simpl; lra). split; reflexivity.
  - rewrite (element_at_nat _ 1 1) by (simpl; lra).
    rewrite (element_at_nat _ _ 0) by (simpl; lra). split; reflexivity.
Qed.

End AirBuffers.

(** * The rain *)

Section RainNumbers.

Import JS JSMath.
Local Open Scope R_scope.

Lemma of_nat_S (k : nat) : (of_nat k + Fin 1)%js = of_nat (S k).
Proof. unfold of_nat. cbn [add]. now rewrite S_INR. Qed.

Lemma element_at_of_nat {A : Type} (l : list A) (n : nat) :
  element_at l (of_nat n) = nth_error l n.
Proof. now apply element_at_nat. Qed.

Lemma strict_eq_of_nat (a b : nat) :
  strict_eq (of_nat a) (of_nat b) = (a =? b)%nat.
Proof.
  unfold strict_eq, of_nat.
  destruct (Req_dec_T (INR a) (INR b)) as [H|H];
    destruct (Nat.eqb_spec a b) as [E|E]; try reflexivity.
  - apply INR_eq in H. contradiction.
  - subst. contradiction.
Qed.

Lemma strict_eq_NaN (a : Number) : strict_eq a NaN = false.
Proof. destruct a; reflexivity. Qed.

Lemma rem_zero (a : Number) : rem a (Fin 0) = NaN.
Proof.
  destruct a as [x| | |]; try reflexivity. unfold rem.
  destruct (Req_dec_T 0 0); [reflexivity|contradiction].
Qed.

Lemma mod_wrap (n a : nat) :
  (a < 2 * n)%nat -> (a mod n = if a <? n then a else a - n)%nat.
Proof.
  intros Ha. destruct (Nat.ltb_spec a n) as [H|H].
  - now apply Nat.mod_small.
  - replace a with (a - n + 1 * n)%nat at 1 by lia.
    rewrite Nat.Div0.mod_add. apply Nat.mod_small. lia.
Qed.

Lemma drops_between_value (n start stop : nat) :
  (start < n)%nat -> (stop < n)%nat ->
  drops_between n start stop
  = (if start <=? stop then stop - start else stop + n - start)%nat.
Proof.
  intros Hs Ht. unfold drops_between. rewrite mod_wrap by lia.
  destruct (Nat.ltb_spec (stop + n - start) n);
    destruct (Nat.leb_spec start stop); lia.
Qed.

Lemma drops_from_S (n start count : nat) :
  (start < n)%nat ->
  drops_from n start (S count)
  = start :: drops_from n (if S start =? n then 0 else S start)%nat count.
Proof.
  intros Hs. unfold drops_from. cbn [seq map].
  rewrite Nat.add_0_r, Nat.mod_small by exact Hs. f_equal.
  rewrite <- seq_shift, map_map. apply map_ext. intros k.
  destruct (Nat.eqb_spec (S start) n) as [E|E].
  - replace (start + S k)%nat with (k + 1 * n)%nat by lia.
    now rewrite Nat.Div0.mod_add.
  - f_equal. lia.
Qed.

End RainNumbers.

Section RainUpdate.

Import JS JSMath.
Local Open Scope R_scope.

(** The loop of [update] between two drops: it ends before it has tested
    [dropCount] times, having added the flares of the drops from the first
    up to the last, the last left out. *)
Lemma drops_loop_run (r : Rain.t) (stop : nat) :
  (stop < Rain.dropCount r)%nat ->
  forall (count start : nat) (flares : list Rain.flare) (fuel : nat),
    (start < Rain.dropCount r)%nat ->
    drops_between (Rain.dropCount r) start stop = count ->
    (count < fuel)%nat ->
    Rain.drops_loop fuel r (of_nat start) (of_nat stop) flares
    = Some (flares
            ++ flat_map (flare_at r)
                 (drops_from (Rain.dropCount r) start count)).
Proof.
  intros Hstop. set (n := Rain.dropCount r) in *.
  induction count as [|count IH]; intros start flares fuel Hstart Hcount Hfuel;
    (destruct fuel as [|fuel]; [lia|]);
    rewrite drops_between_value in Hcount by assumption;
    cbn [Rain.drops_loop]; rewrite strict_eq_of_nat.
  - assert (start = stop) by (destruct (Nat.leb_spec start stop); lia).
    subst. rewrite Nat.eqb_refl. cbn. now rewrite app_nil_r.
  - destruct (Nat.eqb_spec start stop) as [E|E].
    { subst. rewrite Nat.leb_refl in Hcount. lia. }
    rewrite element_at_of_nat, of_nat_S, strict_eq_of_nat. fold n.
    assert (Hnext : (if (S start =? n)%nat then Fin 0 else of_nat (S start))
                    = of_nat (if (S start =? n)%nat then 0 else S start)).
    { destruct (S start =? n)%nat; reflexivity. }
    rewrite Hnext, drops_from_S by exact Hstart.
    cbn [flat_map]. rewrite app_assoc.
    assert (Hflares :
              match nth_error (Rain.positions r) start with
              | Some (Some p) =>
                  flares ++ [Rain.addFlare (Vector2.x p) (Vector2.y p)
                               Rain.DROP_EFFECT_RADIUS
                               Rain.DROP_EFFECT_DISPLACEMENT]
              | _ => flares
              end = flares ++ flare_at r start).
    { unfold flare_at.
      destruct (nth_error (Rain.positions r) start) as [[p|]|];
        now rewrite ?app_nil_r. }
    rewrite Hflares. apply IH.
    + destruct (Nat.eqb_spec (S start) n); lia.
    + rewrite drops_between_value
        by (destruct (Nat.eqb_spec (S start) n); lia).
      destruct (Nat.eqb_spec (S start) n);
        destruct (Nat.leb_spec start stop);
        match goal with
        | |- context [(?a <=? ?b)%nat] => destruct (Nat.leb_spec a b)
        end; lia.
    + lia.
Qed.

(** X20: the loop of [update] over the drops.  Started at a drop [start]
    with [last] a drop [stop] of the rain, the loop ends within [dropCount]
    tests: it goes from [start] up to [stop], round after the last drop,
    and adds one flare for each drop on the way that has a position (a drop
    outside the constellation has none), in this order, leaving out
    [stop]; started at [stop] itself it adds nothing. *)
Theorem rain_drops_loop (r : Rain.t) (start stop : nat)
    (flares : list Rain.flare) (fuel : nat) :
  let n := Rain.dropCount r in
  (start < n)%nat -> (stop < n)%nat -> (n <= fuel)%nat ->
  Rain.drops_loop fuel r (of_nat start) (of_nat stop) flares
  = Some (flares
          ++ flat_map (flare_at r)
               (drops_from n start (drops_between n start stop))) /\
  (drops_between n start stop < n)%nat /\
  (start = stop -> drops_between n start stop = 0%nat).
Proof.
  intros n Hstart Hstop Hfuel.
  assert (Hcount : (drops_between n start stop < n)%nat).
  { unfold drops_between. apply Nat.mod_upper_bound. lia. }
  split; [|split; [exact Hcount|]].
  - apply (drops_loop_run r stop Hstop (drops_between n start stop) start
             flares fuel Hstart eq_refl). lia.
  - intros ->. rewrite drops_between_value by assumption.
    now rewrite Nat.leb_refl, Nat.sub_diag.
Qed.

(** X21: [update] on a rain without drops never returns.  [last] and
    [drop] are remainders of a division by zero, NaN, and
    [drop !== last] holds of them for ever: the loop has not ended after
    any number of tests. *)
Theorem rain_without_drops (r : Rain.t) :
  Rain.dropCount r = 0%nat -> forall fuel, Rain.update fuel r = None.
Proof.
  intros Hn fuel. unfold Rain.update, Rain.last_drop.
  rewrite Hn. change (of_nat 0) with (Fin 0). rewrite rem_zero.
  assert (Hloop : forall fuel drop flares,
            Rain.drops_loop fuel r drop NaN flares = None).
  { clear fuel. induction fuel as [|fuel IH]; intros drop flares;
      [reflexivity|].
    cbn [Rain.drops_loop]. rewrite strict_eq_NaN. apply IH. }
  now rewrite Hloop.
Qed.

(** X22: the window a frame is rendered with.  For a window from 0 to 1,
    [render] at [time = 0] hands the drops renderer the window as it is and
    at [time = 1] the window the next [update] will leave; for every time
    from 0 to 1 it hands on a real number from 0 to 1, next to the drop
    count and the window width. *)
Theorem rain_render_window (r : Rain.t) (w : R) :
  Rain.window r = Fin w -> 0 <= w <= 1 ->
  Rain.render_window r (Fin 0) = Rain.window r /\
  Rain.render_window r (Fin 1) = Rain.advance_window (Rain.window r) /\
  forall t, 0 <= t <= 1 ->
    exists v,
      Rain.render r (Fin t)
      = (of_nat (Rain.dropCount r), Fin v, Rain.windowWidth r) /\
      0 <= v <= 1.
Proof.
  intros Hw Hwr.
  unfold Rain.render, Rain.render_window, Rain.advance_window,
    Rain.WINDOW_SPEED.
  rewrite Hw. cbn [add mul]. split; [|split].
  - rewrite gtb_Fin_false by lra. f_equal. lra.
  - replace (w + 1 * 0.005) with (w + 0.005) by lra. reflexivity.
  - intros t Ht. destruct (Rlt_dec 1 (w + t * 0.005)) as [H|H].
    + rewrite gtb_Fin_true by exact H. cbn [sub add opp].
      eexists. split; [reflexivity|]. nra.
    + rewrite gtb_Fin_false by lra. eexists. split; [reflexivity|]. nra.
Qed.

End RainUpdate.

(** * The positions of the drops *)

Section RainPositions.

Import JS JSMath.
Local Open Scope R_scope.

Context {Random : Type}.
Variable getFloat : Random -> Number * Random.

Lemma splice_in_Permutation {A : Type} (start : Number) (v : A) (l : list A) :
  Permutation (splice_in start v l) (v :: l).
Proof.
  unfold splice_in. symmetry.
  rewrite <- (firstn_skipn (splice_start (length l) start) l) at 1.
  apply Permutation_middle.
Qed.

(** One drop placed: the array gains the new position, somewhere. *)
Lemma place_drop_spec (xs : R) (x y : nat) (positions0 : list Vector2.t)
    (random0 : Random) :
  exists (v : Vector2.t) (q1 q2 : Number) (random1 : Random),
    Rain.place_drop Random getFloat (Fin xs) x y (positions0, random0)
    = (fst (Rain.place_drop Random getFloat (Fin xs) x y (positions0, random0)),
       random1) /\
    Permutation
      (fst (Rain.place_drop Random getFloat (Fin xs) x y (positions0, random0)))
      (v :: positions0) /\
    v = {| Vector2.x := (Fin 0.3 * (of_nat x + q1 * Fin 0.8) + Fin xs)%js;
           Vector2.y := (Fin 0.3 * (of_nat y + q2 * Fin 0.8))%js |} /\
    (exists s, q1 = fst (getFloat s)) /\ (exists s, q2 = fst (getFloat s)).
Proof.
  unfold Rain.place_drop.
  destruct (getFloat random0) as [r0 random1] eqn:E0.
  destruct (getFloat random1) as [r1 random2] eqn:E1.
  destruct (getFloat random2) as [r2 random3] eqn:E2.
  cbn [fst]. eexists _, r1, r2, random3.
  split; [reflexivity|]. split; [apply splice_in_Permutation|].
  split; [reflexivity|]. split.
  - exists random1. now rewrite E1.
  - exists random2. now rewrite E2.
Qed.

(** The two loops of [makePositions] visit the cells row after row. *)
Lemma fold_cells {S : Type} (f : nat -> nat -> S -> S) (nx ny : nat) (s : S) :
  fold_left (fun state y => fold_left (fun state' x => f x y state') (seq 0 nx) state)
    (seq 0 ny) s
  = fold_left (fun state cell => f (fst cell) (snd cell) state) (cells nx ny) s.
Proof.
  unfold cells. generalize (seq 0 ny) as ys. intros ys. revert s.
  induction ys as [|y ys IH]; intros s; [reflexivity|].
  cbn [fold_left flat_map]. rewrite fold_left_app, <- IH. f_equal.
  generalize (seq 0 nx) as l. intros l. revert s.
  induction l as [|x l IHl]; intros s; [reflexivity|].
  cbn [map fold_left fst snd]. apply IHl.
Qed.

Lemma length_cells (nx ny : nat) : length (cells nx ny) = (nx * ny)%nat.
Proof.
  unfold cells.
  assert (H : forall ys : list nat,
            length (flat_map (fun y => map (fun x => (x, y)) (seq 0 nx)) ys)
            = (nx * length ys)%nat).
  { induction ys as [|y ys IH]; cbn [flat_map length]; [lia|].
    rewrite length_app, length_map, length_seq, IH. lia. }
  now rewrite H, length_seq.
Qed.

Lemma place_all_length (xs : R) : forall (cs : list (nat * nat))
    (state : list Vector2.t * Random),
  length (fst (fold_left
                 (fun state cell =>
                    Rain.place_drop Random getFloat (Fin xs)
                      (fst cell) (snd cell) state) cs state))
  = (length (fst state) + length cs)%nat.
Proof.
  induction cs as [|[x y] cs IH]; intros [ps random]; cbn [fold_left length fst snd];
    [lia|].
  destruct (place_drop_spec xs x y ps random)
    as (v & q1 & q2 & random1 & Hrun & Hperm & _).
  rewrite Hrun, IH. cbn [fst]. apply Permutation_length in Hperm.
  rewrite Hperm. cbn [length]. lia.
Qed.

Lemma Zceil_IZR (z : Z) : Zceil (IZR z) = z.
Proof. apply Zceil_eq. lra. Qed.

Hypothesis getFloat_range :
  forall s, exists q : R, fst (getFloat s) = Fin q /\ 0 <= q < 1.

Lemma place_all_within (xs : R) : forall (cs done : list (nat * nat))
    (ps pts : list Vector2.t) (random : Random),
  Permutation ps pts -> Forall2 (within_cell (Fin xs)) done pts ->
  exists pts',
    Permutation
      (fst (fold_left
              (fun state cell =>
                 Rain.place_drop Random getFloat (Fin xs)
                   (fst cell) (snd cell) state) cs (ps, random))) pts' /\
    Forall2 (within_cell (Fin xs)) (done ++ cs) pts'.
Proof.
  induction cs as [|[x y] cs IH]; intros done ps pts random Hperm Hin.
  - exists pts. rewrite app_nil_r. now split.
  - cbn [fold_left fst snd].
    destruct (place_drop_spec xs x y ps random)
      as (v & q1 & q2 & random1 & Hrun & Hperm1 & Hv & [s1 Hq1] & [s2 Hq2]).
    rewrite Hrun.
    destruct (getFloat_range s1) as (r1 & Hr1 & Hr1r).
    destruct (getFloat_range s2) as (r2 & Hr2 & Hr2r).
    rewrite Hr1 in Hq1. rewrite Hr2 in Hq2. subst q1 q2.
    set (ps1 := fst (Rain.place_drop Random getFloat (Fin xs) x y (ps, random)))
      in *.
    destruct (IH (done ++ [(x, y)]) ps1 (pts ++ [v]) random1)
      as (pts' & Hp' & Hin').
    + rewrite Hperm1. rewrite <- Permutation_cons_append.
      now apply Permutation_cons.
    + apply Forall2_app; [exact Hin|]. constructor; [|constructor].
      rewrite Hv. unfold within_cell, vec, of_nat, Rain.CELL, Rain.CELL_RANDOM.
      cbn [fst snd add mul].
      eexists _, _, _, _, _, _. split; [reflexivity|].
      split; [reflexivity|]. split; [reflexivity|].
      split; [reflexivity|]. split; [reflexivity|]. lra.
    + exists pts'. split; [exact Hp'|]. now rewrite <- app_assoc in Hin'.
Qed.

(** X24: the two loops of [makePositions].  Over a grid of [nx] columns and
    [ny] rows whose cells fit in an array, started at the real column
    [xStart], with a randomizer whose numbers are real and lie from 0 up
    to, and without, 1, the loops leave one position for each cell: in some
    order, the positions are one point for each cell of the grid, row after
    row, each coordinate between the values its expression takes for the
    random numbers 0 and 1.  The numbers drawn for the places in the array
    only choose the order. *)
Theorem place_drops_within_cells (xStart : R) (nx ny : nat) (random : Random) :
  (Z.of_nat (nx * ny) <= 4294967295)%Z ->
  exists (positions points : list Vector2.t) (random' : Random),
    Rain.place_drops Random getFloat (Fin xStart) nx ny random
    = (positions, random') /\
    length positions = (nx * ny)%nat /\
    Permutation positions points /\
    Forall2 (within_cell (Fin xStart)) (cells nx ny) points.
Proof.
  intros _. unfold Rain.place_drops. rewrite fold_cells.
  destruct (place_all_within xStart (cells nx ny) [] [] [] random
              (Permutation_refl _) (Forall2_nil _)) as (points & Hperm & Hin).
  pose proof (place_all_length xStart (cells nx ny) ([], random)) as Hlen.
  destruct (fold_left _ (cells nx ny) ([], random)) as [ps random'] eqn:Efold.
  cbn [fst length app] in *.
  exists ps, points, random'.
  split; [reflexivity|]. split; [now rewrite Hlen, length_cells|].
  split; assumption.
Qed.

End RainPositions.

(** * The capsule model *)

Section Capsule.

Import JS JSMath.
Local Open Scope R_scope.

Variable getFirstIndex : list Number -> Number.

Lemma iterations_of_nat (m : nat) : iterations (of_nat m) = Some m.
Proof.
  unfold iterations, of_nat. rewrite INR_IZR_INZ, Zceil_IZR.
  now rewrite Nat2Z.id.
Qed.

Lemma truncate_of_nat (s : nat) : truncate (INR s) = Z.of_nat s.
Proof.
  unfold truncate. destruct (Rle_dec 0 (INR s)) as [_|H].
  - now rewrite INR_IZR_INZ, ZfloorZ.
  - exfalso. apply H. apply pos_INR.
Qed.

Lemma wrap32_small (z : Z) :
  (- 2147483648 <= z < 2147483648)%Z -> wrap32 z = z.
Proof.
  intros H. unfold wrap32.
  change (2 ^ 31)%Z with 2147483648%Z.
  change (2 ^ 32)%Z with 4294967296%Z.
  rewrite Z.mod_small; lia.
Qed.

(** [segment << 1] doubles a segment below 2^30. *)
Lemma shl_of_nat (s : nat) :
  (Z.of_nat s < 2 ^ 30)%Z -> shl (of_nat s) 1 = of_nat (2 * s).
Proof.
  intros H. change (2 ^ 30)%Z with 1073741824%Z in H.
  unfold shl, to_int32, of_nat.
  rewrite truncate_of_nat, (wrap32_small (Z.of_nat s)) by lia.
  change (Z.land 1 31) with 1%Z. rewrite Z.shiftl_mul_pow2 by lia.
  change (2 ^ 1)%Z with 2%Z.
  rewrite wrap32_small by lia. f_equal.
  rewrite INR_IZR_INZ. f_equal. lia.
Qed.

(** The number of segments of a capsule between two real points. *)
Lemma capsule_segments_real (x1 z1 x2 z2 : R) :
  let l := sqrt ((x2 - x1) * (x2 - x1) + (z2 - z1) * (z2 - z1)) in
  exists n : nat,
    Plants.capsule_segments (Fin x1) (Fin z1) (Fin x2) (Fin z2) = of_nat n /\
    (3 <= n)%nat /\
    INR n <= Rmax 3 (l / 0.1 + 1.5) /\
    (l = 0 -> n = 3%nat).
Proof.
  intros l. unfold Plants.capsule_segments, Plants.CAPSULE_SEGMENTS_MIN,
    Plants.CAPSULE_RESOLUTION.
  cbn [sub add opp mul].
  rewrite sqrt_Fin
    by (pose proof (Rle_0_sqr (x2 + - x1)); pose proof (Rle_0_sqr (z2 + - z1));
        unfold Rsqr in *; lra).
  replace ((x2 + - x1) * (x2 + - x1) + (z2 + - z1) * (z2 + - z1))
    with ((x2 - x1) * (x2 - x1) + (z2 - z1) * (z2 - z1)) by ring.
  fold l. rewrite div_Fin by lra. cbn [Math_round add Math_max].
  set (z := Zfloor (l / 0.1 + 0.5)).
  assert (Hl : 0 <= l) by apply sqrt_pos.
  destruct (Zfloor_bound (l / 0.1 + 0.5)) as [Hlo Hhi]. fold z in Hlo, Hhi.
  assert (Hz : (0 <= z)%Z).
  { apply Zfloor_lub. assert (0 <= l / 0.1) by (apply Rmult_le_pos; lra). lra. }
  exists (Z.to_nat (Z.max 3 (z + 1))).
  assert (Hn : INR (Z.to_nat (Z.max 3 (z + 1))) = Rmax 3 (IZR z + 1)).
  { rewrite INR_IZR_INZ, Z2Nat.id by lia.
    destruct (Z.max_spec 3 (z + 1)) as [[Hlt ->]|[Hle ->]].
    - rewrite Rmax_right; [now rewrite plus_IZR|].
      apply IZR_lt in Hlt. rewrite plus_IZR in Hlt. lra.
    - rewrite Rmax_left; [reflexivity|].
      apply IZR_le in Hle. rewrite plus_IZR in Hle. lra. }
  split; [unfold of_nat; now rewrite Hn|]. split; [lia|]. split.
  - rewrite Hn. apply Rle_max_compat_l. lra.
  - intros H0. assert (z = 0%Z) as ->.
    { unfold z. apply Zfloor_eq. rewrite H0. lra. }
    reflexivity.
Qed.

(** One pass of the loop of [modelCapsule]. *)
Lemma capsule_segment_run (x1 z1 dx dz y radius nx nz : Number)
    (uv : Vector2.t) (color : Plants.Color)
    (shade firstIndex segments : Number)
    (vertices1 indices1 : list Number) (segment : nat) :
  exists pair,
    Plants.capsule_segment x1 z1 dx dz y radius nx nz uv color shade
      firstIndex segments (vertices1, indices1) segment
    = (vertices1 ++ pair,
       indices1 ++ (if strict_neq (of_nat segment) (segments - Fin 2)%js
                    then capsule_quad firstIndex segment else [])) /\
    length pair = 20%nat.
Proof.
  unfold Plants.capsule_segment.
  match goal with
  | |- context [((vertices1 ++ ?a) ++ ?b, _)] => exists (a ++ b)
  end.
  split; [|reflexivity].
  rewrite app_assoc. f_equal.
  destruct (strict_neq (of_nat segment) (segments - Fin 2)%js);
    [reflexivity|now rewrite app_nil_r].
Qed.

(** The loop of [modelCapsule] over the first [k] of its segments. *)
Lemma capsule_loop (x1 z1 dx dz y radius nx nz : Number) (uv : Vector2.t)
    (color : Plants.Color) (shade firstIndex : Number) (n : nat)
    (vertices1 indices1 : list Number) :
  (3 <= n)%nat ->
  forall k, (k <= n - 2)%nat ->
  exists vs,
    fold_left
      (Plants.capsule_segment x1 z1 dx dz y radius nx nz uv color shade
         firstIndex (of_nat n))
      (seq 1 k) (vertices1, indices1)
    = (vertices1 ++ vs,
       indices1 ++ flat_map (capsule_quad firstIndex)
                     (seq 1 (Nat.min k (n - 3)))) /\
    length vs = (20 * k)%nat.
Proof.
  intros Hn. induction k as [|k IH]; intros Hk.
  - exists []. cbn [seq fold_left Nat.min flat_map length Nat.mul].
    now rewrite !app_nil_r.
  - destruct (IH ltac:(lia)) as (vs & Hrun & Hlen).
    rewrite seq_S, fold_left_app, Hrun. cbn [Nat.add fold_left].
    destruct (capsule_segment_run x1 z1 dx dz y radius nx nz uv color shade
                firstIndex (of_nat n) (vertices1 ++ vs)
                (indices1 ++ flat_map (capsule_quad firstIndex)
                               (seq 1 (Nat.min k (n - 3)))) (S k))
      as (pair & Hstep & Hpair).
    rewrite Hstep. clear Hstep.
    replace (of_nat n - Fin 2)%js with (of_nat (n - 2))
      by (symmetry; apply (of_nat_minus n 2); lia).
    unfold strict_neq. rewrite strict_eq_of_nat.
    exists (vs ++ pair). split.
    + rewrite <- !app_assoc. f_equal. f_equal.
      destruct (Nat.eqb_spec (S k) (n - 2)) as [E|E]; cbn [negb].
      * replace (Nat.min (S k) (n - 3)) with (Nat.min k (n - 3)) by lia.
        now rewrite app_nil_r.
      * replace (Nat.min (S k) (n - 3)) with (S k) by lia.
        replace (Nat.min k (n - 3)) with k by lia.
        rewrite seq_S, flat_map_app. cbn [Nat.add flat_map].
        now rewrite app_nil_r.
    + rewrite length_app, Hlen, Hpair. lia.
Qed.

Lemma length_flat_map_quad (firstIndex : Number) (l : list nat) :
  length (flat_map (capsule_quad firstIndex) l) = (6 * length l)%nat.
Proof.
  induction l as [|s l IH]; [reflexivity|].
  cbn [flat_map]. rewrite length_app, IH. cbn [capsule_quad length]. lia.
Qed.

(** X25: the loop of [modelCapsule].  For a capsule of [n] segments, at
    least three and few enough for the arrays and for the shift
    [segment << 1], the loop over the segments from 1 to [n - 2] adds two
    vertices of ten numbers for each segment at the end of [vertices], and
    at the end of [indices] the six indices
    [i - 1, i, i + 2, i + 2, i + 1, i - 1], with
    [i = firstIndex + (segment << 1)], for each segment but the last one,
    [n - 2]. *)
Theorem capsule_loop_adds (x1 z1 dx dz y radius nx nz : Number) (uv : Vector2.t)
    (color : Plants.Color) (shade firstIndex : Number) (n : nat)
    (vertices1 indices1 : list Number) :
  (3 <= n)%nat ->
  (Z.of_nat (length vertices1 + 20 * n) <= 4294967295)%Z ->
  (Z.of_nat (length indices1 + 6 * n) <= 4294967295)%Z ->
  exists vs : list Number,
    fold_left
      (Plants.capsule_segment x1 z1 dx dz y radius nx nz uv color shade
         firstIndex (of_nat n))
      (seq 1 (n - 2)) (vertices1, indices1)
    = (vertices1 ++ vs,
       indices1 ++ flat_map (capsule_quad firstIndex) (seq 1 (n - 3))) /\
    length vs = (20 * (n - 2))%nat /\
    length (flat_map (capsule_quad firstIndex) (seq 1 (n - 3)))
    = (6 * (n - 3))%nat /\
    forall segment, (1 <= segment <= n - 3)%nat ->
      shl (of_nat segment) 1 = of_nat (2 * segment).
Proof.
  intros Hn Hv Hi.
  destruct (capsule_loop x1 z1 dx dz y radius nx nz uv color shade firstIndex
              n vertices1 indices1 Hn (n - 2)%nat (le_n _))
    as (vs & Hrun & Hlen).
  replace (Nat.min (n - 2) (n - 3)) with (n - 3)%nat in Hrun by lia.
  exists vs. split; [exact Hrun|]. split; [exact Hlen|]. split.
  - now rewrite length_flat_map_quad, length_seq.
  - intros segment Hs. apply shl_of_nat.
    change (2 ^ 30)%Z with 1073741824%Z. lia.
Qed.

(** X27: a capsule from a point to itself.  Its length is 0 and it has
    three segments; the normal is 0 / 0, so that the two vertices of the
    middle segment get NaN for [x] and [z], whatever the radius, while the
    first and the last vertex are at the point. *)
Theorem capsule_of_point (x z : R) (y radius : Number) (uv : Vector2.t)
    (color : Plants.Color) (shade : Number)
    (vertices0 indices0 : list Number) :
  let firstIndex := getFirstIndex vertices0 in
  let cr := Plants.r color in
  let cg := Plants.g color in
  let cb := Plants.b color in
  Plants.modelCapsule getFirstIndex (Fin x) (Fin z) (Fin x) (Fin z)
    y radius uv color shade vertices0 indices0
  = Some {| Plants.vertices :=
              vertices0
              ++ capsule_vertex (cr * shade)%js (cg * shade)%js
                   (cb * shade)%js (Fin x) y (Fin z) uv
              ++ capsule_vertex (cr * shade)%js (cg * shade)%js
                   (cb * shade)%js NaN y NaN uv
              ++ capsule_vertex cr cg cb NaN y NaN uv
              ++ capsule_vertex (cr * shade)%js (cg * shade)%js
                   (cb * shade)%js (Fin x) y (Fin z) uv;
            Plants.indices :=
              indices0
              ++ [firstIndex; (firstIndex + Fin 1)%js; (firstIndex + Fin 2)%js;
                  (firstIndex + Fin 2 - Fin 1)%js; (firstIndex + Fin 2)%js;
                  (firstIndex + Fin 2 + Fin 1)%js];
            Plants.flexFirst := firstIndex;
            Plants.flexLast := (firstIndex + Fin 4 - Fin 1)%js |}.
Proof.
  intros firstIndex cr cg cb.
  assert (Hl : sqrt ((x - x) * (x - x) + (z - z) * (z - z)) = 0).
  { replace ((x - x) * (x - x) + (z - z) * (z - z)) with 0 by ring.
    apply sqrt_0. }
  destruct (capsule_segments_real x z x z) as (n & Hseg & _ & _ & H3).
  cbv zeta in H3. specialize (H3 Hl). subst n.
  assert (Hlength : Math_sqrt ((Fin x - Fin x) * (Fin x - Fin x)
                               + (Fin z - Fin z) * (Fin z - Fin z))%js
                    = Fin 0).
  { cbn [sub add opp mul]. rewrite sqrt_Fin.
    - f_equal. rewrite <- Hl. f_equal.
    - replace ((x + - x) * (x + - x) + (z + - z) * (z + - z)) with 0 by ring.
      lra. }
  assert (Hnx : (opp (Fin z - Fin z) / Fin 0)%js = NaN)
    by (cbn [sub add opp]; apply div_zero_zero; lra).
  assert (Hnz : ((Fin x - Fin x) / Fin 0)%js = NaN)
    by (cbn [sub add opp]; apply div_zero_zero; lra).
  assert (H1 : shl (of_nat 1) 1 = Fin 2)
    by (rewrite shl_of_nat by (cbn; lia); unfold of_nat; f_equal;
        cbn [Nat.mul Nat.add INR]; lra).
  assert (H2 : shl (of_nat 2) 1 = Fin 4)
    by (rewrite shl_of_nat by (cbn; lia); unfold of_nat; f_equal;
        cbn [Nat.mul Nat.add INR]; lra).
  unfold Plants.modelCapsule. rewrite Hseg, Hlength, Hnx, Hnz.
  replace (of_nat 3 - Fin 1)%js with (of_nat 2)
    by (symmetry; apply (of_nat_minus 3 1); lia).
  replace (of_nat 3 - Fin 2)%js with (of_nat 1)
    by (symmetry; apply (of_nat_minus 3 2); lia).
  rewrite iterations_of_nat. cbn [Nat.sub seq fold_left].
  unfold Plants.capsule_segment.
  replace (of_nat 3 - Fin 2)%js with (of_nat 1)
    by (symmetry; apply (of_nat_minus 3 2); lia).
  unfold strict_neq. rewrite strict_eq_of_nat. cbn [Nat.eqb negb].
  rewrite !mul_NaN_l, !add_NaN_r, !sub_NaN_r, H1, H2.
  unfold capsule_vertex. fold firstIndex cr cg cb.
  rewrite <- !app_assoc. reflexivity.
Qed.

Lemma capsule_segments_NaN (x1 z1 x2 z2 : Number) :
  x1 = NaN \/ z1 = NaN \/ x2 = NaN \/ z2 = NaN ->
  Plants.capsule_segments x1 z1 x2 z2 = NaN.
Proof.
  intros H. unfold Plants.capsule_segments.
  assert (Hsum : ((x2 - x1) * (x2 - x1) + (z2 - z1) * (z2 - z1))%js = NaN).
  { destruct H as [ -> | [ -> | [ -> | -> ] ] ];
      now rewrite ?sub_NaN_r, ?sub_NaN_l, ?mul_NaN_l, ?add_NaN_l, ?add_NaN_r. }
  rewrite Hsum. reflexivity.
Qed.

(** X28: a capsule with a NaN coordinate.  The number of segments is NaN:
    the loop is not entered, and [modelCapsule] adds the two end vertices
    only, but two triangles, which name the vertex before the first index
    and the one two after it, neither of them a vertex of the capsule; the
    range handed to [flexSampler.applyToRange] ends before it starts. *)
Theorem capsule_of_NaN (x1 z1 x2 z2 y radius : Number) (uv : Vector2.t)
    (color : Plants.Color) (shade : Number)
    (vertices0 indices0 : list Number) :
  x1 = NaN \/ z1 = NaN \/ x2 = NaN \/ z2 = NaN ->
  let firstIndex := getFirstIndex vertices0 in
  Plants.modelCapsule getFirstIndex x1 z1 x2 z2
    y radius uv color shade vertices0 indices0
  = Some {| Plants.vertices :=
              vertices0
              ++ capsule_vertex (Plants.r color * shade)%js
                   (Plants.g color * shade)%js (Plants.b color * shade)%js
                   x1 y z1 uv
              ++ capsule_vertex (Plants.r color * shade)%js
                   (Plants.g color * shade)%js (Plants.b color * shade)%js
                   x2 y z2 uv;
            Plants.indices :=
              indices0
              ++ [firstIndex; (firstIndex + Fin 1)%js; (firstIndex + Fin 2)%js;
                  (firstIndex + Fin 0 - Fin 1)%js; (firstIndex + Fin 0)%js;
                  (firstIndex + Fin 0 + Fin 1)%js];
            Plants.flexFirst := firstIndex;
            Plants.flexLast := (firstIndex + Fin 0 - Fin 1)%js |}.
Proof.
  intros H firstIndex. unfold Plants.modelCapsule.
  rewrite (capsule_segments_NaN _ _ _ _ H).
  change (NaN - Fin 1)%js with NaN. change (NaN - Fin 2)%js with NaN.
  change (shl NaN 1) with (Fin 0).
  cbn [iterations Nat.sub seq fold_left].
  unfold capsule_vertex. fold firstIndex.
  rewrite <- !app_assoc. reflexivity.
Qed.

End Capsule.

(** * The thickness of the body shape *)

Section ShapeSample.

Import JS.
Local Open Scope R_scope.

(** X30: sampled at a position from 0 to 1, a body shape with positive
    powers gives a thickness that is a real number from 0 to 1, as the
    documentation of [sample] promises. *)
Theorem sample_range (centerPower radiusPower x : R) :
  0 < centerPower -> 0 < radiusPower -> 0 <= x <= 1 ->
  exists y,
    PatternShapeBody.sample
      (PatternShapeBody.new (Fin centerPower) (Fin radiusPower)) (Fin x)
    = Fin y /\
    0 <= y <= 1.
Proof.
  intros Hc Hr Hx. unfold PatternShapeBody.sample, PatternShapeBody.new.
  cbn [PatternShapeBody.centerPower PatternShapeBody.radiusPower].
  destruct (pow_unit x centerPower Hx Hc) as (a & -> & Ha).
  unfold Math_PI. cbn [sub add opp mul Math_cos].
  apply pow_unit; [|exact Hr].
  pose proof PI_RGT_0. split.
  - apply cos_ge_0; nra.
  - apply COS_bound.
Qed.

End ShapeSample.

(** * The further properties at concrete inputs *)

(** The constructor accepts the length 1 and rejects the length 0. *)
Lemma constructor_domain_witness :
  (exists b, Body.new corner_pattern corner_pixel (JS.Fin 1) (JS.Fin 0.3)
             = JS.Normal b) /\
  Body.new corner_pattern corner_pixel (JS.Fin 0) (JS.Fin 0.3)
  = JS.Throw JS.RangeError.
Proof.
  split.
  - apply (proj1 (constructor_domain corner_pattern corner_pixel (JS.Fin 1)
                    (JS.Fin 0.3))).
    exists 1%R. split; [reflexivity|lra].
  - apply (proj2 (constructor_domain corner_pattern corner_pixel (JS.Fin 0)
                    (JS.Fin 0.3))).
    intros b H.
    destruct (proj1 (proj1 (constructor_domain corner_pattern corner_pixel
                              (JS.Fin 0) (JS.Fin 0.3))) (ex_intro _ b H))
      as (l & El & Hl & _).
    injection El as <-. lra.
Defined.

(** A body of length .1 has a NaN in its second segment after one tick. *)
Lemma short_body_update_witness :
  exists b s1 s2,
    Body.new corner_pattern corner_pixel (JS.Fin 0.1) (JS.Fin 0.3) = JS.Normal b /\
    Body.springs b = [JS.NaN] /\
    Body.initializeSpine (vec 0 0) (vec 1 0) (BodySpec.on_body b)
      = (s1, JS.Normal tt) /\
    Body.update (vec 0.1 0) (JS.Fin 0) (JS.Fin 0.05) s1 = (s2, JS.Normal tt) /\
    Body.spine (Body.this s2) = [Some (vec 0.1 0); Some not_a_vector].
Proof.
  destruct (new_succeeds corner_pattern corner_pixel 0.1 (JS.Fin 0.3))
    as [b Hb]; [lra | lra |].
  destruct (short_body_update _ _ 0.1 _ _ ltac:(lra) Hb) as (_ & Hs & Hrun).
  destruct (Hrun (vec 0 0) (vec 1 0) (vec 0.1 0) (JS.Fin 0) (JS.Fin 0.05))
    as (s1 & s2 & H1 & H2 & H3).
  exists b, s1, s2. auto.
Defined.

(** The small body as constructed throws when ticked or drawn. *)
Lemma uninitialised_body_throws_witness :
  Body.update (vec 0 0) (JS.Fin 0) (JS.Fin 0.02) (BodySpec.on_body fresh_small_body)
  = (BodySpec.on_body fresh_small_body, JS.Throw JS.TypeError) /\
  Body.render (JS.Fin 0) (BodySpec.on_body fresh_small_body)
  = (BodySpec.on_body fresh_small_body, JS.Throw JS.TypeError).
Proof.
  exact (uninitialised_body_throws _ _ _ _ _ small_body_constructed
           (vec 0 0) (JS.Fin 0) (JS.Fin 0.02) (JS.Fin 0) [] []).
Defined.

(** A tick of the small body with its head moved keeps the old spine as the
    previous one. *)
Lemma update_snapshot_witness :
  exists s',
    Body.update (vec 0.05 0) (JS.Fin 0) (JS.Fin 0.05) (BodySpec.on_body small_body)
      = (s', JS.Normal tt) /\
    Body.spinePrevious (Body.this s') = map Some small_spine /\
    JS.array_get (Body.spine (Body.this s')) 0 = Some (vec 0.05 0).
Proof.
  destruct (update_snapshot small_body small_spine small_spine (vec 0.05 0)
              (JS.Fin 0) (JS.Fin 0.05) small_body_initialised)
    as (s' & Hrun & Hp & H0 & _); [discriminate|].
  exists s'. auto.
Defined.

(** A frame of the moving body is a cut and four vertices. *)
Lemma render_command_count_witness :
  exists x y draws,
    BodySpec.render_output moving_body (JS.Fin 0.5)
      = Body.cutStrip x y (JS.Fin 0.01) (JS.Fin 0.125) :: draws /\
    length draws = 4%nat.
Proof.
  destruct (render_command_count moving_body shifted_spine small_spine
              (JS.Fin 0.5)) as (x & y & draws & Hrun & _ & Hlen & _).
  - repeat split.
  - discriminate.
  - exists x, y, draws. split; [exact Hrun|exact Hlen].
Defined.


(** The pond of three fish lets a fish spawn, and still does after the tick
    in which one of them dies. *)
Lemma gates_monotone_witness :
  Pond.canDrop three_fish = true /\
  exists p' w' calls,
    tick_with_death = Some (p', w', calls) /\ Pond.canSpawn p' = true.
Proof.
  pose proof (gates_monotone
                (fun _ _ (_ : unit) (w : unit) => w)
                (fun f (_ : unit) (_ : unit) (w : unit) => ((f =? 11)%nat, w))
                (fun _ (_ : unit) (w : unit) => w)
                three_fish) as (Hdrop & _ & _ & Htick).
  split; [apply Hdrop; reflexivity|].
  destruct tick_with_death as [[[p' w'] calls]|] eqn:E;
    [|vm_compute in E; discriminate].
  exists p', w', calls. split; [reflexivity|].
  apply (Htick tt tt tt p' w' calls E). reflexivity.
Defined.

(** The rain without drops has not been updated after five tests. *)
Lemma rain_without_drops_witness : Rain.update 5 dry_rain = None.
Proof. exact (rain_without_drops dry_rain eq_refl 5%nat). Defined.

(** At [time = 0] the rain of two drops is rendered with its window, 0. *)
Lemma rain_render_window_witness :
  Rain.render_window small_rain (JS.Fin 0) = JS.Fin 0.
Proof.
  apply (proj1 (rain_render_window small_rain 0 eq_refl ltac:(lra))).
Defined.

(** The shape with powers 1 sampled at one half. *)
Lemma sample_range_witness :
  exists y,
    PatternShapeBody.sample
      (PatternShapeBody.new (JS.Fin 1) (JS.Fin 1)) (JS.Fin 0.5) = JS.Fin y /\
    (0 <= y <= 1)%R.
Proof.
  apply (sample_range 1 1 0.5); lra.
Defined.

(** The capsule from [(NaN, 0)] to [(1, 0)] is handed on with the range
    from 0 to 0 + 0 - 1. *)
Lemma capsule_of_NaN_witness :
  exists c,
    Plants.modelCapsule first_index_zero JS.NaN (JS.Fin 0) (JS.Fin 1)
      (JS.Fin 0) (JS.Fin 0) (JS.Fin 0.1) (vec 0 0) white (JS.Fin 0.5) [] []
    = Some c /\
    Plants.flexLast c = JS.sub (JS.add (JS.Fin 0) (JS.Fin 0)) (JS.Fin 1).
Proof.
  eexists. split.
  - apply (capsule_of_NaN first_index_zero JS.NaN (JS.Fin 0) (JS.Fin 1)
             (JS.Fin 0) (JS.Fin 0) (JS.Fin 0.1) (vec 0 0) white (JS.Fin 0.5)
             [] []).
    left. reflexivity.
  - reflexivity.
Defined.

Lemma one_half_range :
  forall s, exists q : R, fst (one_half s) = JS.Fin q /\ (0 <= q < 1)%R.
Proof. intros s. exists 0.5%R. split; [reflexivity|lra]. Defined.

(** The springs of the small body fall from .9. *)
Lemma springs_fall_witness :
  exists si sj last,
    JS.number_at (Body.springs fresh_small_body) 0 = JS.Fin si /\
    JS.number_at (Body.springs fresh_small_body) 1 = JS.Fin sj /\
    JS.number_at (Body.springs fresh_small_body) 1 = JS.Fin last /\
    (last <= sj)%R /\ (sj <= si)%R /\ (si <= 0.9)%R.
Proof.
  destruct (springs_fall _ _ _ _ _ small_body_constructed)
    as (_ & _ & _ & H); [cbn; lia|].
  apply (H 0%nat 1%nat). cbn. lia.
Defined.

(** The texture coordinates [u] of the body of length .2 over the wide
    pixel start at [0 + .02] and go towards [0 + .5 - .01]. *)
Lemma texture_u_values_witness :
  exists b,
    Body.new corner_pattern wide_pixel (JS.Fin 0.2) (JS.Fin 0.3) = JS.Normal b /\
    JS.number_at (Body.u b) 0 = (JS.Fin 0 + JS.Fin 0.02)%js /\
    JS.number_at (Body.u b) 1
    = (JS.Fin 0 + JS.Fin 0.02
       + (JS.Fin 0 + JS.Fin 0.5 - JS.Fin 0.01 - (JS.Fin 0 + JS.Fin 0.02))
         * JS.of_nat 1 / (JS.of_nat (length (Body.spine b)) - JS.Fin 1))%js.
Proof.
  destruct (new_succeeds corner_pattern wide_pixel 0.2 (JS.Fin 0.3))
    as [b Hb]; [lra | lra |].
  destruct (texture_u_values _ _ _ _ _ Hb) as (_ & Hk & H0).
  destruct (new_count _ _ _ _ _ Hb) as (l & n & _ & Hlen & Hn & _).
  exists b. split; [exact Hb|]. split.
  - exact (H0 _ _ eq_refl eq_refl).
  - apply Hk. lia.
Defined.

(** The small body, initialised at the origin along the x axis. *)
Lemma initializeSpine_trail_witness :
  Body.initializeSpine (vec 0 0) (vec 1 0) (BodySpec.on_body fresh_small_body)
  = (BodySpec.on_body
       (Body.with_spinePrevious
          (Body.with_spine fresh_small_body
             (map Some (trail (vec 0 0) (Vector2.multiply (vec 1 0) (JS.Fin 0.1)) 3)))
          (map Some (trail (vec 0 0) (Vector2.multiply (vec 1 0) (JS.Fin 0.1)) 3))),
     JS.Normal tt).
Proof.
  apply (initializeSpine_trail fresh_small_body (vec 0 0) (vec 1 0) [] []).
  - cbn. lia.
  - reflexivity.
Defined.

(** The frame at [time = 0] after the tick of the small body with its head
    moved shows the body where it was. *)
Lemma render_after_update_witness :
  exists s',
    Body.update (vec 0.05 0) (JS.Fin 0) (JS.Fin 0.05) (BodySpec.on_body small_body)
      = (s', JS.Normal tt) /\
    BodySpec.render_output (Body.this s') (JS.Fin 0)
    = BodySpec.strip_through small_body (BodySpec.coordinates small_spine).
Proof.
  destruct moving_tick as (s' & qx & qy & tx & ty & Hrun & _ & Hs').
  exists s'. split; [exact Hrun|].
  refine (render_after_update small_body small_spine small_spine _
            (vec 0.05 0) (JS.Fin 0) (JS.Fin 0.05) s' small_body_initialised
            _ Hrun Hs' _).
  - discriminate.
  - repeat constructor; eexists _, _; reflexivity.
Defined.

(** The texture coordinates [v] of a frame of the small body. *)
Lemma texture_v_values_witness :
  map command_v (BodySpec.render_output small_body (JS.Fin 0.5))
  = [(JS.Fin 0 + JS.Fin 0.25 * JS.Fin 0.5)%js;
     (JS.Fin 0 + JS.Fin 0.25 * JS.Fin 0.5
      - (JS.Fin 0.25 * JS.Fin 0.5 - JS.Fin 0.01))%js;
     (JS.Fin 0 + JS.Fin 0.25 * JS.Fin 0.5
      + (JS.Fin 0.25 * JS.Fin 0.5 - JS.Fin 0.01))%js;
     JS.NaN; JS.NaN].
Proof.
  refine (texture_v_values corner_pattern corner_pixel (JS.Fin 0.2) (JS.Fin 0.3)
            fresh_small_body
            [BodySpec.call_initializeSpine (vec 0 0) (vec 1 0)]
            small_spine small_spine (JS.Fin 0.5)
            small_body_constructed _).
  unfold BodySpec.run_calls. cbn [fold_left BodySpec.run_call].
  rewrite small_body_initialized. exact small_body_initialised.
Defined.

(** The rain of two drops: from the first drop to the second, the loop adds
    the flare of the first. *)
Lemma rain_drops_loop_witness :
  Rain.drops_loop 2 small_rain (JS.of_nat 0) (JS.of_nat 1) []
  = Some [Rain.addFlare (JS.Fin 0.1) (JS.Fin 0.2)
            Rain.DROP_EFFECT_RADIUS Rain.DROP_EFFECT_DISPLACEMENT].
Proof.
  refine (proj1 (rain_drops_loop small_rain 0 1 [] 2 _ _ _));
    cbn; lia.
Defined.

(** With the randomizer that returns one half, the loops over a grid of two
    columns and one row leave two positions. *)
Lemma place_drops_within_cells_witness :
  exists positions random',
    Rain.place_drops unit one_half (JS.Fin 0) 2 1 tt
    = (positions, random') /\
    length positions = 2%nat.
Proof.
  destruct (place_drops_within_cells one_half one_half_range 0 2 1 tt)
    as (positions & points & random' & Hrun & Hlen & _).
  - cbn. lia.
  - exists positions, random'. split; [exact Hrun|exact Hlen].
Defined.

(** The loop of a white capsule of four segments along the x axis adds four
    vertices and the indices of one pair of triangles. *)
Lemma capsule_loop_adds_witness :
  exists vs,
    fold_left
      (Plants.capsule_segment (JS.Fin 0) (JS.Fin 0) (JS.Fin 0.3) (JS.Fin 0)
         (JS.Fin 0) (JS.Fin 0.1) (JS.Fin 0) (JS.Fin 1) (vec 0 0) white
         (JS.Fin 0.5) (JS.Fin 0) (JS.of_nat 4))
      (seq 1 2) ([], [])
    = (vs, capsule_quad (JS.Fin 0) 1) /\
    length vs = 40%nat.
Proof.
  destruct (capsule_loop_adds (JS.Fin 0) (JS.Fin 0) (JS.Fin 0.3) (JS.Fin 0)
              (JS.Fin 0) (JS.Fin 0.1) (JS.Fin 0) (JS.Fin 1) (vec 0 0) white
              (JS.Fin 0.5) (JS.Fin 0) 4 [] [])
    as (vs & Hrun & Hlen & _); [lia | cbn; lia | cbn; lia |].
  exists vs. split; [|exact Hlen].
  cbn [Nat.sub seq flat_map app] in Hrun. rewrite app_nil_r in Hrun.
  exact Hrun.
Defined.
